(** * Payment correlation and access coordination of the Sphere gaming MCP server

    A shallow embedding of [src/config.ts], [src/payment-tracker.ts],
    [src/nostr-service.ts] and the helpers and the [confirm_payment] tool of
    [src/index.ts], with the properties the specification states about them.

    Conventions of the embedding:
    - a JavaScript string is a [string]; a character is one code unit in the
      range U+0000..U+00FF;
    - [bigint] values and the values of [Date.now()] are [Z]; a [number]
      that [parseInt] returns, which may be [NaN], is an [option Z]; the
      numbers of the tracker are given twice: as [Z], for the tracker
      whose numbers are integers that binary64 holds exactly, and in
      [Binary64], with rounding, the infinities and NaN, for the tracker
      on every number it can be given;
    - [Date.now()], [Math.random()] and [randomBytes] are inputs of the
      operation that reads them;
    - a [Map] whose iteration order matters is an association list in
      insertion order, another [Map] is a [gmap]. *)

From Stdlib Require Import ZArith Ascii String Bool List Lia.
From stdpp Require Import base option list gmap strings pretty.

Local Open Scope Z_scope.

(** ** JavaScript strings *)

Module JsString.

(** [WhiteSpace] and [LineTerminator] code units below U+0100. *)
Definition is_white_space (c : ascii) : bool :=
  let n := N_of_ascii c in
  ((9 <=? n) && (n <=? 13) || (n =? 32) || (n =? 160))%N.

Fixpoint trimStart (s : string) : string :=
  match s with
  | EmptyString => EmptyString
  | String c s' => if is_white_space c then trimStart s' else s
  end.

(** [trimEnd] keeps a character when it is not white space or when
    something remains after it. *)
Fixpoint trimEnd (s : string) : string :=
  match s with
  | EmptyString => EmptyString
  | String c s' =>
      match trimEnd s' with
      | EmptyString => if is_white_space c then EmptyString else String c EmptyString
      | r => String c r
      end
  end.

(** [String.prototype.trim]. *)
Definition trim (s : string) : string := trimEnd (trimStart s).

Fixpoint drop (n : nat) (s : string) : string :=
  match n, s with
  | O, _ => s
  | S _, EmptyString => EmptyString
  | S n', String _ s' => drop n' s'
  end.

(** [s.replace(pat, rep)] with a string pattern: only the first
    occurrence of [pat] is replaced.  The program only calls it with the
    replacement [""], so no [$] pattern of the replacement is involved. *)
Fixpoint replace (pat rep s : string) : string :=
  if String.prefix pat s then rep +:+ drop (String.length pat) s
  else match s with
       | EmptyString => EmptyString
       | String c s' => String c (replace pat rep s')
       end.

(** [s.includes(pat)]. *)
Fixpoint includes (pat s : string) : bool :=
  String.prefix pat s ||
  match s with
  | EmptyString => false
  | String _ s' => includes pat s'
  end.

Definition lower_char (c : ascii) : ascii :=
  let n := N_of_ascii c in
  if ((65 <=? n) && (n <=? 90) ||
      (192 <=? n) && (n <=? 222) && negb (n =? 215))%N
  then ascii_of_N (n + 32) else c.

(** [String.prototype.toLowerCase]. *)
Fixpoint toLowerCase (s : string) : string :=
  match s with
  | EmptyString => EmptyString
  | String c s' => String (lower_char c) (toLowerCase s')
  end.

(** Truthiness of a [string | undefined | null] value. *)
Definition truthy (o : option string) : bool :=
  match o with
  | Some (String _ _) => true
  | _ => false
  end.

(** [o || d] for a [string | undefined] value [o]. *)
Definition or_default (o : option string) (d : string) : string :=
  match o with
  | Some (String c s) => String c s
  | _ => d
  end.

(** [s.replace(/\s+/g, rep)]: every maximal run of white space becomes one
    [rep]; [in_run] tells that the character before was white space. *)
Fixpoint replace_white_space_runs (rep : string) (in_run : bool) (s : string) : string :=
  match s with
  | EmptyString => EmptyString
  | String c s' =>
      if is_white_space c
      then (if in_run then replace_white_space_runs rep true s'
            else rep +:+ replace_white_space_runs rep true s')
      else String c (replace_white_space_runs rep false s')
  end.

(** A code unit [toLowerCase] changes. *)
Definition is_upper (c : ascii) : bool :=
  let n := N_of_ascii c in
  ((65 <=? n) && (n <=? 90) ||
   (192 <=? n) && (n <=? 222) && negb (n =? 215))%N.

Fixpoint has_upper (s : string) : bool :=
  match s with
  | EmptyString => false
  | String c s' => is_upper c || has_upper s'
  end.

Fixpoint has_white_space (s : string) : bool :=
  match s with
  | EmptyString => false
  | String c s' => is_white_space c || has_white_space s'
  end.

End JsString.

(** ** Helpers of [index.ts] *)

(** [cleanUnicityId]: the account handle as it is used for map keys. *)
Definition cleanUnicityId (unicityId : string) : string :=
  JsString.trim (JsString.replace "@" "" (JsString.replace "@unicity" "" unicityId)).

(** ** Number conversions of the JavaScript runtime used by [config.ts] *)

Module JsNumber.

Definition digit_value (base : Z) (c : ascii) : option Z :=
  let n := Z.of_N (N_of_ascii c) in
  let d := if (48 <=? n) && (n <=? 57) then n - 48
           else if (97 <=? n) && (n <=? 122) then n - 87
           else if (65 <=? n) && (n <=? 90) then n - 55
           else base in
  if d <? base then Some d else None.

Fixpoint digits_value (base acc : Z) (s : string) : option Z :=
  match s with
  | EmptyString => Some acc
  | String c s' =>
      match digit_value base c with
      | Some d => digits_value base (acc * base + d) s'
      | None => None
      end
  end.

(** A non-empty run of digits of the base, and nothing else. *)
Definition all_digits (base : Z) (s : string) : option Z :=
  match s with
  | EmptyString => None
  | _ => digits_value base 0 s
  end.

(** [BigInt(s)] for a string argument ([StringToBigInt]): [None] stands for
    the [SyntaxError] it throws. *)
Definition BigInt (s : string) : option Z :=
  match JsString.trim s with
  | EmptyString => Some 0
  | String "+" r => all_digits 10 r
  | String "-" r => Z.opp <$> all_digits 10 r
  | String "0" (String "x" r) | String "0" (String "X" r) => all_digits 16 r
  | String "0" (String "o" r) | String "0" (String "O" r) => all_digits 8 r
  | String "0" (String "b" r) | String "0" (String "B" r) => all_digits 2 r
  | t => all_digits 10 t
  end.

(** The longest prefix of decimal digits of [s], with its value. *)
Fixpoint leading_digits (acc : option Z) (s : string) : option Z :=
  match s with
  | EmptyString => acc
  | String c s' =>
      match digit_value 10 c with
      | Some d => leading_digits (Some (default 0 acc * 10 + d)) s'
      | None => acc
      end
  end.

(** [parseInt(s, 10)]: [None] stands for [NaN].  The value is the
    mathematical integer, which is the [number] returned as long as it is
    below 2^53. *)
Definition parseInt (s : string) : option Z :=
  match JsString.trimStart s with
  | String "-" r => Z.opp <$> leading_digits None r
  | String "+" r => leading_digits None r
  | t => leading_digits None t
  end.

End JsNumber.

(** ** [config.ts] *)

Module Config.

Record t := mk {
  relayUrl : string;
  aggregatorUrl : string;
  aggregatorApiKey : string;
  privateKeyHex : string;
  nonce : string;
  nametag : string;
  coinId : string;
  amount : Z;
  dayPassDurationHours : option Z;
  paymentTimeoutSeconds : option Z;
  dataDir : string
}.

Inductive exn :=
| Error (message : string)
| SyntaxError (input : string).

Inductive outcome :=
| Return (c : t)
| Throw (e : exn).

(** What [randomBytes(32).toString("hex")] gives at each of its three
    places in [loadConfig]: for the private key, for the nonce made with
    it, and for a nonce made alone. *)
Record entropy := { hex1 : string; hex2 : string; hex3 : string }.

(** [loadConfig()], with [process.env] as [env]. *)
Definition loadConfig (env : gmap string string) (rnd : entropy) : outcome :=
  let privateKeyHex0 := env !! "MCP_PRIVATE_KEY_HEX" in
  let nonce0 := env !! "MCP_NONCE_HEX" in
  let '(privateKeyHex1, nonce1) :=
    if negb (JsString.truthy privateKeyHex0)
    then (hex1 rnd, Some (hex2 rnd))
    else (default EmptyString privateKeyHex0, nonce0) in
  let nonce2 :=
    if negb (JsString.truthy nonce1) then hex3 rnd
    else default EmptyString nonce1 in
  let nametag0 := env !! "MCP_NAMETAG" in
  if negb (JsString.truthy nametag0)
  then Throw (Error "MCP_NAMETAG environment variable is required (e.g., 'gaming-mcp')")
  else
  let coinId0 := env !! "PAYMENT_COIN_ID" in
  if negb (JsString.truthy coinId0)
  then Throw (Error "PAYMENT_COIN_ID environment variable is required")
  else
  let cleanNametag :=
    JsString.trim (JsString.replace "@" ""
      (JsString.replace "@unicity" "" (default EmptyString nametag0))) in
  let amountText := JsString.or_default (env !! "PAYMENT_AMOUNT") "1000000000" in
  match JsNumber.BigInt amountText with
  | None => Throw (SyntaxError amountText)
  | Some amount0 =>
      Return {|
        relayUrl := JsString.or_default (env !! "NOSTR_RELAY_URL")
                      "wss://nostr-relay.testnet.unicity.network";
        aggregatorUrl := JsString.or_default (env !! "AGGREGATOR_URL")
                      "https://aggregator-test.unicity.network";
        aggregatorApiKey := JsString.or_default (env !! "AGGREGATOR_API_KEY")
                      "sk_06365a9c44654841a366068bcfc68986";
        privateKeyHex := privateKeyHex1;
        nonce := nonce2;
        nametag := cleanNametag;
        coinId := default EmptyString coinId0;
        amount := amount0;
        dayPassDurationHours :=
          JsNumber.parseInt (JsString.or_default (env !! "DAY_PASS_HOURS") "24");
        paymentTimeoutSeconds :=
          JsNumber.parseInt (JsString.or_default (env !! "PAYMENT_TIMEOUT_SECONDS") "120");
        dataDir := JsString.or_default (env !! "DATA_DIR") "./data"
      |}
  end.

(** The start of [main()]: the configuration is loaded before any service
    exists; an exception reaches [main().catch], which ends the process
    with [process.exit(1)]. *)
Inductive startup :=
| Exit (code : Z) (e : exn)
| Configured (c : t).

Definition main_start (env : gmap string string) (rnd : entropy) : startup :=
  match loadConfig env rnd with
  | Throw e => Exit 1 e
  | Return c => Configured c
  end.

End Config.

(** ** [payment-tracker.ts], on integers

    The tracker when the configured hours are a number and every product,
    sum and difference it computes is an integer below [2^53] in absolute
    value: there the arithmetic of [Z] is the arithmetic of the runtime.
    [PaymentTracker64] below is the tracker on all numbers, and agrees
    with this one on such integers. *)

Module PaymentTracker.

(** [DayPass] of [types.ts]. *)
Record DayPass := {
  unicityId : string;
  grantedAt : Z;
  expiresAt : Z
}.

Record t := {
  dayPasses : gmap string DayPass;
  durationMs : Z
}.

(** [new PaymentTracker(durationHours)]. *)
Definition new (durationHours : Z) : t :=
  {| dayPasses := ∅; durationMs := durationHours * 60 * 60 * 1000 |}.

(** [grantDayPass(unicityId)], with [now] the value of [Date.now()]. *)
Definition grantDayPass (id : string) (now : Z) (tr : t) : DayPass * t :=
  let pass := {| unicityId := id; grantedAt := now;
                 expiresAt := now + durationMs tr |} in
  (pass, {| dayPasses := <[JsString.toLowerCase id := pass]> (dayPasses tr);
            durationMs := durationMs tr |}).

Definition hasValidPass (id : string) (now : Z) (tr : t) : bool :=
  match dayPasses tr !! JsString.toLowerCase id with
  | None => false
  | Some pass => now <? expiresAt pass
  end.

(** [getPass(unicityId)]: an expired pass is deleted by the read. *)
Definition getPass (id : string) (now : Z) (tr : t) : option DayPass * t :=
  match dayPasses tr !! JsString.toLowerCase id with
  | None => (None, tr)
  | Some pass =>
      if expiresAt pass <=? now
      then (None, {| dayPasses := delete (JsString.toLowerCase id) (dayPasses tr);
                     durationMs := durationMs tr |})
      else (Some pass, tr)
  end.

(** [getRemainingTime(unicityId)] reads the clock twice: [now1] inside
    [getPass], [now2] for the difference. *)
Definition getRemainingTime (id : string) (now1 now2 : Z) (tr : t) : Z * t :=
  match getPass id now1 tr with
  | (None, tr') => (0, tr')
  | (Some pass, tr') => (Z.max 0 (expiresAt pass - now2), tr')
  end.

(** [formatRemainingTime(unicityId)]; the numbers are printed in decimal,
    digit by digit, as [String(n)] prints an integer below 2^53. *)
Definition formatRemainingTime (id : string) (now1 now2 : Z) (tr : t) : string * t :=
  let '(ms, tr') := getRemainingTime id now1 now2 tr in
  if ms =? 0 then ("No active pass", tr')
  else
    let hours := ms / (60 * 60 * 1000) in
    let minutes := Z.rem ms (60 * 60 * 1000) / (60 * 1000) in
    if 0 <? hours
    then (pretty hours +:+ "h " +:+ pretty minutes +:+ "m remaining", tr')
    else (pretty minutes +:+ "m remaining", tr').

End PaymentTracker.

(** ** Numbers of the runtime, as far as the tracker computes with them *)

Module Binary64.

(** A value of type [number] in [payment-tracker.ts].  What the tracker is
    given are integers ([parseInt] of the configured hours, [Date.now()])
    or NaN, and each operation it applies to them (product, sum,
    difference, [Math.max]) gives an integer that binary64 holds, an
    infinity or NaN.  The sign of a zero is left out: no operation of the
    tracker tells the two zeros apart. *)
Inductive number :=
| NaN
| Infinity (negative : bool)
| Int (z : Z).

(** The binary64 value of the integer [z]: the nearest integer with 53
    significant bits, the even one of two nearest, and an infinity from
    [2^1024 - 2^970] on. *)
Definition round (z : Z) : number :=
  let a := Z.abs z in
  if a <? 2 ^ 53 then Int z
  else
    let e := Z.log2 a - 52 in
    let q := a / 2 ^ e in
    let r := a mod 2 ^ e in
    let up := (2 ^ (e - 1) <? r) || ((r =? 2 ^ (e - 1)) && Z.odd q) in
    let m := if up then q + 1 else q in
    if 2 ^ 1024 <=? m * 2 ^ e then Infinity (z <? 0)
    else Int (Z.sgn z * (m * 2 ^ e)).

(** [x * y]. *)
Definition mul (x y : number) : number :=
  match x, y with
  | NaN, _ | _, NaN => NaN
  | Int a, Int b => round (a * b)
  | Infinity n, Int b | Int b, Infinity n =>
      if b =? 0 then NaN else Infinity (xorb n (b <? 0))
  | Infinity n, Infinity m => Infinity (xorb n m)
  end.

(** [x + y]. *)
Definition add (x y : number) : number :=
  match x, y with
  | NaN, _ | _, NaN => NaN
  | Int a, Int b => round (a + b)
  | Infinity n, Int _ | Int _, Infinity n => Infinity n
  | Infinity n, Infinity m => if Bool.eqb n m then Infinity n else NaN
  end.

(** [x - y]. *)
Definition sub (x y : number) : number :=
  match x, y with
  | NaN, _ | _, NaN => NaN
  | Int a, Int b => round (a - b)
  | Infinity n, Int _ => Infinity n
  | Int _, Infinity n => Infinity (negb n)
  | Infinity n, Infinity m => if Bool.eqb n m then NaN else Infinity n
  end.

(** [x < y]: false when one of them is NaN. *)
Definition lt (x y : number) : bool :=
  match x, y with
  | NaN, _ | _, NaN => false
  | Int a, Int b => a <? b
  | Infinity n, Int _ => n
  | Int _, Infinity m => negb m
  | Infinity n, Infinity m => n && negb m
  end.

(** [x >= y]: false when one of them is NaN. *)
Definition ge (x y : number) : bool :=
  match x, y with
  | NaN, _ | _, NaN => false
  | _, _ => negb (lt x y)
  end.

(** [Math.max(x, y)]. *)
Definition max (x y : number) : number :=
  match x, y with
  | NaN, _ | _, NaN => NaN
  | _, _ => if lt x y then y else x
  end.

(** The number [parseInt] returns, from its model in [JsNumber]: NaN, or
    the binary64 value of the integer read (of a numeral of at most 20
    significant digits; beyond, the runtime may round the numeral first). *)
Definition of_parseInt (o : option Z) : number :=
  match o with
  | None => NaN
  | Some z => round z
  end.

End Binary64.

(** ** [payment-tracker.ts] on the numbers of the runtime *)

Module PaymentTracker64.

Import Binary64.

(** [DayPass] of [types.ts]. *)
Record DayPass := {
  unicityId : string;
  grantedAt : number;
  expiresAt : number
}.

Record t := {
  dayPasses : gmap string DayPass;
  durationMs : number
}.

(** The constructor: [durationHours * 60 * 60 * 1000], three products
    from the left. *)
Definition new (durationHours : number) : t :=
  {| dayPasses := ∅;
     durationMs := mul (mul (mul durationHours (Int 60)) (Int 60)) (Int 1000) |}.

(** [grantDayPass(unicityId)]; [now] is the value of [Date.now()], a time
    value, which binary64 holds. *)
Definition grantDayPass (id : string) (now : Z) (tr : t) : DayPass * t :=
  let pass := {| unicityId := id; grantedAt := Int now;
                 expiresAt := add (Int now) (durationMs tr) |} in
  (pass, {| dayPasses := <[JsString.toLowerCase id := pass]> (dayPasses tr);
            durationMs := durationMs tr |}).

(** [hasValidPass(unicityId)]. *)
Definition hasValidPass (id : string) (now : Z) (tr : t) : bool :=
  match dayPasses tr !! JsString.toLowerCase id with
  | None => false
  | Some pass => lt (Int now) (expiresAt pass)
  end.

(** [getPass(unicityId)]. *)
Definition getPass (id : string) (now : Z) (tr : t) : option DayPass * t :=
  match dayPasses tr !! JsString.toLowerCase id with
  | None => (None, tr)
  | Some pass =>
      if ge (Int now) (expiresAt pass)
      then (None, {| dayPasses := delete (JsString.toLowerCase id) (dayPasses tr);
                     durationMs := durationMs tr |})
      else (Some pass, tr)
  end.

(** Reads of the same id at the times of [clock], one after the other. *)
Fixpoint getPass_many (id : string) (clock : list Z) (tr : t)
  : list (option DayPass) * t :=
  match clock with
  | [] => ([], tr)
  | now :: clock' =>
      let '(r, tr1) := getPass id now tr in
      let '(rs, tr2) := getPass_many id clock' tr1 in
      (r :: rs, tr2)
  end.

(** [getRemainingTime(unicityId)]. *)
Definition getRemainingTime (id : string) (now1 now2 : Z) (tr : t) : number * t :=
  match getPass id now1 tr with
  | (None, tr') => (Int 0, tr')
  | (Some pass, tr') => (max (Int 0) (sub (expiresAt pass) (Int now2)), tr')
  end.

(** [cleanup()]. *)
Definition cleanup (now : Z) (tr : t) : t :=
  {| dayPasses := filter (λ kv, ge (Int now) (expiresAt kv.2) = false) (dayPasses tr);
     durationMs := durationMs tr |}.

(** A pass and a tracker of [PaymentTracker], whose numbers are integers,
    as a pass and a tracker on binary64. *)
Definition of_pass (pass : PaymentTracker.DayPass) : DayPass :=
  {| unicityId := PaymentTracker.unicityId pass;
     grantedAt := Int (PaymentTracker.grantedAt pass);
     expiresAt := Int (PaymentTracker.expiresAt pass) |}.

Definition of_tracker (tr : PaymentTracker.t) : t :=
  {| dayPasses := of_pass <$> PaymentTracker.dayPasses tr;
     durationMs := Int (PaymentTracker.durationMs tr) |}.

End PaymentTracker64.

(** ** [nostr-service.ts] *)

Module NostrService.

(** A [Promise<boolean>] made by [waitForPayment], which is also the
    identity of its [resolve] function: promises are numbered in the order
    of their creation. *)
Abbreviation Promise := nat (only parsing).

Record PendingPayment := {
  requestId : string;
  unicityId : string;
  userPubkey : string;
  amount : Z;
  coinId : string;
  createdAt : Z;
  resolve : Promise
}.

(** What [TokenTransferProtocol] reads from an inbound event.  The handler
    of the service reads the first three; [getReplyToEventId] is the
    reply reference of the event, which [scripts/test-payment.ts] prints. *)
Record Event := {
  isTokenTransfer : bool;
  getSender : string;
  getAmount : option Z;
  getReplyToEventId : option string
}.

(** One call of [client.sendPaymentRequest(target, {...})]. *)
Record PaymentRequest := {
  target : string;
  pr_amount : Z;
  pr_coinId : string;
  pr_recipientNametag : string;
  pr_message : string;
  pr_requestId : string
}.

(** The closure [waitForPayment] returned by [sendPaymentRequest], with the
    variables it captures. *)
Record Handle := {
  h_requestId : string;
  h_unicityId : string;
  h_userPubkey : string
}.

(** A callback scheduled with [setTimeout], with the variables it
    captures and its delay in milliseconds ([None] for [NaN]). *)
Record Timer := {
  t_requestId : string;
  t_resolve : Promise;
  t_delay : option Z
}.

#[global] Instance Handle_eq_dec : EqDecision Handle.
Proof. solve_decision. Defined.

(** The fields of the class, followed by the part of the runtime and of
    the transport the service acts on: the directory queries and payment
    requests handed to the client, the promises created and settled, every
    call of a [resolve] function, the timers scheduled and not yet run,
    the closures returned and not yet called, and the request ids drawn. *)
Record t := {
  client : bool;
  keyManager : bool;
  connected : bool;
  config : Config.t;
  pendingPayments : list (string * PendingPayment);
  queries : list string;
  outbox : list PaymentRequest;
  created : nat;
  settled : gmap nat bool;
  resolveCalls : list (Promise * bool);
  timers : list Timer;
  handles : list Handle;
  requestIds : list string
}.

Definition new (cfg : Config.t) : t :=
  {| client := false; keyManager := false; connected := false; config := cfg;
     pendingPayments := []; queries := []; outbox := []; created := 0%nat;
     settled := ∅; resolveCalls := []; timers := []; handles := [];
     requestIds := [] |}.

(** *** [Map] operations, on a list in insertion order *)

Definition map_has {V} (k : string) (m : list (string * V)) : bool :=
  bool_decide (k ∈ m.*1).

Definition map_delete {V} (k : string) (m : list (string * V)) : list (string * V) :=
  filter (λ kv, kv.1 ≠ k) m.

(** [set] keeps the position of a key that is present and appends a new
    key. *)
Fixpoint map_set {V} (k : string) (v : V) (m : list (string * V)) : list (string * V) :=
  match m with
  | [] => [(k, v)]
  | (k', v') :: m' =>
      if decide (k' = k) then (k, v) :: m' else (k', v') :: map_set k v m'
  end.

(** *** Effects on the runtime *)

(** A call of the [resolve] function of promise [p]: it settles the
    promise unless it is settled already. *)
Definition call_resolve (p : Promise) (b : bool) (s : t) : t :=
  {| client := client s; keyManager := keyManager s; connected := connected s;
     config := config s; pendingPayments := pendingPayments s;
     queries := queries s; outbox := outbox s; created := created s;
     settled := match settled s !! p with
                | None => <[p := b]> (settled s)
                | Some _ => settled s
                end;
     resolveCalls := resolveCalls s ++ [(p, b)];
     timers := timers s; handles := handles s; requestIds := requestIds s |}.

Definition set_pendingPayments (m : list (string * PendingPayment)) (s : t) : t :=
  {| client := client s; keyManager := keyManager s; connected := connected s;
     config := config s; pendingPayments := m;
     queries := queries s; outbox := outbox s; created := created s;
     settled := settled s; resolveCalls := resolveCalls s;
     timers := timers s; handles := handles s; requestIds := requestIds s |}.

Definition set_flags (cl km cn : bool) (s : t) : t :=
  {| client := cl; keyManager := km; connected := cn;
     config := config s; pendingPayments := pendingPayments s;
     queries := queries s; outbox := outbox s; created := created s;
     settled := settled s; resolveCalls := resolveCalls s;
     timers := timers s; handles := handles s; requestIds := requestIds s |}.

Definition set_timers (tms : list Timer) (s : t) : t :=
  {| client := client s; keyManager := keyManager s; connected := connected s;
     config := config s; pendingPayments := pendingPayments s;
     queries := queries s; outbox := outbox s; created := created s;
     settled := settled s; resolveCalls := resolveCalls s;
     timers := tms; handles := handles s; requestIds := requestIds s |}.

(** *** Methods *)

(** How far a call of [connect] gets when the service is not connected:
    [getIdentity] or [fromPrivateKey] throws and nothing is assigned; the
    constructor of the client throws and only the key manager is assigned;
    [client.connect] rejects and both are assigned; or the call returns. *)
Inductive connect_outcome :=
| IdentityThrows
| ClientThrows
| RelayThrows
| Connects.

(** [connect()]: a connected service returns at once. *)
Definition connect (how : connect_outcome) (s : t) : t :=
  if connected s then s
  else match how with
       | IdentityThrows => s
       | ClientThrows => set_flags (client s) true false s
       | RelayThrows => set_flags true true false s
       | Connects => set_flags true true true s
       end.

Definition disconnect (s : t) : t :=
  set_flags (client s) (keyManager s) false s.

(** The condition of the loop of [handleIncomingTransfer]. *)
Definition satisfies (ev : Event) (pending : PendingPayment) : bool :=
  bool_decide (userPubkey pending = getSender ev) &&
  match getAmount ev with
  | None => false
  | Some a => amount pending <=? a
  end.

(** The first entry, in iteration order, the event satisfies. *)
Fixpoint first_match (ev : Event) (m : list (string * PendingPayment))
  : option (string * PendingPayment) :=
  match m with
  | [] => None
  | (key, pending) :: m' =>
      if satisfies ev pending then Some (key, pending) else first_match ev m'
  end.

Definition handleIncomingTransfer (ev : Event) (s : t) : t :=
  if negb (keyManager s) then s
  else if negb (isTokenTransfer ev) then s
  else match first_match ev (pendingPayments s) with
       | Some (key, pending) =>
           let s1 := call_resolve (resolve pending) true s in
           set_pendingPayments (map_delete key (pendingPayments s1)) s1
       | None => s
       end.

Inductive result (A : Type) :=
| Ok (a : A)
| Throw (message : string).
Arguments Ok {A} a.
Arguments Throw {A} message.

(** [resolvePubkey(unicityId)]: the handle is cleaned by the expression
    [cleanUnicityId] also evaluates, and the client is queried;
    [directory] is the answer [client.queryPubkeyByNametag] gives for a
    nametag. *)
Definition resolvePubkey (directory : string → option string)
    (unicityId : string) (s : t) : result (option string) * t :=
  if negb (client s) then (Throw "Nostr client not connected", s)
  else
    let cleanId := cleanUnicityId unicityId in
    (Ok (directory cleanId),
     {| client := client s; keyManager := keyManager s; connected := connected s;
        config := config s; pendingPayments := pendingPayments s;
        queries := queries s ++ [cleanId]; outbox := outbox s;
        created := created s; settled := settled s;
        resolveCalls := resolveCalls s; timers := timers s;
        handles := handles s; requestIds := requestIds s |}).

(** [sendPaymentRequest(unicityId, userPubkey)]: [rid] is the value of
    [Math.random().toString(36).substring(2, 10)], [transport_ok] tells
    whether [client.sendPaymentRequest] succeeds; when it throws, the
    exception of the client, whose text the model does not keep, reaches
    the caller. *)
Definition sendPaymentRequest (unicityId userPubkey rid : string)
    (transport_ok : bool) (s : t) : result Handle * t :=
  if negb (client s) then (Throw "Nostr client not connected", s)
  else
    let msg := {| target := userPubkey;
                  pr_amount := Config.amount (config s);
                  pr_coinId := Config.coinId (config s);
                  pr_recipientNametag := Config.nametag (config s);
                  pr_message := "Gaming day pass for @" +:+ unicityId;
                  pr_requestId := rid |} in
    let h := {| h_requestId := rid; h_unicityId := unicityId;
                h_userPubkey := userPubkey |} in
    let sent hs :=
      {| client := client s; keyManager := keyManager s; connected := connected s;
         config := config s; pendingPayments := pendingPayments s;
         queries := queries s; outbox := outbox s ++ [msg];
         created := created s; settled := settled s;
         resolveCalls := resolveCalls s; timers := timers s;
         handles := hs; requestIds := requestIds s ++ [rid] |} in
    if transport_ok then (Ok h, sent (handles s ++ [h]))
    else (Throw "client.sendPaymentRequest", sent (handles s)).

(** Removal of the first occurrence of a closure from the returned ones. *)
Fixpoint take_handle (h : Handle) (hs : list Handle) : list Handle :=
  match hs with
  | [] => []
  | h' :: hs' => if decide (h' = h) then hs' else h' :: take_handle h hs'
  end.

(** A call of the closure [waitForPayment]: the executor of the new
    promise runs at once, stores the pending payment and schedules the
    timeout. *)
Definition waitForPayment (h : Handle) (now : Z) (s : t) : Promise * t :=
  let p := created s in
  let pending := {| requestId := h_requestId h; unicityId := h_unicityId h;
                    userPubkey := h_userPubkey h;
                    amount := Config.amount (config s);
                    coinId := Config.coinId (config s);
                    createdAt := now; resolve := p |} in
  let tm := {| t_requestId := h_requestId h; t_resolve := p;
               t_delay := (λ x, x * 1000) <$> Config.paymentTimeoutSeconds (config s) |} in
  (p,
   {| client := client s; keyManager := keyManager s; connected := connected s;
      config := config s;
      pendingPayments := map_set (h_requestId h) pending (pendingPayments s);
      queries := queries s; outbox := outbox s; created := S (created s);
      settled := settled s; resolveCalls := resolveCalls s;
      timers := timers s ++ [tm];
      handles := take_handle h (handles s); requestIds := requestIds s |}).

(** The callback given to [setTimeout]. *)
Definition onTimeout (rid : string) (p : Promise) (s : t) : t :=
  if map_has rid (pendingPayments s)
  then call_resolve p false
         (set_pendingPayments (map_delete rid (pendingPayments s)) s)
  else s.

(** The runtime runs the [n]-th scheduled timer. *)
Definition fireTimer (n : nat) (s : t) : option t :=
  tm ← timers s !! n;
  Some (onTimeout (t_requestId tm) (t_resolve tm)
          (set_timers (delete n (timers s)) s)).

(** The outcome of a promise: [None] while it is pending. *)
Definition outcome (p : Promise) (s : t) : option bool := settled s !! p.

(** *** Runs of the service *)

Inductive action :=
| Connect (how : connect_outcome)
| Disconnect
| ResolvePubkey (directory : string → option string) (unicityId : string)
| SendPaymentRequest (unicityId userPubkey rid : string) (transport_ok : bool)
| WaitForPayment (h : Handle) (now : Z)
| Transfer (ev : Event)
| FireTimer (n : nat).

(** One step; [None] when the action cannot happen: a closure that was
    never returned or was called already, a timer that is not scheduled.
    [index.ts] calls each closure at most once. *)
Definition step (a : action) (s : t) : option t :=
  match a with
  | Connect how => Some (connect how s)
  | Disconnect => Some (disconnect s)
  | ResolvePubkey directory u => Some (resolvePubkey directory u s).2
  | SendPaymentRequest u k rid ok => Some (sendPaymentRequest u k rid ok s).2
  | WaitForPayment h now =>
      if decide (h ∈ handles s) then Some (waitForPayment h now s).2 else None
  | Transfer ev => Some (handleIncomingTransfer ev s)
  | FireTimer n => fireTimer n s
  end.

Fixpoint run (acts : list action) (s : t) : option t :=
  match acts with
  | [] => Some s
  | a :: acts' => s' ← step a s; run acts' s'
  end.

Definition reachable (s : t) : Prop :=
  ∃ cfg acts, run acts (new cfg) = Some s.

End NostrService.

(** ** [index.ts]: the pubkey cache and the [confirm_payment] tool *)

Module Index.

Record CacheEntry := { pubkey : string; timestamp : Z }.

Definition PUBKEY_CACHE_TTL_MS : Z := 5 * 60 * 1000.

(** The module-level state: the services and the pubkey cache. *)
Record Server := {
  nostrService : NostrService.t;
  paymentTracker : PaymentTracker.t;
  pubkeyCache : gmap string CacheEntry
}.

(** The cache test of [resolvePubkey], with [now] the value of
    [Date.now()]. *)
Definition fresh (now : Z) (cached : CacheEntry) : bool :=
  now - timestamp cached <? PUBKEY_CACHE_TTL_MS.

Inductive cache_check :=
| Hit (pubkey : string)
| Miss (cleanId : string).

(** [resolvePubkey] up to its [await]. *)
Definition resolvePubkey_check (unicityId : string) (now : Z)
    (cache : gmap string CacheEntry) : cache_check :=
  let cleanId := cleanUnicityId unicityId in
  match cache !! cleanId with
  | Some cached => if fresh now cached then Hit (pubkey cached) else Miss cleanId
  | None => Miss cleanId
  end.

(** [resolvePubkey] after its [await], with the answer of the service. *)
Definition resolvePubkey_store (cleanId : string) (answer : option string)
    (now : Z) (cache : gmap string CacheEntry) : gmap string CacheEntry :=
  match answer with
  | Some (String c r) =>
      <[cleanId := {| pubkey := String c r; timestamp := now |}]> cache
  | _ => cache
  end.

(** [resolvePubkey(unicityId)] run to its end; [now1] and [now2] are the
    two values of [Date.now()]. *)
Definition resolvePubkey (directory : string → option string)
    (unicityId : string) (now1 now2 : Z) (srv : Server)
  : NostrService.result (option string) * Server :=
  match resolvePubkey_check unicityId now1 (pubkeyCache srv) with
  | Hit pk => (NostrService.Ok (Some pk), srv)
  | Miss cleanId =>
      match NostrService.resolvePubkey directory cleanId (nostrService srv) with
      | (NostrService.Throw e, ns) =>
          (NostrService.Throw e,
           {| nostrService := ns; paymentTracker := paymentTracker srv;
              pubkeyCache := pubkeyCache srv |})
      | (NostrService.Ok answer, ns) =>
          (NostrService.Ok answer,
           {| nostrService := ns; paymentTracker := paymentTracker srv;
              pubkeyCache := resolvePubkey_store cleanId answer now2 (pubkeyCache srv) |})
      end
  end.

(** The directory queries made so far. *)
Definition lookups (srv : Server) : list string :=
  NostrService.queries (nostrService srv).

(** The results of [confirm_payment], without their texts; the remaining
    time is the number [formatRemainingTime] prints. *)
Inductive tool_result :=
| CouldNotFind (unicity_id : string)
| AlreadyActive (remainingMs : Z)
| PaymentConfirmed (pass : PaymentTracker.DayPass) (remainingMs : Z)
| PaymentTimeout
| Thrown (message : string).

(** A call of [confirm_payment] is finished or suspended at one of its
    [await]s. *)
Inductive call_state :=
| Finished (r : tool_result)
| AwaitingSend (h : NostrService.Handle)
| AwaitingPayment (unicityId : string) (p : NostrService.Promise).

(** The values of [Date.now()] a synchronous part of the tool reads. *)
Record clock := {
  at_check : Z;
  at_store : Z;
  at_pass : Z;
  at_get : Z;
  at_remaining : Z
}.

Definition set_paymentTracker (tr : PaymentTracker.t) (srv : Server) : Server :=
  {| nostrService := nostrService srv; paymentTracker := tr;
     pubkeyCache := pubkeyCache srv |}.

Definition set_nostrService (ns : NostrService.t) (srv : Server) : Server :=
  {| nostrService := ns; paymentTracker := paymentTracker srv;
     pubkeyCache := pubkeyCache srv |}.

(** [confirm_payment({ unicity_id })], called without the optional game,
    up to the [await] of [nostrService.sendPaymentRequest]. *)
Definition confirm_payment (directory : string → option string)
    (unicity_id : string) (clk : clock) (rid : string) (transport_ok : bool)
    (srv : Server) : call_state * Server :=
  let unicityId := cleanUnicityId unicity_id in
  match resolvePubkey directory unicityId (at_check clk) (at_store clk) srv with
  | (NostrService.Throw e, srv1) => (Finished (Thrown e), srv1)
  | (NostrService.Ok None, srv1)
  | (NostrService.Ok (Some EmptyString), srv1) =>
      (Finished (CouldNotFind unicity_id), srv1)
  | (NostrService.Ok (Some pubkey), srv1) =>
      if PaymentTracker.hasValidPass unicityId (at_pass clk) (paymentTracker srv1)
      then
        let '(ms, tr) :=
          PaymentTracker.getRemainingTime unicityId (at_get clk)
            (at_remaining clk) (paymentTracker srv1) in
        (Finished (AlreadyActive ms), set_paymentTracker tr srv1)
      else
        match NostrService.sendPaymentRequest unicityId pubkey rid transport_ok
                (nostrService srv1) with
        | (NostrService.Throw e, ns) => (Finished (Thrown e), set_nostrService ns srv1)
        | (NostrService.Ok h, ns) => (AwaitingSend h, set_nostrService ns srv1)
        end
  end.

(** From the return of [sendPaymentRequest] to the [await] of
    [waitForPayment()]. *)
Definition confirm_payment_sent (h : NostrService.Handle) (now : Z)
    (srv : Server) : call_state * Server :=
  let '(p, ns) := NostrService.waitForPayment h now (nostrService srv) in
  (AwaitingPayment (NostrService.h_unicityId h) p, set_nostrService ns srv).

(** After the promise is settled; [None] while it is pending. *)
Definition confirm_payment_settled (unicityId : string)
    (p : NostrService.Promise) (clk : clock) (srv : Server)
  : option (tool_result * Server) :=
  paymentReceived ← NostrService.outcome p (nostrService srv);
  if paymentReceived : bool then
    let '(pass, tr1) :=
      PaymentTracker.grantDayPass unicityId (at_pass clk) (paymentTracker srv) in
    let '(ms, tr2) :=
      PaymentTracker.getRemainingTime unicityId (at_get clk) (at_remaining clk) tr1 in
    Some (PaymentConfirmed pass ms, set_paymentTracker tr2 srv)
  else Some (PaymentTimeout, srv).

(** An inbound event and a timer, at the level of the server. *)
Definition deliver (ev : NostrService.Event) (srv : Server) : Server :=
  set_nostrService (NostrService.handleIncomingTransfer ev (nostrService srv)) srv.

Definition timeout (n : nat) (srv : Server) : option Server :=
  ns ← NostrService.fireTimer n (nostrService srv);
  Some (set_nostrService ns srv).

(** *** The games and the tools [check_access] and [get_game] *)

(** [Game] of [types.ts]. *)
Record Game := { name : string; url : string; description : string }.

(** The own properties of the object [GAMES], in the order of the literal. *)
Definition GAMES : list (string * Game) :=
  [ ("unicity-quake",
     {| name := "Unicity Quake"; url := "https://quake.unicity.network";
        description := "Fast-paced multiplayer arena shooter" |});
    ("boxy-run",
     {| name := "Boxy Run"; url := "https://unicitynetwork.github.io/Boxy-Run/";
        description := "Endless runner with blockchain rewards" |});
    ("unirun",
     {| name := "Unirun"; url := "https://unirun.unicity.network";
        description := "Unicity-native endless runner" |}) ].

(** The names of the properties [GAMES] inherits from [Object.prototype]. *)
Definition Object_prototype_keys : list string :=
  [ "constructor"; "__defineGetter__"; "__defineSetter__"; "hasOwnProperty";
    "__lookupGetter__"; "__lookupSetter__"; "isPrototypeOf";
    "propertyIsEnumerable"; "toString"; "valueOf"; "__proto__";
    "toLocaleString" ].

(** The value of [GAMES[key]]: a game, or an inherited property, which is
    a function or an object and so is truthy; [None] is [undefined]. *)
Inductive property :=
| OwnGame (g : Game)
| Inherited (key : string).

Fixpoint assoc {V} (key : string) (m : list (string * V)) : option V :=
  match m with
  | [] => None
  | (k, v) :: m' => if decide (k = key) then Some v else assoc key m'
  end.

Definition GAMES_get (key : string) : option property :=
  match assoc key GAMES with
  | Some g => Some (OwnGame g)
  | None => if decide (key ∈ Object_prototype_keys) then Some (Inherited key) else None
  end.

(** [game.toLowerCase().replace(/\s+/g, "-")]. *)
Definition normalizeGameId (game : string) : string :=
  JsString.replace_white_space_runs "-" false (JsString.toLowerCase game).

(** The results of [check_access]. *)
Inductive check_result :=
| CheckCouldNotFind (unicity_id : string)
| HasAccess (unicityId remainingTime : string)
| NoAccess (unicityId : string)
| CheckThrown (message : string).

(** [check_access({ unicity_id })]. *)
Definition check_access (directory : string → option string)
    (unicity_id : string) (clk : clock) (srv : Server) : check_result * Server :=
  let unicityId := cleanUnicityId unicity_id in
  match resolvePubkey directory unicityId (at_check clk) (at_store clk) srv with
  | (NostrService.Throw e, srv1) => (CheckThrown e, srv1)
  | (NostrService.Ok None, srv1)
  | (NostrService.Ok (Some EmptyString), srv1) =>
      (CheckCouldNotFind unicity_id, srv1)
  | (NostrService.Ok (Some _), srv1) =>
      if PaymentTracker.hasValidPass unicityId (at_pass clk) (paymentTracker srv1)
      then
        let '(text, tr) :=
          PaymentTracker.formatRemainingTime unicityId (at_get clk)
            (at_remaining clk) (paymentTracker srv1) in
        (HasAccess ("@" +:+ unicityId) text, set_paymentTracker tr srv1)
      else (NoAccess ("@" +:+ unicityId), srv1)
  end.

(** The results of [get_game]; [payment_required] carries the timeout of
    the configuration. *)
Inductive get_game_result :=
| GameCouldNotFind (unicity_id : string)
| GameNotFound (game : string) (availableGames : string)
| AccessGranted (id : string) (game : property) (passRemaining : string)
| PaymentRequired (unicityId : string) (timeoutSeconds : option Z)
| GameThrown (message : string).

(** [Object.keys(GAMES).join(", ")]. *)
Definition availableGames : string :=
  foldr (λ k acc, match acc with
                  | EmptyString => k
                  | _ => k +:+ ", " +:+ acc
                  end) EmptyString GAMES.*1.

(** [get_game({ unicity_id, game })]: the request is sent and its
    [waitForPayment] closure is dropped. *)
Definition get_game (directory : string → option string)
    (unicity_id game : string) (clk : clock) (rid : string) (transport_ok : bool)
    (srv : Server) : get_game_result * Server :=
  let unicityId := cleanUnicityId unicity_id in
  match resolvePubkey directory unicityId (at_check clk) (at_store clk) srv with
  | (NostrService.Throw e, srv1) => (GameThrown e, srv1)
  | (NostrService.Ok None, srv1)
  | (NostrService.Ok (Some EmptyString), srv1) =>
      (GameCouldNotFind unicity_id, srv1)
  | (NostrService.Ok (Some pubkey), srv1) =>
      let normalizedId := normalizeGameId game in
      match GAMES_get normalizedId with
      | None => (GameNotFound game availableGames, srv1)
      | Some gameData =>
          if PaymentTracker.hasValidPass unicityId (at_pass clk) (paymentTracker srv1)
          then
            let '(text, tr) :=
              PaymentTracker.formatRemainingTime unicityId (at_get clk)
                (at_remaining clk) (paymentTracker srv1) in
            (AccessGranted normalizedId gameData text, set_paymentTracker tr srv1)
          else
            match NostrService.sendPaymentRequest unicityId pubkey rid transport_ok
                    (nostrService srv1) with
            | (NostrService.Throw e, ns) => (GameThrown e, set_nostrService ns srv1)
            | (NostrService.Ok _, ns) =>
                (PaymentRequired unicityId
                   (Config.paymentTimeoutSeconds (NostrService.config ns)),
                 set_nostrService ns srv1)
            end
      end
  end.

End Index.

(** ** [identity-service.ts]: the retry loop of [mintNametag] and
    [ensureNostrBinding] *)

Module IdentityService.

Definition MAX_RETRIES : nat := 3.

(** What one pass through the [try] block of the loop meets: an exception
    before [commitment] is assigned (from [createFromNametag] or
    [MintCommitment.create]), an exception of [submitMintCommitment], or a
    response with its status.  A commitment is named by a number. *)
Inductive attempt :=
| CreateThrows (error : string)
| SubmitThrows (commitment : nat) (error : string)
| Response (commitment : nat) (status : string).

Inductive loop_exit :=
| LoopDone (commitment : option nat)
| LoopThrows (error : string)
| OutOfFuel.

(** The [for] loop from [attempt] on, with the calls of [sleep] made so
    far; [oracle k] is what attempt [k] meets. *)
Fixpoint retry (oracle : nat → attempt) (fuel attempt : nat)
    (commitment : option nat) (sleeps : list Z) : loop_exit * list Z :=
  match fuel with
  | O => (OutOfFuel, sleeps)
  | S fuel' =>
      if (MAX_RETRIES <? attempt)%nat then (LoopDone commitment, sleeps)
      else
        let again c :=
          retry oracle fuel' (S attempt) c (sleeps ++ [1000 * Z.of_nat attempt]) in
        match oracle attempt with
        | CreateThrows error =>
            if (attempt =? MAX_RETRIES)%nat then (LoopThrows error, sleeps)
            else again commitment
        | SubmitThrows c error =>
            if (attempt =? MAX_RETRIES)%nat then (LoopThrows error, sleeps)
            else again (Some c)
        | Response c status =>
            if String.eqb status "SUCCESS" then (LoopDone (Some c), sleeps)
            else if (attempt =? MAX_RETRIES)%nat
            then (LoopThrows ("Failed after " +:+ pretty MAX_RETRIES +:+
                              " attempts: " +:+ status), sleeps)
            else again (Some c)
        end
  end.

Inductive mint_outcome :=
| Committed (commitment : nat)
| MintThrows (error : string)
| MintOutOfFuel.

(** [mintNametag] up to the wait for the inclusion proof: the loop and
    the test of [commitment] after it. *)
Definition mintNametag_commitment (oracle : nat → attempt) : mint_outcome * list Z :=
  match retry oracle (S MAX_RETRIES) 1 None [] with
  | (LoopDone (Some c), sleeps) => (Committed c, sleeps)
  | (LoopDone None, sleeps) => (MintThrows "Failed to create commitment", sleeps)
  | (LoopThrows error, sleeps) => (MintThrows error, sleeps)
  | (OutOfFuel, sleeps) => (MintOutOfFuel, sleeps)
  end.

(** The calls [ensureNostrBinding] makes on its client. *)
Inductive client_call :=
| CallConnect (relayUrl : string)
| CallQuery (nametag : string)
| CallPublish (nametag address : string)
| CallDisconnect.

Inductive answer (A : Type) :=
| Returns (a : A)
| Raises (error : string).
Arguments Returns {A} a.
Arguments Raises {A} error.

(** What the relay and the SDK answer during one [ensureNostrBinding]. *)
Record relay := {
  on_connect : answer unit;
  on_query : answer (option string);
  own_pubkey : string;
  on_proxy_address : answer string;
  on_publish : answer bool;
  on_disconnect : answer unit
}.

(** The [catch] block: [disconnect] is tried, its exception dropped, and
    the error thrown again. *)
Definition catch_block (error : string) (calls : list client_call)
  : option string * list client_call :=
  (Some error, calls ++ [CallDisconnect]).

(** A [client.disconnect()] inside the [try] block, at the end of a path. *)
Definition finish (r : relay) (calls : list client_call)
  : option string * list client_call :=
  match on_disconnect r with
  | Returns _ => (None, calls ++ [CallDisconnect])
  | Raises error => catch_block error (calls ++ [CallDisconnect])
  end.

(** [ensureNostrBinding()]: the exception thrown, if any, and the calls
    made on the client. *)
Definition ensureNostrBinding (cfg : Config.t) (r : relay)
  : option string * list client_call :=
  let calls1 := [CallConnect (Config.relayUrl cfg)] in
  match on_connect r with
  | Raises error => catch_block error calls1
  | Returns _ =>
      let calls2 := calls1 ++ [CallQuery (Config.nametag cfg)] in
      match on_query r with
      | Raises error => catch_block error calls2
      | Returns existingPubkey =>
          if decide (existingPubkey = Some (own_pubkey r)) then finish r calls2
          else
            match on_proxy_address r with
            | Raises error => catch_block error calls2
            | Returns address =>
                let calls3 := calls2 ++ [CallPublish (Config.nametag cfg) address] in
                match on_publish r with
                | Raises error => catch_block error calls3
                | Returns _ => finish r calls3
                end
            end
      end
  end.

End IdentityService.

(** * Inputs used in the examples *)

Module Samples.

Definition entropy0 : Config.entropy :=
  {| Config.hex1 := "5f0c"; Config.hex2 := "a1b2"; Config.hex3 := "c3d4" |}.

(** Both required settings, and nothing else. *)
Definition env_required : gmap string string :=
  <["MCP_NAMETAG" := "gaming-mcp"]> (<["PAYMENT_COIN_ID" := "c0ffee"]> ∅).

Definition env_no_coin : gmap string string :=
  <["MCP_NAMETAG" := "gaming-mcp"]> ∅.

Definition env_bad_amount : gmap string string :=
  <["PAYMENT_AMOUNT" := "ten"]> env_required.

Definition env_empty_nametag : gmap string string :=
  <["MCP_NAMETAG" := ""]> env_required.

(** The configuration [loadConfig] returns for [env_required]. *)
Definition cfg0 : Config.t :=
  {| Config.relayUrl := "wss://nostr-relay.testnet.unicity.network";
     Config.aggregatorUrl := "https://aggregator-test.unicity.network";
     Config.aggregatorApiKey := "sk_06365a9c44654841a366068bcfc68986";
     Config.privateKeyHex := "5f0c";
     Config.nonce := "a1b2";
     Config.nametag := "gaming-mcp";
     Config.coinId := "c0ffee";
     Config.amount := 1000000000;
     Config.dayPassDurationHours := Some 24;
     Config.paymentTimeoutSeconds := Some 120;
     Config.dataDir := "./data" |}.


(** The directory knows the nametags [alice] and [alice2], both bound to
    one pubkey, and [carol]. *)
Definition directory0 (nametag : string) : option string :=
  if decide (nametag = "alice") then Some "pkA"
  else if decide (nametag = "alice2") then Some "pkA"
  else if decide (nametag = "carol") then Some "pkC"
  else None.

(** The service of a started server. *)
Definition nostr0 : NostrService.t :=
  NostrService.connect NostrService.Connects (NostrService.new cfg0).

Definition server0 : Index.Server :=
  {| Index.nostrService := nostr0;
     Index.paymentTracker := PaymentTracker.new 24;
     Index.pubkeyCache := ∅ |}.

(** A server whose cache holds [alice], resolved at time 1000. *)
Definition server_cached : Index.Server :=
  {| Index.nostrService := nostr0;
     Index.paymentTracker := PaymentTracker.new 24;
     Index.pubkeyCache :=
       {[ "alice" := {| Index.pubkey := "pkA"; Index.timestamp := 1000 |} ]} |}.

(** Two requests to two accounts bound to one pubkey, both waited for. *)
Definition hA : NostrService.Handle :=
  {| NostrService.h_requestId := "k3x9q2ab"; NostrService.h_unicityId := "alice";
     NostrService.h_userPubkey := "pkA" |}.

Definition hB : NostrService.Handle :=
  {| NostrService.h_requestId := "z81mfp0c"; NostrService.h_unicityId := "alice2";
     NostrService.h_userPubkey := "pkA" |}.

Definition crossed_acts : list NostrService.action :=
  [ NostrService.Connect NostrService.Connects;
    NostrService.SendPaymentRequest "alice" "pkA" "k3x9q2ab" true;
    NostrService.WaitForPayment hA 5000;
    NostrService.SendPaymentRequest "alice2" "pkA" "z81mfp0c" true;
    NostrService.WaitForPayment hB 6000 ].

Definition pendingA : NostrService.PendingPayment :=
  {| NostrService.requestId := "k3x9q2ab"; NostrService.unicityId := "alice";
     NostrService.userPubkey := "pkA"; NostrService.amount := 1000000000;
     NostrService.coinId := "c0ffee"; NostrService.createdAt := 5000;
     NostrService.resolve := 0 |}.

Definition pendingB : NostrService.PendingPayment :=
  {| NostrService.requestId := "z81mfp0c"; NostrService.unicityId := "alice2";
     NostrService.userPubkey := "pkA"; NostrService.amount := 1000000000;
     NostrService.coinId := "c0ffee"; NostrService.createdAt := 6000;
     NostrService.resolve := 1 |}.

Definition crossed : NostrService.t :=
  default (NostrService.new cfg0) (NostrService.run crossed_acts (NostrService.new cfg0)).

(** A transfer of the required amount from that pubkey, whose reply
    reference is the id of the second request. *)
Definition transferA : NostrService.Event :=
  {| NostrService.isTokenTransfer := true; NostrService.getSender := "pkA";
     NostrService.getAmount := Some 1000000000;
     NostrService.getReplyToEventId := Some "z81mfp0c" |}.

(** A transfer that is one unit short. *)
Definition transfer_short : NostrService.Event :=
  {| NostrService.isTokenTransfer := true; NostrService.getSender := "pkA";
     NostrService.getAmount := Some 999999999;
     NostrService.getReplyToEventId := None |}.

(** The transfer arrives. *)
Definition matched_acts : list NostrService.action :=
  crossed_acts ++ [ NostrService.Transfer transferA ].

Definition matched : NostrService.t :=
  default (NostrService.new cfg0) (NostrService.run matched_acts (NostrService.new cfg0)).

(** Then both timeouts run, in the order in which they were scheduled. *)
Definition settled_acts : list NostrService.action :=
  matched_acts ++ [ NostrService.FireTimer 0; NostrService.FireTimer 0 ].

Definition all_settled : NostrService.t :=
  default (NostrService.new cfg0) (NostrService.run settled_acts (NostrService.new cfg0)).

(** Two requests that draw the same id. *)
Definition hC : NostrService.Handle :=
  {| NostrService.h_requestId := "k3x9q2ab"; NostrService.h_unicityId := "carol";
     NostrService.h_userPubkey := "pkC" |}.

Definition collision_acts : list NostrService.action :=
  [ NostrService.Connect NostrService.Connects;
    NostrService.SendPaymentRequest "alice" "pkA" "k3x9q2ab" true;
    NostrService.WaitForPayment hA 5000;
    NostrService.SendPaymentRequest "carol" "pkC" "k3x9q2ab" true;
    NostrService.WaitForPayment hC 6000;
    NostrService.FireTimer 0; NostrService.FireTimer 0 ].

Definition collided : NostrService.t :=
  default (NostrService.new cfg0)
    (NostrService.run collision_acts (NostrService.new cfg0)).

(** A request that is paid, then a second request that draws the same id,
    then both timeouts. *)
Definition reused_acts : list NostrService.action :=
  [ NostrService.Connect NostrService.Connects;
    NostrService.SendPaymentRequest "alice" "pkA" "k3x9q2ab" true;
    NostrService.WaitForPayment hA 5000;
    NostrService.Transfer transferA;
    NostrService.SendPaymentRequest "carol" "pkC" "k3x9q2ab" true;
    NostrService.WaitForPayment hC 6000;
    NostrService.FireTimer 0; NostrService.FireTimer 0 ].

Definition reused : NostrService.t :=
  default (NostrService.new cfg0) (NostrService.run reused_acts (NostrService.new cfg0)).

(** Two requests to one account, both waited for. *)
Definition hA' : NostrService.Handle :=
  {| NostrService.h_requestId := "z81mfp0c"; NostrService.h_unicityId := "alice";
     NostrService.h_userPubkey := "pkA" |}.

Definition doubled_acts : list NostrService.action :=
  [ NostrService.Connect NostrService.Connects;
    NostrService.SendPaymentRequest "alice" "pkA" "k3x9q2ab" true;
    NostrService.WaitForPayment hA 5000;
    NostrService.SendPaymentRequest "alice" "pkA" "z81mfp0c" true;
    NostrService.WaitForPayment hA' 6000 ].

Definition doubled : NostrService.t :=
  default (NostrService.new cfg0)
    (NostrService.run doubled_acts (NostrService.new cfg0)).

(** The clock of a tool call at time [now]. *)
Definition clock_at (now : Z) : Index.clock :=
  {| Index.at_check := now; Index.at_store := now; Index.at_pass := now;
     Index.at_get := now; Index.at_remaining := now |}.

(** Two calls of [confirm_payment] for [alice] that overlap: the second
    starts before the first has stored its pending payment. *)
Definition first_call : Index.call_state * Index.Server :=
  Index.confirm_payment directory0 "@alice" (clock_at 5000) "k3x9q2ab" true server0.

Definition second_call : Index.call_state * Index.Server :=
  Index.confirm_payment directory0 "alice" (clock_at 5001) "z81mfp0c" true first_call.2.

Definition first_waiting : Index.call_state * Index.Server :=
  Index.confirm_payment_sent hA 5002 second_call.2.

Definition second_waiting : Index.call_state * Index.Server :=
  Index.confirm_payment_sent hA' 5003 first_waiting.2.

(** One payment arrives; later the two timeouts run, in the order in which
    they were scheduled. *)
Definition after_payment : Index.Server :=
  Index.deliver transferA second_waiting.2.

Definition after_timeout : Index.Server :=
  default after_payment (Index.timeout 0 after_payment ≫= Index.timeout 0).

(** Two calls one after the other: the second starts when the first is
    already waiting. *)
Definition second_call_later : Index.call_state * Index.Server :=
  Index.confirm_payment directory0 "alice" (clock_at 5004) "z81mfp0c" true
    (Index.confirm_payment_sent hA 5002 first_call.2).2.

End Samples.

(** * Invariants of the service *)

Module NostrInv.

Import NostrService.

(** What every run of the service keeps true. *)
Record inv (s : t) : Prop := {
  (** the keys of the map are distinct; *)
  inv_keys : NoDup (pendingPayments s).*1;
  (** [connect] makes the key manager before the client; *)
  inv_flags : client s = true → keyManager s = true;
  (** a closure or a pending payment exists only once the client does; *)
  inv_handle_client : ∀ h, h ∈ handles s → client s = true;
  inv_entry_client : ∀ kv, kv ∈ pendingPayments s → client s = true;
  (** a settled promise was created, and was settled by a call of its
      [resolve] function; *)
  inv_settled_created : ∀ p, is_Some (settled s !! p) → (p < created s)%nat;
  inv_calls_settled : ∀ p, p ∈ (resolveCalls s).*1 ↔ is_Some (settled s !! p);
  (** the timeout of a pending payment is still scheduled, and its promise
      is pending; *)
  inv_entry_timer :
    ∀ k pd, (k, pd) ∈ pendingPayments s →
      ∃ tm, tm ∈ timers s ∧ t_requestId tm = k ∧ t_resolve tm = resolve pd;
  inv_entry_pending :
    ∀ k pd, (k, pd) ∈ pendingPayments s → settled s !! resolve pd = None;
  (** each scheduled timer belongs to a promise of its own. *)
  inv_timer_created : ∀ tm, tm ∈ timers s → (t_resolve tm < created s)%nat;
  inv_timer_promises : NoDup (t_resolve <$> timers s)
}.

(** What a run keeps true in addition when the request ids drawn are
    pairwise distinct. *)
Record fresh_inv (s : t) : Prop := {
  (** the ids of the closures not yet called and of the scheduled timers
      are distinct, and were drawn; *)
  finv_ids : NoDup ((h_requestId <$> handles s) ++ (t_requestId <$> timers s));
  finv_drawn :
    ∀ r, r ∈ (h_requestId <$> handles s) ++ (t_requestId <$> timers s) →
         r ∈ requestIds s;
  (** a promise that is not settled has its pending payment in the map; *)
  finv_pending_entry :
    ∀ p, (p < created s)%nat → settled s !! p = None →
      ∃ k pd, (k, pd) ∈ pendingPayments s ∧ resolve pd = p;
  (** no [resolve] function was called twice. *)
  finv_calls : NoDup (resolveCalls s).*1
}.

(** The number of calls of the [resolve] function of [p]. *)
Definition resolutions (p : Promise) (s : t) : nat :=
  length (filter (λ c, c.1 = p) (resolveCalls s)).

(** The accounts with a pending payment, one per entry. *)
Definition pending_accounts (s : t) : list string :=
  (λ kv, unicityId kv.2) <$> pendingPayments s.

(** The payment request the service hands to its client for the account
    [u] with pubkey [k] and request id [rid]. *)
Definition request_for (cfg : Config.t) (u k rid : string) : PaymentRequest :=
  {| target := k; pr_amount := Config.amount cfg; pr_coinId := Config.coinId cfg;
     pr_recipientNametag := Config.nametag cfg;
     pr_message := "Gaming day pass for @" +:+ u; pr_requestId := rid |}.

(** Every closure and every pending payment goes back to a payment
    request that was handed to the client, and the configuration is the
    one the service was created with. *)
Record sent_inv (cfg : Config.t) (s : t) : Prop := {
  sinv_config : config s = cfg;
  sinv_outbox :
    ∀ msg, msg ∈ outbox s →
      ∃ u rid, msg = request_for cfg u (target msg) rid;
  sinv_handles :
    ∀ h, h ∈ handles s →
      request_for cfg (h_unicityId h) (h_userPubkey h) (h_requestId h) ∈ outbox s;
  sinv_entries :
    ∀ k pd, (k, pd) ∈ pendingPayments s →
      k = requestId pd ∧ amount pd = Config.amount cfg ∧
      coinId pd = Config.coinId cfg ∧
      request_for cfg (unicityId pd) (userPubkey pd) (requestId pd) ∈ outbox s
}.

(** The argument of the first call of the [resolve] function of [p]. *)
Definition first_call (p : Promise) (calls : list (Promise * bool)) : option bool :=
  snd <$> head (filter (λ c, c.1 = p) calls).

(** A promise that nothing can settle any more: it is pending, and neither
    a pending payment nor a timeout holds its [resolve] function. *)
Definition orphaned (p : Promise) (s : t) : Prop :=
  (p < created s)%nat ∧ settled s !! p = None ∧
  (∀ k pd, (k, pd) ∈ pendingPayments s → resolve pd ≠ p) ∧
  (∀ tm, tm ∈ timers s → t_resolve tm ≠ p).

(** A call of [connect] that gets as far as making the client. *)
Definition makes_client (how : connect_outcome) : bool :=
  match how with
  | RelayThrows | Connects => true
  | IdentityThrows | ClientThrows => false
  end.

(** The event [ev] with the reply reference [hint] in place of its own. *)
Definition with_reply (hint : option string) (ev : Event) : Event :=
  {| isTokenTransfer := isTokenTransfer ev; getSender := getSender ev;
     getAmount := getAmount ev; getReplyToEventId := hint |}.

End NostrInv.

(** * Invariants of the tracker *)

Module TrackerInv.

Import Binary64 PaymentTracker64.

(** Every stored pass sits under the lower-cased id it was granted to, was
    granted at a time, and expires at the binary64 sum of that time and
    the duration. *)
Definition wf (tr : t) : Prop :=
  ∀ k pass, dayPasses tr !! k = Some pass →
    k = JsString.toLowerCase (unicityId pass) ∧
    (∃ now, grantedAt pass = Int now) ∧
    expiresAt pass = add (grantedAt pass) (durationMs tr).

(** The calls a user of the tracker can make; [formatRemainingTime]
    changes the tracker as [getRemainingTime] does. *)
Inductive call :=
| GrantDayPass (id : string) (now : Z)
| HasValidPass (id : string) (now : Z)
| GetPass (id : string) (now : Z)
| GetRemainingTime (id : string) (now1 now2 : Z)
| FormatRemainingTime (id : string) (now1 now2 : Z)
| Cleanup (now : Z).

Definition after (c : call) (tr : t) : t :=
  match c with
  | GrantDayPass id now => (grantDayPass id now tr).2
  | HasValidPass _ _ => tr
  | GetPass id now => (getPass id now tr).2
  | GetRemainingTime id now1 now2 | FormatRemainingTime id now1 now2 =>
      (getRemainingTime id now1 now2 tr).2
  | Cleanup now => cleanup now tr
  end.

Definition after_all (calls : list call) (tr : t) : t :=
  foldl (λ tr c, after c tr) tr calls.

End TrackerInv.

(** * Properties *)

(** ** Strings and numbers of the runtime *)

Example cleanUnicityId_plain : cleanUnicityId "alice" = "alice".
Proof. reflexivity. Qed.

Example cleanUnicityId_sigil : cleanUnicityId " @alice@unicity " = "alice".
Proof. reflexivity. Qed.

Example BigInt_default : JsNumber.BigInt "1000000000" = Some 1000000000.
Proof. reflexivity. Qed.

Example BigInt_hex : JsNumber.BigInt " 0x1f " = Some 31.
Proof. reflexivity. Qed.

Example BigInt_word : JsNumber.BigInt "ten" = None.
Proof. reflexivity. Qed.

Example parseInt_suffix : JsNumber.parseInt " 24h" = Some 24.
Proof. reflexivity. Qed.

Example parseInt_nan : JsNumber.parseInt "day" = None.
Proof. reflexivity. Qed.

(** ** Account handles *)

(** C10: [cleanUnicityId] is not idempotent.  The handle ["@@alice"] has two
    sigils; cleaning it once gives ["@alice"], which still contains ["@"],
    and cleaning that again gives the different string ["alice"]; so the
    spellings ["@@alice"] and ["@alice"] of one handle are cleaned to
    different map keys. *)
Theorem cleanUnicityId_not_idempotent :
  cleanUnicityId "@@alice" = "@alice" ∧
  JsString.includes "@" (cleanUnicityId "@@alice") = true ∧
  cleanUnicityId (cleanUnicityId "@@alice") = "alice" ∧
  cleanUnicityId (cleanUnicityId "@@alice") ≠ cleanUnicityId "@@alice" ∧
  cleanUnicityId "@@alice" ≠ cleanUnicityId "@alice" ∧
  ¬ (∀ s, cleanUnicityId (cleanUnicityId s) = cleanUnicityId s).
Proof.
  repeat split; try reflexivity; try discriminate.
  intros H. specialize (H "@@alice"). discriminate H.
Qed.

(** ** Configuration *)

Lemma loadConfig_throws_iff env rnd :
  (∃ e, Config.loadConfig env rnd = Config.Throw e) ↔
  JsString.truthy (env !! "MCP_NAMETAG") = false ∨
  JsString.truthy (env !! "PAYMENT_COIN_ID") = false ∨
  JsNumber.BigInt (JsString.or_default (env !! "PAYMENT_AMOUNT") "1000000000") = None.
Proof.
  unfold Config.loadConfig.
  destruct (JsString.truthy (env !! "MCP_PRIVATE_KEY_HEX")); simpl;
  destruct (JsString.truthy (env !! "MCP_NAMETAG")); simpl;
    try (split; [intros _; by left | intros _; eauto]);
  destruct (JsString.truthy (env !! "PAYMENT_COIN_ID")); simpl;
    try (split; [intros _; right; by left | intros _; eauto]);
  destruct (JsNumber.BigInt _); simpl;
    (split; [intros [e He]; try discriminate He; right; by right
            | intros [H|[H|H]]; try discriminate H; eauto]).
Qed.

Lemma truthy_absent : JsString.truthy None = false.
Proof. reflexivity. Qed.

(** C8, as the code has it: [loadConfig] throws, and [main] ends the
    process with exit code 1 before any service is created, whenever
    [MCP_NAMETAG] or [PAYMENT_COIN_ID] is absent or empty; it returns a
    configuration whenever both are non-empty and [PAYMENT_AMOUNT] is
    absent, empty or an integer literal [BigInt] accepts. *)
Theorem loadConfig_required_settings (env : gmap string string) (rnd : Config.entropy) :
  (JsString.truthy (env !! "MCP_NAMETAG") = false ∨
   JsString.truthy (env !! "PAYMENT_COIN_ID") = false →
   ∃ e, Config.loadConfig env rnd = Config.Throw e ∧
        Config.main_start env rnd = Config.Exit 1 e) ∧
  (JsString.truthy (env !! "MCP_NAMETAG") = true →
   JsString.truthy (env !! "PAYMENT_COIN_ID") = true →
   is_Some (JsNumber.BigInt
              (JsString.or_default (env !! "PAYMENT_AMOUNT") "1000000000")) →
   ∃ c, Config.loadConfig env rnd = Config.Return c ∧
        Config.main_start env rnd = Config.Configured c ∧
        Some (Config.coinId c) = env !! "PAYMENT_COIN_ID").
Proof.
  split.
  - intros H.
    destruct (proj2 (loadConfig_throws_iff env rnd)) as [e He]; [tauto|].
    exists e. split; [done|]. unfold Config.main_start. by rewrite He.
  - intros Hn Hc [a Ha].
    unfold Config.main_start, Config.loadConfig.
    rewrite Hn, Hc, Ha. simpl.
    destruct (JsString.truthy (env !! "MCP_PRIVATE_KEY_HEX"));
      (eexists; split; [reflexivity|]; split; [reflexivity|]; simpl;
       destruct (env !! "PAYMENT_COIN_ID"); [done | discriminate Hc]).
Qed.

Lemma loadConfig_required_settings_witness :
  (∃ e, Config.loadConfig Samples.env_no_coin Samples.entropy0 = Config.Throw e ∧
        Config.main_start Samples.env_no_coin Samples.entropy0 = Config.Exit 1 e) ∧
  (∃ c, Config.loadConfig Samples.env_required Samples.entropy0 = Config.Return c ∧
        Config.main_start Samples.env_required Samples.entropy0 = Config.Configured c ∧
        Some (Config.coinId c) = Samples.env_required !! "PAYMENT_COIN_ID").
Proof.
  split.
  - apply (proj1 (loadConfig_required_settings Samples.env_no_coin Samples.entropy0)).
    right. reflexivity.
  - apply (proj2 (loadConfig_required_settings Samples.env_required Samples.entropy0)).
    + reflexivity.
    + reflexivity.
    + exists 1000000000. reflexivity.
Defined.

(** C8 as stated fails: with both required settings present, [loadConfig]
    still throws when [PAYMENT_AMOUNT] is not an integer literal, and a
    required setting that is present but empty is treated as absent. *)
Lemma loadConfig_present_yet_throws :
  (is_Some (Samples.env_bad_amount !! "MCP_NAMETAG") ∧
   is_Some (Samples.env_bad_amount !! "PAYMENT_COIN_ID") ∧
   Config.loadConfig Samples.env_bad_amount Samples.entropy0
   = Config.Throw (Config.SyntaxError "ten")) ∧
  (is_Some (Samples.env_empty_nametag !! "MCP_NAMETAG") ∧
   is_Some (Samples.env_empty_nametag !! "PAYMENT_COIN_ID") ∧
   Config.loadConfig Samples.env_empty_nametag Samples.entropy0
   = Config.Throw
       (Config.Error "MCP_NAMETAG environment variable is required (e.g., 'gaming-mcp')")).
Proof.
  repeat split; try (eexists; reflexivity); reflexivity.
Qed.

Example loadConfig_sample :
  Config.loadConfig Samples.env_required Samples.entropy0 = Config.Return Samples.cfg0.
Proof. reflexivity. Qed.

(** ** Access windows *)

Section AccessWindows.

Import Binary64 PaymentTracker64.

Example round_samples :
  round 9008900000000001 = Int 9008900000000000 ∧
  round 9007199254740993 = Int 9007199254740992 ∧
  round 9007199254740995 = Int 9007199254740996 ∧
  round (-9007199254740995) = Int (-9007199254740996) ∧
  round (2 ^ 1024 - 2 ^ 970 - 1) = Int (2 ^ 1024 - 2 ^ 971) ∧
  round (2 ^ 1024 - 2 ^ 970) = Infinity false ∧
  round (10 ^ 23) = Int 99999999999999991611392.
Proof. repeat split; vm_compute; reflexivity. Qed.

Lemma round_exact z : Z.abs z < 2 ^ 53 → round z = Int z.
Proof.
  intros H. unfold round. cbv zeta.
  by destruct (Z.ltb_spec (Z.abs z) (2 ^ 53)); [|lia].
Qed.

Lemma add_exact a b : Z.abs (a + b) < 2 ^ 53 → add (Int a) (Int b) = Int (a + b).
Proof. apply round_exact. Qed.

Lemma sub_exact a b : Z.abs (a - b) < 2 ^ 53 → sub (Int a) (Int b) = Int (a - b).
Proof. apply round_exact. Qed.

Lemma mul_exact a b : Z.abs (a * b) < 2 ^ 53 → mul (Int a) (Int b) = Int (a * b).
Proof. apply round_exact. Qed.

Lemma hours_exact h :
  Z.abs (h * 3600000) < 2 ^ 53 →
  mul (mul (mul (Int h) (Int 60)) (Int 60)) (Int 1000) = Int (h * 3600000).
Proof.
  intros H. rewrite mul_exact by lia. rewrite mul_exact by lia.
  rewrite mul_exact by lia. f_equal. lia.
Qed.

Lemma ge_negb_lt x y : y ≠ NaN → x ≠ NaN → ge x y = negb (lt x y).
Proof. by destruct x, y. Qed.

Lemma lt_ge_false x y : lt x y = true → ge x y = false.
Proof. destruct x as [|n|a], y as [|m|b]; simpl; try done; by intros ->. Qed.

Lemma ge_NaN x : ge x NaN = false.
Proof. by destruct x. Qed.

Lemma lt_NaN x : lt x NaN = false.
Proof. by destruct x. Qed.

Lemma ge_later a b y : a ≤ b → ge (Int a) y = true → ge (Int b) y = true.
Proof.
  destruct y as [|m|c]; simpl; try done.
  rewrite !negb_true_iff, !Z.ltb_ge. lia.
Qed.

Lemma ge_lt_false a b y : a ≤ b → ge (Int a) y = true → lt (Int b) y = false.
Proof.
  destruct y as [|m|c]; simpl; try done.
  - by destruct m.
  - rewrite negb_true_iff, !Z.ltb_ge. lia.
Qed.

Lemma max_0_not_negative x : lt (max (Int 0) x) (Int 0) = false.
Proof.
  destruct x as [|n|a]; simpl; [done|by destruct n|].
  destruct (Z.ltb_spec 0 a); simpl; apply Z.ltb_ge; lia.
Qed.

Lemma getPass_unexpired64 id now tr pass :
  dayPasses tr !! JsString.toLowerCase id = Some pass →
  ge (Int now) (expiresAt pass) = false →
  getPass id now tr = (Some pass, tr).
Proof. intros Hl Hge. unfold getPass. by rewrite Hl, Hge. Qed.

Lemma getPass_many_unexpired64 id clock tr pass :
  dayPasses tr !! JsString.toLowerCase id = Some pass →
  Forall (λ now, ge (Int now) (expiresAt pass) = false) clock →
  getPass_many id clock tr = (replicate (length clock) (Some pass), tr).
Proof.
  intros Hl. induction 1 as [|now clock Hnow _ IH]; simpl; [done|].
  by rewrite (getPass_unexpired64 id now tr pass), IH.
Qed.

(** C6, as the code has it: after [grantDayPass] the stored pass is the
    returned one, granted at the time read and expiring at the binary64
    sum of that time and [durationMs], which the constructor computes as
    the binary64 product of the configured hours with 60, 60 and 1000;
    every [getPass] for which [now >= expiresAt] is false returns that
    same pass and leaves the tracker as it is, however many there are; and
    whenever the hours in milliseconds, the time and their sum are integers
    below [2^53] in absolute value, the expiry is their sum exactly. *)
Theorem grantDayPass_getPass_roundtrip
    (id : string) (now : Z) (clock : list Z) (tr : t) :
  let pass := (grantDayPass id now tr).1 in
  let tr1 := (grantDayPass id now tr).2 in
  dayPasses tr1 !! JsString.toLowerCase id = Some pass ∧
  grantedAt pass = Int now ∧
  expiresAt pass = add (Int now) (durationMs tr) ∧
  (Forall (λ later, ge (Int later) (expiresAt pass) = false) clock →
   getPass_many id clock tr1 = (replicate (length clock) (Some pass), tr1)) ∧
  (∀ d, durationMs tr = Int d → Z.abs (now + d) < 2 ^ 53 →
        expiresAt pass = Int (now + d) ∧
        ∀ later, later < now + d → getPass id later tr1 = (Some pass, tr1)) ∧
  (∀ h, Z.abs (h * 3600000) < 2 ^ 53 → durationMs (new (Int h)) = Int (h * 3600000)).
Proof.
  intros pass tr1. subst pass tr1. unfold grantDayPass. cbn [fst snd dayPasses
    grantedAt expiresAt].
  split; [by rewrite lookup_insert_eq|]. split; [done|]. split; [done|].
  split; [|split].
  - intros Hclock. apply getPass_many_unexpired64; [|done].
    cbn [dayPasses]. by rewrite lookup_insert_eq.
  - intros d Hd Hsum. rewrite Hd, add_exact by done. split; [done|].
    intros later Hlater. apply getPass_unexpired64.
    + cbn [dayPasses]. by rewrite lookup_insert_eq.
    + cbn [expiresAt]. simpl. apply negb_false_iff, Z.ltb_lt. lia.
  - intros h Hh. unfold new. cbn [durationMs]. by apply hours_exact.
Qed.

Lemma grantDayPass_getPass_roundtrip_witness :
  let tr := new (Int 24) in
  let pass := (grantDayPass "Alice" 1700000000000 tr).1 in
  let tr1 := (grantDayPass "Alice" 1700000000000 tr).2 in
  expiresAt pass = Int (1700000000000 + 86400000) ∧
  ∀ later, later < 1700000000000 + 86400000 → getPass "Alice" later tr1 = (Some pass, tr1).
Proof.
  intros tr pass tr1.
  apply (proj1 (proj2 (proj2 (proj2 (proj2
           (grantDayPass_getPass_roundtrip "Alice" 1700000000000 [] tr)))))
           86400000).
  - reflexivity.
  - reflexivity.
Defined.

(** The claim as it is written fails where the sum is no integer that
    binary64 holds: with [DAY_PASS_HOURS] set to 2502000000 the expiry
    stored at the time 1700000000001 is one less than the time plus the
    duration.  And with a setting that is no numeral the duration and the
    expiry are NaN: the pass is never valid, and [getPass] returns it at
    every time. *)
Lemma grantDayPass_sum_rounds :
  let tr := new (of_parseInt (JsNumber.parseInt "2502000000")) in
  let pass := (grantDayPass "alice" 1700000000001 tr).1 in
  let unset :=
    (grantDayPass "alice" 1700000000001 (new (of_parseInt (JsNumber.parseInt "a day")))).2 in
  durationMs tr = Int (2502000000 * 3600000) ∧
  grantedAt pass = Int 1700000000001 ∧
  expiresAt pass = Int 9008900000000000 ∧
  1700000000001 + 2502000000 * 3600000 = 9008900000000001 ∧
  expiresAt pass ≠ Int (1700000000001 + 2502000000 * 3600000) ∧
  ∀ later, hasValidPass "alice" later unset = false ∧
           (getPass "alice" later unset).1
           = Some {| unicityId := "alice"; grantedAt := Int 1700000000001;
                     expiresAt := NaN |}.
Proof.
  cbv zeta. split; [vm_compute; reflexivity|]. split; [reflexivity|].
  split; [vm_compute; reflexivity|]. split; [reflexivity|].
  split; [vm_compute; discriminate|].
  intros later. split; reflexivity.
Qed.

End AccessWindows.

(** ** The pubkey cache *)

Section Resolver.

Import Index.

Lemma resolvePubkey_store_not_found cleanId now (cache : gmap string CacheEntry) :
  resolvePubkey_store cleanId None now cache = cache.
Proof. reflexivity. Qed.

Lemma resolvePubkey_check_hit id now (cache : gmap string CacheEntry) pk :
  resolvePubkey_check id now cache = Hit pk ↔
  ∃ cached, cache !! cleanUnicityId id = Some cached ∧
            now - timestamp cached < PUBKEY_CACHE_TTL_MS ∧ pk = pubkey cached.
Proof.
  unfold resolvePubkey_check, fresh.
  destruct (cache !! cleanUnicityId id) as [cached|].
  - destruct (Z.ltb_spec (now - timestamp cached) PUBKEY_CACHE_TTL_MS).
    + split; [intros [= <-]; eauto | intros (c & [= <-] & _ & ->); done].
    + split; [done | intros (c & [= <-] & ? & _); lia].
  - split; [done | intros (c & ? & _); done].
Qed.

Lemma resolvePubkey_miss directory id now1 now2 srv cleanId :
  resolvePubkey_check id now1 (pubkeyCache srv) = Miss cleanId →
  NostrService.client (nostrService srv) = true →
  cleanId = cleanUnicityId id ∧
  (resolvePubkey directory id now1 now2 srv).1
  = NostrService.Ok (directory (cleanUnicityId cleanId)) ∧
  lookups (resolvePubkey directory id now1 now2 srv).2
  = lookups srv ++ [cleanUnicityId cleanId] ∧
  pubkeyCache (resolvePubkey directory id now1 now2 srv).2
  = resolvePubkey_store cleanId (directory (cleanUnicityId cleanId)) now2 (pubkeyCache srv) ∧
  NostrService.client (nostrService (resolvePubkey directory id now1 now2 srv).2) = true.
Proof.
  intros Hm Hc. split.
  - revert Hm. unfold resolvePubkey_check.
    destruct (pubkeyCache srv !! _) as [c|]; [destruct (fresh now1 c)|]; congruence.
  - unfold resolvePubkey, lookups. rewrite Hm.
    unfold NostrService.resolvePubkey. rewrite Hc. simpl. done.
Qed.

(** C7: a lookup that ends with not-found ([null]) has queried the
    directory and leaves the cache as it was, and, the clock not running
    backwards, the next call for the same id queries the directory again;
    a call answers without a directory query exactly when the cache holds
    an entry for the cleaned id whose age is below the freshness window,
    and then it returns the cached pubkey and changes nothing. *)
Theorem resolvePubkey_not_found_not_cached
    (directory directory' : string → option string) (id : string)
    (now1 now2 now3 now4 : Z) (srv : Server) :
  let call := resolvePubkey directory id now1 now2 srv in
  let asked := cleanUnicityId (cleanUnicityId id) in
  (call.1 = NostrService.Ok None →
   now1 ≤ now3 →
   lookups call.2 = lookups srv ++ [asked] ∧
   pubkeyCache call.2 = pubkeyCache srv ∧
   lookups (resolvePubkey directory' id now3 now4 call.2).2
   = lookups call.2 ++ [asked] ∧
   (resolvePubkey directory' id now3 now4 call.2).1
   = NostrService.Ok (directory' asked)) ∧
  (∀ answer,
     call.1 = NostrService.Ok answer ∧ lookups call.2 = lookups srv ↔
     ∃ cached, pubkeyCache srv !! cleanUnicityId id = Some cached ∧
               now1 - timestamp cached < PUBKEY_CACHE_TTL_MS ∧
               answer = Some (pubkey cached) ∧ call.2 = srv).
Proof.
  intros call asked. subst call asked.
  destruct (resolvePubkey_check id now1 (pubkeyCache srv)) as [pk|cleanId] eqn:Hck.
  - (* cache hit *)
    assert (Hcall : resolvePubkey directory id now1 now2 srv
                    = (NostrService.Ok (Some pk), srv)).
    { unfold resolvePubkey. by rewrite Hck. }
    rewrite Hcall. simpl. split; [done|].
    apply resolvePubkey_check_hit in Hck as (cached & Hl & Hage & ->).
    intros answer. split.
    + intros [[= <-] _]. eauto.
    + intros (c & Hl' & _ & -> & _). rewrite Hl in Hl'. by injection Hl' as ->.
  - (* cache miss *)
    destruct (NostrService.client (nostrService srv)) eqn:Hcl.
    + destruct (resolvePubkey_miss directory id now1 now2 srv cleanId Hck Hcl)
        as (-> & Hr & Hq & Hc & Hcl').
      split.
      * rewrite Hr. intros [= Hnone] Hle.
        rewrite Hc, Hnone. simpl. split; [done|]. split; [done|].
        set (srv1 := (resolvePubkey directory id now1 now2 srv).2) in *.
        assert (Hck' : resolvePubkey_check id now3 (pubkeyCache srv1)
                       = Miss (cleanUnicityId id)).
        { rewrite Hc, Hnone. simpl. revert Hck.
          unfold resolvePubkey_check, fresh.
          destruct (pubkeyCache srv !! cleanUnicityId id) as [c|]; [|done].
          destruct (Z.ltb_spec (now1 - timestamp c) PUBKEY_CACHE_TTL_MS); [done|].
          intros _.
          destruct (Z.ltb_spec (now3 - timestamp c) PUBKEY_CACHE_TTL_MS); [lia|done]. }
        destruct (resolvePubkey_miss directory' id now3 now4 srv1 _ Hck' Hcl')
          as (_ & Hr' & Hq' & _ & _).
        done.
      * intros answer. split.
        -- intros [_ Hsame]. rewrite Hq in Hsame.
           apply (f_equal length) in Hsame. rewrite length_app in Hsame.
           simpl in Hsame. lia.
        -- intros (c & Hl & Hage & _ & _).
           assert (Hhit : resolvePubkey_check id now1 (pubkeyCache srv) = Hit (pubkey c)).
           { apply resolvePubkey_check_hit. eauto. }
           congruence.
    + assert (Hcall : resolvePubkey directory id now1 now2 srv
                      = (NostrService.Throw "Nostr client not connected", srv)).
      { unfold resolvePubkey. rewrite Hck. unfold NostrService.resolvePubkey.
        rewrite Hcl. simpl. by destruct srv. }
      rewrite Hcall. simpl. split; [done|].
      intros answer. split; [by intros [? _]|].
      intros (c & Hl & Hage & _ & _).
      assert (Hhit : resolvePubkey_check id now1 (pubkeyCache srv) = Hit (pubkey c)).
      { apply resolvePubkey_check_hit. eauto. }
      congruence.
Qed.

Lemma resolvePubkey_not_found_not_cached_witness :
  let call := resolvePubkey Samples.directory0 "@bob" 10 11 Samples.server0 in
  (lookups call.2 = ["bob"] ∧
   pubkeyCache call.2 = ∅ ∧
   lookups (resolvePubkey Samples.directory0 "@bob" 20 21 call.2).2 = ["bob"; "bob"] ∧
   (resolvePubkey Samples.directory0 "@bob" 20 21 call.2).1 = NostrService.Ok None) ∧
  (resolvePubkey Samples.directory0 "alice" 300999 301000 Samples.server_cached).1
  = NostrService.Ok (Some "pkA") ∧
  lookups (resolvePubkey Samples.directory0 "alice" 300999 301000 Samples.server_cached).2
  = [].
Proof.
  split.
  - apply (proj1 (resolvePubkey_not_found_not_cached Samples.directory0
                    Samples.directory0 "@bob" 10 11 20 21 Samples.server0)).
    + reflexivity.
    + lia.
  - apply (proj2 (resolvePubkey_not_found_not_cached Samples.directory0
                    Samples.directory0 "alice" 300999 301000 0 0
                    Samples.server_cached) (Some "pkA")).
    exists {| pubkey := "pkA"; timestamp := 1000 |}.
    repeat split; reflexivity.
Defined.

Example resolvePubkey_stale_entry :
  lookups (resolvePubkey Samples.directory0 "alice" 301000 301001 Samples.server_cached).2
  = ["alice"].
Proof. reflexivity. Qed.

Example resolvePubkey_found_is_cached :
  pubkeyCache (resolvePubkey Samples.directory0 "carol" 10 11 Samples.server0).2
  !! "carol" = Some {| pubkey := "pkC"; timestamp := 11 |}.
Proof. reflexivity. Qed.

End Resolver.

(** ** The map of pending payments *)

Section MapOperations.

Import NostrService.

Context {V : Type}.
Implicit Types (m : list (string * V)) (k : string) (v : V).

Lemma map_has_spec k m : map_has k m = true ↔ k ∈ m.*1.
Proof. unfold map_has. apply bool_decide_eq_true. Qed.

Lemma elem_of_map_delete k m kv : kv ∈ map_delete k m ↔ kv.1 ≠ k ∧ kv ∈ m.
Proof. unfold map_delete. by rewrite list_elem_of_filter. Qed.

Lemma map_delete_keys k m : (map_delete k m).*1 = filter (λ k', k' ≠ k) m.*1.
Proof.
  unfold map_delete. induction m as [|[k' v'] m IH]; [done|].
  rewrite fmap_cons. simpl.
  destruct (decide (k' = k)) as [->|Hne].
  - rewrite !filter_cons_False by (simpl; tauto). done.
  - rewrite !filter_cons_True by done. rewrite fmap_cons. simpl. by rewrite IH.
Qed.

Lemma map_delete_NoDup k m : NoDup m.*1 → NoDup (map_delete k m).*1.
Proof. rewrite map_delete_keys. apply NoDup_filter. Qed.

Lemma map_delete_absent k m : k ∉ m.*1 → map_delete k m = m.
Proof.
  unfold map_delete. induction m as [|[k' v'] m IH]; [done|].
  rewrite fmap_cons, not_elem_of_cons. simpl. intros [Hne Hnotin].
  rewrite filter_cons_True by (simpl; congruence). by rewrite IH.
Qed.

(** With distinct keys, [delete] takes out the one entry of the key. *)
Lemma map_delete_middle k v m1 m2 :
  NoDup (m1 ++ (k, v) :: m2).*1 → map_delete k (m1 ++ (k, v) :: m2) = m1 ++ m2.
Proof.
  rewrite fmap_app, fmap_cons. simpl.
  rewrite NoDup_app, NoDup_cons. intros (_ & Hdisj & Hk2 & _).
  unfold map_delete. rewrite filter_app, filter_cons_False by (simpl; tauto).
  fold (map_delete k m1). fold (map_delete k m2).
  rewrite !map_delete_absent; [done|done|].
  intros Hin. apply (Hdisj k Hin). left.
Qed.

Lemma map_delete_not_key k m : k ∉ (map_delete k m).*1.
Proof.
  rewrite map_delete_keys, list_elem_of_filter. tauto.
Qed.

Lemma map_set_keys k v m :
  (map_set k v m).*1 = if decide (k ∈ m.*1) then m.*1 else m.*1 ++ [k].
Proof.
  induction m as [|[k' v'] m IH].
  - destruct (decide (k ∈ ([] : list (string * V)).*1)) as [H|H]; [|done].
    by apply elem_of_nil in H.
  - cbn [map_set]. rewrite fmap_cons. cbn [fst].
    destruct (decide (k' = k)) as [->|Hne].
    + rewrite fmap_cons. cbn [fst].
      destruct (decide (k ∈ k :: m.*1)) as [H|H]; [done|]. destruct H. left.
    + rewrite fmap_cons. cbn [fst]. rewrite IH.
      destruct (decide (k ∈ m.*1)) as [Hin|Hnotin];
        destruct (decide (k ∈ k' :: m.*1)) as [H|H]; try done.
      * destruct H. by right.
      * apply elem_of_cons in H as [->|H]; done.
Qed.

Lemma map_set_NoDup k v m : NoDup m.*1 → NoDup (map_set k v m).*1.
Proof.
  intros Hnd. rewrite map_set_keys. destruct (decide (k ∈ m.*1)); [done|].
  apply NoDup_app. split; [done|]. split; [|apply NoDup_singleton].
  intros x Hx. rewrite list_elem_of_singleton. by intros ->.
Qed.

Lemma map_set_absent k v m : k ∉ m.*1 → map_set k v m = m ++ [(k, v)].
Proof.
  induction m as [|[k' v'] m IH]; [done|].
  rewrite fmap_cons, not_elem_of_cons. simpl. intros [Hne Hnotin].
  rewrite decide_False by congruence. by rewrite IH.
Qed.

Lemma elem_of_map_set_inv k v m kv : kv ∈ map_set k v m → kv = (k, v) ∨ kv ∈ m.
Proof.
  induction m as [|[k' v'] m IH]; simpl.
  - rewrite list_elem_of_singleton. by left.
  - destruct (decide (k' = k)) as [->|Hne]; rewrite !elem_of_cons.
    + intros [->|Hin]; [by left | right; by right].
    + intros [->|Hin]; [right; by left|].
      destruct (IH Hin) as [->|Hin']; [by left | right; by right].
Qed.

Lemma elem_of_map_set_new k v m : (k, v) ∈ map_set k v m.
Proof.
  induction m as [|[k' v'] m IH]; simpl; [left|].
  destruct (decide (k' = k)); [left | by right].
Qed.

Lemma elem_of_map_set_other k v m kv : kv ∈ m → kv.1 ≠ k → kv ∈ map_set k v m.
Proof.
  intros Hin Hne. induction m as [|[k' v'] m IH]; simpl; [by apply elem_of_nil in Hin|].
  apply elem_of_cons in Hin as [->|Hin].
  - simpl in Hne. rewrite decide_False by done. left.
  - destruct (decide (k' = k)); right; [done | by apply IH].
Qed.

Lemma NoDup_keys_agree m k v1 v2 :
  NoDup m.*1 → (k, v1) ∈ m → (k, v2) ∈ m → v1 = v2.
Proof.
  induction m as [|[k' v'] m IH]; [by rewrite elem_of_nil|].
  rewrite fmap_cons, NoDup_cons, !elem_of_cons. simpl.
  intros [Hk Hnd] [H1|H1] [H2|H2].
  - congruence.
  - injection H1 as -> ->. destruct Hk.
    apply list_elem_of_fmap. by exists (k', v2).
  - injection H2 as -> ->. destruct Hk.
    apply list_elem_of_fmap. by exists (k', v1).
  - by apply IH.
Qed.

End MapOperations.

(** ** Invariants of the runs of the service *)

Section ServiceInvariants.

Import NostrService NostrInv.

Lemma NoDup_fmap_agree {A B} (f : A → B) (l : list A) x y :
  NoDup (f <$> l) → x ∈ l → y ∈ l → f x = f y → x = y.
Proof.
  induction l as [|a l IH]; [by rewrite elem_of_nil|].
  rewrite fmap_cons, NoDup_cons, !elem_of_cons.
  intros [Ha Hnd] [->|Hx] [->|Hy] Hf; [done| | |by apply IH].
  - destruct Ha. rewrite Hf. by apply list_elem_of_fmap_2.
  - destruct Ha. rewrite <- Hf. by apply list_elem_of_fmap_2.
Qed.

Lemma elem_of_delete_ne {A} (l : list A) n x y :
  l !! n = Some x → y ∈ l → y ≠ x → y ∈ delete n l.
Proof.
  revert n. induction l as [|a l IH]; intros [|n]; simpl; try done.
  - intros [= ->]. rewrite elem_of_cons. intros [->|Hy] Hne; done.
  - intros Hn. rewrite !elem_of_cons. intros [->|Hy] Hne; [by left|].
    right. by eapply IH.
Qed.

Lemma NoDup_fmap_delete {A B} (f : A → B) (l : list A) n :
  NoDup (f <$> l) → NoDup (f <$> delete n l).
Proof.
  rewrite list_fmap_delete. intros Hnd.
  eapply sublist_NoDup; [done | apply sublist_delete].
Qed.

Lemma first_match_Some ev m key pending :
  first_match ev m = Some (key, pending) ↔
  ∃ m1 m2, m = m1 ++ (key, pending) :: m2 ∧
           Forall (λ kv, satisfies ev kv.2 = false) m1 ∧
           satisfies ev pending = true.
Proof.
  induction m as [|[k pd] m IH]; simpl.
  - split; [done|]. intros (m1 & m2 & Hm & _). by destruct m1.
  - destruct (satisfies ev pd) eqn:Hs.
    + split.
      * intros [= -> ->]. exists [], m. by repeat split.
      * intros ([|[k1 pd1] m1] & m2 & Hm & Hall & Hsat).
        -- by injection Hm as -> -> _.
        -- injection Hm as -> -> _. apply Forall_cons in Hall as [Hno _].
           simpl in Hno. congruence.
    + rewrite IH. split.
      * intros (m1 & m2 & -> & Hall & Hsat).
        exists ((k, pd) :: m1), m2. repeat split; [|done].
        by apply Forall_cons.
      * intros ([|[k1 pd1] m1] & m2 & Hm & Hall & Hsat).
        -- injection Hm as -> -> _. congruence.
        -- injection Hm as -> -> ->. apply Forall_cons in Hall as [_ Hall].
           by exists m1, m2.
Qed.

Lemma first_match_None ev m :
  first_match ev m = None ↔ Forall (λ kv, satisfies ev kv.2 = false) m.
Proof.
  induction m as [|[k pd] m IH]; simpl; [done|].
  rewrite Forall_cons. simpl. destruct (satisfies ev pd).
  - split; [done | by intros [? _]].
  - rewrite IH. split; [done | by intros [_ ?]].
Qed.

Lemma first_match_elem ev m key pending :
  first_match ev m = Some (key, pending) → (key, pending) ∈ m.
Proof.
  intros (m1 & m2 & -> & _)%first_match_Some.
  apply elem_of_app. right. left.
Qed.

(** Two entries of the map never share a promise. *)
Lemma inv_entry_promise s k1 pd1 k2 pd2 :
  inv s → (k1, pd1) ∈ pendingPayments s → (k2, pd2) ∈ pendingPayments s →
  resolve pd1 = resolve pd2 → k1 = k2 ∧ pd1 = pd2.
Proof.
  intros Hinv H1 H2 Hp.
  destruct (inv_entry_timer s Hinv _ _ H1) as (tm1 & Htm1 & <- & Hr1).
  destruct (inv_entry_timer s Hinv _ _ H2) as (tm2 & Htm2 & <- & Hr2).
  assert (tm1 = tm2) as ->.
  { eapply NoDup_fmap_agree; [apply (inv_timer_promises s Hinv)|done..|congruence]. }
  split; [done|].
  eapply NoDup_keys_agree; [apply (inv_keys s Hinv)|done..].
Qed.

Lemma inv_entry_created s k pd :
  inv s → (k, pd) ∈ pendingPayments s → (resolve pd < created s)%nat.
Proof.
  intros Hinv Hin.
  destruct (inv_entry_timer s Hinv _ _ Hin) as (tm & Htm & _ & <-).
  by apply (inv_timer_created s Hinv).
Qed.

Lemma inv_new cfg : inv (new cfg).
Proof.
  split; simpl.
  - constructor.
  - done.
  - intros h Hh. by apply elem_of_nil in Hh.
  - intros kv Hkv. by apply elem_of_nil in Hkv.
  - intros p [b Hb]. by rewrite lookup_empty in Hb.
  - intros p. split.
    + intros Hp. by apply elem_of_nil in Hp.
    + intros [b Hb]. by rewrite lookup_empty in Hb.
  - intros k pd Hin. by apply elem_of_nil in Hin.
  - intros k pd Hin. by apply elem_of_nil in Hin.
  - intros tm Hin. by apply elem_of_nil in Hin.
  - constructor.
Qed.

Lemma inv_set_flags cl km cn s :
  inv s → (cl = true → km = true) → (client s = true → cl = true) →
  inv (set_flags cl km cn s).
Proof.
  intros [] Hf Hc. split; simpl; try done.
  - intros h Hh. eauto.
  - intros kv Hkv. eauto.
Qed.

Lemma inv_connect how s : inv s → inv (connect how s).
Proof.
  intros Hinv. unfold connect.
  destruct (connected s); [done|].
  destruct how; [done | by apply inv_set_flags..].
Qed.

Lemma inv_disconnect s : inv s → inv (disconnect s).
Proof.
  intros Hinv. apply inv_set_flags; [done | apply (inv_flags s Hinv) | done].
Qed.

Lemma inv_resolvePubkey directory u s : inv s → inv (resolvePubkey directory u s).2.
Proof.
  intros Hinv. unfold resolvePubkey. destruct (client s) eqn:Hc; simpl; [|done].
  destruct Hinv. split; simpl; try done; first [congruence | intros; eauto].
Qed.

Lemma inv_sendPaymentRequest u k rid ok s :
  inv s → inv (sendPaymentRequest u k rid ok s).2.
Proof.
  intros Hinv. unfold sendPaymentRequest.
  destruct (client s) eqn:Hc; simpl; [|done].
  destruct Hinv. destruct ok; split; simpl; try done; first [congruence | intros; eauto].
Qed.

Lemma elem_of_take_handle h hs x : x ∈ take_handle h hs → x ∈ hs.
Proof.
  induction hs as [|h' hs IH]; simpl; [done|].
  destruct (decide (h' = h)); rewrite ?elem_of_cons; [by right|].
  intros [->|Hx]; [by left | right; by apply IH].
Qed.

Lemma take_handle_perm h hs : h ∈ hs → hs ≡ₚ h :: take_handle h hs.
Proof.
  induction hs as [|h' hs IH]; [by rewrite elem_of_nil|].
  simpl. destruct (decide (h' = h)) as [->|Hne]; [done|].
  rewrite elem_of_cons. intros [->|Hin]; [done|].
  rewrite (IH Hin) at 1. apply Permutation_swap.
Qed.

Lemma inv_waitForPayment h now s :
  inv s → h ∈ handles s → inv (waitForPayment h now s).2.
Proof.
  intros Hinv Hh. pose proof (inv_handle_client s Hinv h Hh) as Hcl.
  split; simpl.
  - apply map_set_NoDup, Hinv.
  - apply Hinv.
  - intros h' Hh'%elem_of_take_handle. by apply (inv_handle_client s Hinv h').
  - done.
  - intros p Hp. apply (inv_settled_created s Hinv) in Hp. lia.
  - apply Hinv.
  - intros k pd [ [= -> ->] | Hin ]%elem_of_map_set_inv.
    + eexists. split; [apply elem_of_app; right; left|]. done.
    + destruct (inv_entry_timer s Hinv _ _ Hin) as (tm & Htm & Hk & Hr).
      exists tm. split; [apply elem_of_app; by left | done].
  - intros k pd [ [= -> ->] | Hin ]%elem_of_map_set_inv; simpl.
    + destruct (settled s !! created s) eqn:Hs; [|done].
      assert (created s < created s)%nat; [|lia].
      apply (inv_settled_created s Hinv). by eexists.
    + by apply (inv_entry_pending s Hinv k).
  - intros tm [Hin | ->%list_elem_of_singleton]%elem_of_app; simpl; [|lia].
    apply (inv_timer_created s Hinv) in Hin. lia.
  - rewrite fmap_app. simpl. apply NoDup_app.
    split; [apply Hinv|]. split; [|apply NoDup_singleton].
    intros p (tm & -> & Htm)%list_elem_of_fmap Heq%list_elem_of_singleton.
    apply (inv_timer_created s Hinv) in Htm. lia.
Qed.

Lemma calls_settled_call_resolve p b s :
  (∀ q, q ∈ (resolveCalls s).*1 ↔ is_Some (settled s !! q)) →
  ∀ q, q ∈ (resolveCalls (call_resolve p b s)).*1 ↔
       is_Some (settled (call_resolve p b s) !! q).
Proof.
  intros H q. unfold call_resolve. cbn [settled resolveCalls].
  rewrite fmap_app, elem_of_app, H. cbn [fmap list_fmap fst].
  rewrite list_elem_of_singleton.
  destruct (settled s !! p) eqn:Hp.
  - split; [intros [? | ->]; [done | by eexists] | by left].
  - destruct (decide (q = p)) as [->|Hne].
    + rewrite lookup_insert_eq. split; [by eexists | by right].
    + rewrite lookup_insert_ne by done. split; [by intros [?|?] | by left].
Qed.

Lemma settled_call_resolve_unsettled p b s q :
  settled s !! p = None → q ≠ p →
  settled (call_resolve p b s) !! q = settled s !! q.
Proof.
  intros Hp Hne. unfold call_resolve. cbn [settled].
  rewrite Hp. by rewrite lookup_insert_ne.
Qed.

Lemma settled_call_resolve_other p b s q :
  q ≠ p → settled (call_resolve p b s) !! q = settled s !! q.
Proof.
  intros Hne. unfold call_resolve. cbn [settled].
  destruct (settled s !! p); [done|]. by rewrite lookup_insert_ne.
Qed.

Lemma settled_call_resolve_created p b s q :
  (∀ q, is_Some (settled s !! q) → (q < created s)%nat) →
  (p < created s)%nat →
  is_Some (settled (call_resolve p b s) !! q) → (q < created s)%nat.
Proof.
  intros H Hp. unfold call_resolve. cbn [settled created].
  destruct (settled s !! p); [apply H|].
  destruct (decide (q = p)) as [->|Hne]; [done|].
  rewrite lookup_insert_ne by done. apply H.
Qed.

Lemma inv_handleIncomingTransfer ev s : inv s → inv (handleIncomingTransfer ev s).
Proof.
  intros Hinv. unfold handleIncomingTransfer.
  destruct (keyManager s); simpl; [|done].
  destruct (isTokenTransfer ev); simpl; [|done].
  destruct (first_match ev (pendingPayments s)) as [[key pending]|] eqn:Hfm; [|done].
  apply first_match_elem in Hfm.
  split.
  - apply map_delete_NoDup, Hinv.
  - apply Hinv.
  - apply Hinv.
  - intros kv [_ Hin]%elem_of_map_delete. by apply (inv_entry_client s Hinv kv).
  - intros p. apply settled_call_resolve_created; [apply Hinv|].
    by eapply inv_entry_created.
  - apply calls_settled_call_resolve, Hinv.
  - intros k pd [_ Hin]%elem_of_map_delete. by apply (inv_entry_timer s Hinv).
  - intros k pd [Hne Hin]%elem_of_map_delete. simpl in Hne.
    cbn [set_pendingPayments settled].
    rewrite settled_call_resolve_other; [by apply (inv_entry_pending s Hinv k)|].
    intros Heq. destruct (inv_entry_promise s _ _ _ _ Hinv Hin Hfm Heq). done.
  - apply Hinv.
  - apply Hinv.
Qed.

Lemma inv_fireTimer n s s' : inv s → fireTimer n s = Some s' → inv s'.
Proof.
  intros Hinv. unfold fireTimer.
  destruct (timers s !! n) as [tm|] eqn:Htm; simpl; [|done].
  intros [= <-].
  assert (Htm_in : tm ∈ timers s) by by eapply list_elem_of_lookup_2.
  assert (Hkeep : ∀ k pd, (k, pd) ∈ pendingPayments s → k ≠ t_requestId tm →
    (∃ tm', tm' ∈ delete n (timers s) ∧ t_requestId tm' = k ∧
            t_resolve tm' = resolve pd) ∧ resolve pd ≠ t_resolve tm).
  { intros k pd Hin Hne.
    destruct (inv_entry_timer s Hinv _ _ Hin) as (tm' & Htm' & Hk & Hr).
    assert (tm' ≠ tm) by congruence.
    split; [exists tm'; split; [by eapply elem_of_delete_ne | done]|].
    intros Heq. rewrite <- Hr in Heq.
    by apply (NoDup_fmap_agree t_resolve (timers s) tm' tm (inv_timer_promises s Hinv))
      in Heq. }
  unfold onTimeout. simpl.
  destruct (map_has (t_requestId tm) (pendingPayments s)) eqn:Hhas.
  - split.
    + apply map_delete_NoDup, Hinv.
    + apply Hinv.
    + apply Hinv.
    + intros kv [_ Hin]%elem_of_map_delete. by apply (inv_entry_client s Hinv kv).
    + intros p. apply settled_call_resolve_created; [apply Hinv|].
      by apply (inv_timer_created s Hinv).
    + apply calls_settled_call_resolve, Hinv.
    + intros k pd [Hne Hin]%elem_of_map_delete. by apply Hkeep.
    + intros k pd [Hne Hin]%elem_of_map_delete.
      rewrite settled_call_resolve_other; [by apply (inv_entry_pending s Hinv k)|].
      by apply (Hkeep k pd).
    + intros tm' Htm'%list_elem_of_delete_inv. by apply (inv_timer_created s Hinv).
    + apply NoDup_fmap_delete, Hinv.
  - assert (Hnot : t_requestId tm ∉ (pendingPayments s).*1).
    { intros Hin%map_has_spec. congruence. }
    split; simpl; try apply Hinv.
    + intros k pd Hin. apply Hkeep; [done|].
      intros ->. apply Hnot. by apply (list_elem_of_fmap_2 fst) in Hin.
    + intros tm' Htm'%list_elem_of_delete_inv. by apply (inv_timer_created s Hinv).
    + apply NoDup_fmap_delete, Hinv.
Qed.

Lemma inv_step a s s' : inv s → step a s = Some s' → inv s'.
Proof.
  intros Hinv. destruct a; simpl.
  - intros [= <-]. by apply inv_connect.
  - intros [= <-]. by apply inv_disconnect.
  - intros [= <-]. by apply inv_resolvePubkey.
  - intros [= <-]. by apply inv_sendPaymentRequest.
  - destruct (decide (h ∈ handles s)); [|done].
    intros [= <-]. by apply inv_waitForPayment.
  - intros [= <-]. by apply inv_handleIncomingTransfer.
  - by apply inv_fireTimer.
Qed.

Lemma inv_run acts s s' : inv s → run acts s = Some s' → inv s'.
Proof.
  revert s. induction acts as [|a acts IH]; intros s Hinv; simpl.
  - by intros [= <-].
  - destruct (step a s) as [s1|] eqn:Hstep; simpl; [|done].
    apply IH. by eapply inv_step.
Qed.

Lemma inv_reachable s : reachable s → inv s.
Proof. intros (cfg & acts & Hrun). eapply inv_run; [apply inv_new | done]. Qed.

(** *** With distinct request ids *)

Lemma requestIds_step a s s' :
  step a s = Some s' → ∃ l, requestIds s' = requestIds s ++ l.
Proof.
  destruct a; simpl.
  - intros [= <-]. exists []. rewrite app_nil_r. unfold connect.
    destruct (connected s); [done|]. by destruct how.
  - intros [= <-]. exists []. by rewrite app_nil_r.
  - intros [= <-]. exists []. rewrite app_nil_r. unfold resolvePubkey.
    by destruct (client s).
  - intros [= <-]. unfold sendPaymentRequest.
    destruct (client s); simpl; [|exists []; by rewrite app_nil_r].
    exists [rid]. by destruct transport_ok.
  - destruct (decide (h ∈ handles s)); [|done].
    intros [= <-]. exists []. by rewrite app_nil_r.
  - intros [= <-]. exists []. rewrite app_nil_r. unfold handleIncomingTransfer.
    destruct (keyManager s); simpl; [|done].
    destruct (isTokenTransfer ev); simpl; [|done].
    by destruct (first_match ev (pendingPayments s)) as [[key pending]|].
  - unfold fireTimer. destruct (timers s !! n) as [tm|]; simpl; [|done].
    intros [= <-]. exists []. rewrite app_nil_r. unfold onTimeout. simpl.
    by destruct (map_has (t_requestId tm) (pendingPayments s)).
Qed.

Lemma requestIds_step_NoDup a s s' :
  step a s = Some s' → NoDup (requestIds s') → NoDup (requestIds s).
Proof.
  intros [l ->]%requestIds_step. by intros [? _]%NoDup_app.
Qed.

Lemma fresh_inv_new cfg : fresh_inv (new cfg).
Proof.
  split; simpl.
  - constructor.
  - intros r Hr. by apply elem_of_nil in Hr.
  - intros p Hp. lia.
  - constructor.
Qed.

Lemma fresh_inv_set_flags cl km cn s : fresh_inv s → fresh_inv (set_flags cl km cn s).
Proof. by intros []. Qed.

Lemma fresh_inv_sendPaymentRequest u k rid ok s :
  fresh_inv s → NoDup (requestIds (sendPaymentRequest u k rid ok s).2) →
  fresh_inv (sendPaymentRequest u k rid ok s).2.
Proof.
  intros Hf. unfold sendPaymentRequest.
  destruct (client s); simpl; [|done].
  assert (Hsub : ∀ r, r ∈ (h_requestId <$> handles s) ++ (t_requestId <$> timers s) →
                      r ∈ requestIds s ++ [rid]).
  { intros r Hr. apply elem_of_app. left. by apply (finv_drawn s Hf). }
  destruct ok; simpl; intros [Hnd [Hrid _]]%NoDup_app; split; simpl;
    try apply Hf; try done.
  - rewrite fmap_app. simpl.
    rewrite <- app_assoc. simpl.
    rewrite <- Permutation_middle. apply NoDup_cons. split; [|apply Hf].
    intros Hin. apply (finv_drawn s Hf) in Hin.
    apply (Hrid rid Hin). left.
  - intros r. rewrite fmap_app. simpl. rewrite <- app_assoc. simpl.
    rewrite <- Permutation_middle, elem_of_cons.
    intros [->|Hr]; [|by apply Hsub].
    apply elem_of_app. right. left.
Qed.

Lemma fresh_inv_waitForPayment h now s :
  inv s → fresh_inv s → h ∈ handles s → fresh_inv (waitForPayment h now s).2.
Proof.
  intros Hinv Hf Hh.
  assert (Hperm :
    (h_requestId <$> take_handle h (handles s)) ++
      (t_requestId <$> timers s ++
         [{| t_requestId := h_requestId h; t_resolve := created s;
             t_delay := (λ x, x * 1000) <$> Config.paymentTimeoutSeconds (config s) |}])
    ≡ₚ (h_requestId <$> handles s) ++ (t_requestId <$> timers s)).
  { rewrite fmap_app. simpl. rewrite app_assoc, <- Permutation_cons_append.
    rewrite (take_handle_perm h (handles s) Hh) at 2. done. }
  split; simpl.
  - rewrite Hperm. apply Hf.
  - intros r. rewrite Hperm. apply Hf.
  - intros p Hp Hs.
    destruct (decide (p = created s)) as [->|Hne].
    + eexists _, _. split; [apply elem_of_map_set_new | done].
    + destruct (finv_pending_entry s Hf p) as (k & pd & Hin & Hr); [lia|done|].
      exists k, pd. split; [|done].
      apply elem_of_map_set_other; [done|]. simpl. intros ->.
      destruct (inv_entry_timer s Hinv _ _ Hin) as (tm & Htm & Hk & _).
      pose proof (finv_ids s Hf) as Hnd.
      apply NoDup_app in Hnd as (_ & Hdisj & _).
      apply (Hdisj (h_requestId h)).
      * by apply list_elem_of_fmap_2.
      * rewrite <- Hk. by apply list_elem_of_fmap_2.
  - apply Hf.
Qed.

Lemma fresh_inv_handleIncomingTransfer ev s :
  inv s → fresh_inv s → fresh_inv (handleIncomingTransfer ev s).
Proof.
  intros Hinv Hf. unfold handleIncomingTransfer.
  destruct (keyManager s); simpl; [|done].
  destruct (isTokenTransfer ev); simpl; [|done].
  destruct (first_match ev (pendingPayments s)) as [[key pending]|] eqn:Hfm; [|done].
  apply first_match_elem in Hfm.
  pose proof (inv_entry_pending s Hinv _ _ Hfm) as Hpend.
  split.
  - apply Hf.
  - apply Hf.
  - intros q Hq. cbn [set_pendingPayments settled pendingPayments].
    destruct (decide (q = resolve pending)) as [->|Hne].
    + unfold call_resolve. cbn [settled]. rewrite Hpend, lookup_insert_eq. done.
    + rewrite settled_call_resolve_other by done. intros Hs.
      destruct (finv_pending_entry s Hf q Hq Hs) as (k & pd & Hin & Hr).
      exists k, pd. split; [|done].
      apply elem_of_map_delete. split; [|done]. simpl. intros ->.
      pose proof (NoDup_keys_agree _ _ _ _ (inv_keys s Hinv) Hin Hfm). congruence.
  - cbn [set_pendingPayments call_resolve resolveCalls].
    rewrite fmap_app. apply NoDup_app. split; [apply Hf|].
    split; [|apply NoDup_singleton].
    intros q Hq ->%list_elem_of_singleton.
    apply (inv_calls_settled s Hinv) in Hq as [b Hb]. simpl in Hb. congruence.
Qed.

Lemma fresh_inv_fireTimer n s s' :
  inv s → fresh_inv s → fireTimer n s = Some s' → fresh_inv s'.
Proof.
  intros Hinv Hf. unfold fireTimer.
  destruct (timers s !! n) as [tm|] eqn:Htm; simpl; [|done].
  intros [= <-].
  assert (Htm_in : tm ∈ timers s) by by eapply list_elem_of_lookup_2.
  assert (Hids : NoDup ((h_requestId <$> handles s) ++
                        (t_requestId <$> delete n (timers s)))).
  { pose proof (finv_ids s Hf) as Hnd. revert Hnd. rewrite !NoDup_app.
    intros (H1 & H2 & H3). split; [done|]. split.
    - intros r Hr Hr'. apply (H2 r Hr).
      apply list_elem_of_fmap in Hr' as (tm' & -> & Htm'%list_elem_of_delete_inv).
      by apply list_elem_of_fmap_2.
    - by apply NoDup_fmap_delete. }
  assert (Hdrawn : ∀ r, r ∈ (h_requestId <$> handles s) ++
                            (t_requestId <$> delete n (timers s)) →
                        r ∈ requestIds s).
  { intros r Hr. apply (finv_drawn s Hf). revert Hr. rewrite !elem_of_app.
    intros [Hr|Hr]; [by left | right].
    apply list_elem_of_fmap in Hr as (tm' & -> & Htm'%list_elem_of_delete_inv).
    by apply list_elem_of_fmap_2. }
  unfold onTimeout. simpl.
  destruct (map_has (t_requestId tm) (pendingPayments s)) eqn:Hhas.
  - apply map_has_spec in Hhas.
    apply list_elem_of_fmap in Hhas as ([k pd] & Hk & Hin). simpl in Hk. subst k.
    assert (Hp : resolve pd = t_resolve tm).
    { destruct (inv_entry_timer s Hinv _ _ Hin) as (tm' & Htm' & Hk & Hr).
      assert (tm' = tm) as ->; [|done].
      pose proof (finv_ids s Hf) as Hnd. apply NoDup_app in Hnd as (_ & _ & Hnd).
      by eapply NoDup_fmap_agree. }
    pose proof (inv_entry_pending s Hinv _ _ Hin) as Hpend. rewrite Hp in Hpend.
    split.
    + done.
    + done.
    + intros q Hq. cbn [set_pendingPayments set_timers call_resolve settled
                        pendingPayments created] in *.
      rewrite Hpend.
      destruct (decide (q = t_resolve tm)) as [->|Hne].
      * by rewrite lookup_insert_eq.
      * rewrite lookup_insert_ne by done. intros Hs.
        destruct (finv_pending_entry s Hf q Hq Hs) as (k & pd' & Hin' & Hr).
        exists k, pd'. split; [|done].
        apply elem_of_map_delete. split; [|done]. simpl. intros ->.
        pose proof (NoDup_keys_agree _ _ _ _ (inv_keys s Hinv) Hin Hin').
        congruence.
    + cbn [set_pendingPayments set_timers call_resolve resolveCalls].
      rewrite fmap_app. apply NoDup_app. split; [apply Hf|].
      split; [|apply NoDup_singleton].
      intros q Hq ->%list_elem_of_singleton.
      apply (inv_calls_settled s Hinv) in Hq as [b Hb]. simpl in Hb. congruence.
  - split; simpl; [done | done | apply Hf | apply Hf].
Qed.

Lemma fresh_inv_step a s s' :
  inv s → fresh_inv s → step a s = Some s' → NoDup (requestIds s') → fresh_inv s'.
Proof.
  intros Hinv Hf. destruct a; simpl.
  - intros [= <-] _. unfold connect.
    destruct (connected s); [done|]. destruct how; [done | by apply fresh_inv_set_flags..].
  - intros [= <-] _. by apply fresh_inv_set_flags.
  - intros [= <-] _. unfold resolvePubkey. destruct (client s); simpl; [|done].
    by destruct Hf.
  - intros [= <-]. by apply fresh_inv_sendPaymentRequest.
  - destruct (decide (h ∈ handles s)); [|done].
    intros [= <-] _. by apply fresh_inv_waitForPayment.
  - intros [= <-] _. by apply fresh_inv_handleIncomingTransfer.
  - intros Hfire _. by eapply fresh_inv_fireTimer.
Qed.

Lemma requestIds_run_NoDup acts s s' :
  run acts s = Some s' → NoDup (requestIds s') → NoDup (requestIds s).
Proof.
  revert s. induction acts as [|a acts IH]; intros s; simpl.
  - by intros [= <-].
  - destruct (step a s) as [s1|] eqn:Hstep; simpl; [|done].
    intros Hrun Hnd. eapply requestIds_step_NoDup; [done|]. by eapply IH.
Qed.

Lemma fresh_inv_run acts s s' :
  inv s → fresh_inv s → run acts s = Some s' → NoDup (requestIds s') →
  fresh_inv s'.
Proof.
  revert s. induction acts as [|a acts IH]; intros s Hinv Hf; simpl.
  - by intros [= <-].
  - destruct (step a s) as [s1|] eqn:Hstep; simpl; [|done].
    intros Hrun Hnd. eapply IH; [by eapply inv_step| |done|done].
    eapply fresh_inv_step; [done..|]. by eapply requestIds_run_NoDup.
Qed.

(** ** Settlement events *)

Lemma satisfies_spec ev pending :
  satisfies ev pending = true ↔
  userPubkey pending = getSender ev ∧
  ∃ a, getAmount ev = Some a ∧ amount pending ≤ a.
Proof.
  unfold satisfies. rewrite andb_true_iff, bool_decide_eq_true.
  destruct (getAmount ev) as [a|].
  - rewrite Z.leb_le. split.
    + intros [? ?]. eauto.
    + intros [? (a' & [= <-] & ?)]. done.
  - split; [by intros [_ ?] | by intros [_ (a & ? & _)]].
Qed.

Lemma satisfies_false ev pending :
  satisfies ev pending = false ↔
  userPubkey pending ≠ getSender ev ∨ getAmount ev = None ∨
  ∃ a, getAmount ev = Some a ∧ a < amount pending.
Proof.
  unfold satisfies. rewrite andb_false_iff, bool_decide_eq_false.
  destruct (getAmount ev) as [a|].
  - rewrite Z.leb_gt. split.
    + intros [?|?]; [by left | right; right; eauto].
    + intros [?|[?|(a' & [= <-] & ?)]]; [by left | done | by right].
  - split; [intros _; right; by left | intros _; by right].
Qed.

Lemma reachable_keyManager s kv :
  reachable s → kv ∈ pendingPayments s → keyManager s = true.
Proof.
  intros Hinv%inv_reachable Hin.
  apply (inv_flags s Hinv). by apply (inv_entry_client s Hinv kv).
Qed.

(** What the handler does when the first satisfied entry is known. *)
Lemma handleIncomingTransfer_first s ev m1 key pending m2 :
  inv s → keyManager s = true → isTokenTransfer ev = true →
  pendingPayments s = m1 ++ (key, pending) :: m2 →
  Forall (λ kv, satisfies ev kv.2 = false) m1 →
  satisfies ev pending = true →
  handleIncomingTransfer ev s
  = set_pendingPayments (m1 ++ m2) (call_resolve (resolve pending) true s).
Proof.
  intros Hinv Hkm Hev Hm Hm1 Hsat. unfold handleIncomingTransfer.
  rewrite Hkm, Hev. simpl.
  assert (Hfm : first_match ev (pendingPayments s) = Some (key, pending)).
  { apply first_match_Some. by exists m1, m2. }
  rewrite Hfm. f_equal. cbn [call_resolve pendingPayments].
  rewrite Hm. apply map_delete_middle. rewrite <- Hm. apply Hinv.
Qed.

Lemma handleIncomingTransfer_none s ev :
  first_match ev (pendingPayments s) = None → handleIncomingTransfer ev s = s.
Proof.
  intros Hfm. unfold handleIncomingTransfer. rewrite Hfm.
  destruct (keyManager s); [|done]. by destruct (isTokenTransfer ev).
Qed.


(** The effect of an event on a reachable state whose first satisfied
    entry is known. *)
Lemma first_match_resolved
    (s : t) (ev : Event) (m1 m2 : list (string * PendingPayment))
    (key : string) (pending : PendingPayment) :
  reachable s →
  isTokenTransfer ev = true →
  pendingPayments s = m1 ++ (key, pending) :: m2 →
  Forall (λ kv, satisfies ev kv.2 = false) m1 →
  satisfies ev pending = true →
  let s' := handleIncomingTransfer ev s in
  pendingPayments s' = m1 ++ m2 ∧
  outcome (resolve pending) s' = Some true ∧
  resolveCalls s' = resolveCalls s ++ [(resolve pending, true)] ∧
  (∀ k pd, (k, pd) ∈ m1 ++ m2 → outcome (resolve pd) s' = None).
Proof.
  intros Hreach Hev Hm Hm1 Hsat s'.
  assert (Hin : (key, pending) ∈ pendingPayments s).
  { rewrite Hm. apply elem_of_app. right. left. }
  pose proof (reachable_keyManager s _ Hreach Hin) as Hkm.
  pose proof (inv_reachable s Hreach) as Hinv.
  pose proof (inv_entry_pending s Hinv _ _ Hin) as Hpend.
  subst s'. rewrite (handleIncomingTransfer_first s ev m1 key pending m2) by done.
  split; [done|]. split.
  { unfold outcome, call_resolve. cbn [set_pendingPayments settled].
    rewrite Hpend. apply lookup_insert_eq. }
  split; [done|].
  intros k pd Hkpd. unfold outcome. cbn [set_pendingPayments settled].
  assert (Hin' : (k, pd) ∈ pendingPayments s).
  { rewrite Hm. revert Hkpd. rewrite !elem_of_app, elem_of_cons. tauto. }
  rewrite settled_call_resolve_other; [by apply (inv_entry_pending s Hinv k)|].
  intros Heq.
  destruct (inv_entry_promise s _ _ _ _ Hinv Hin' Hin Heq) as [-> ->].
  pose proof (inv_keys s Hinv) as Hnd. rewrite Hm in Hnd.
  rewrite fmap_app, fmap_cons in Hnd. simpl in Hnd.
  apply NoDup_app in Hnd as (_ & Hdisj & [Hk2 _]%NoDup_cons).
  apply elem_of_app in Hkpd as [Hk|Hk].
  - apply (Hdisj key); [by apply (list_elem_of_fmap_2 fst) in Hk | left].
  - apply Hk2. by apply (list_elem_of_fmap_2 fst) in Hk.
Qed.



Lemma crossed_reachable : reachable Samples.crossed.
Proof. exists Samples.cfg0, Samples.crossed_acts. reflexivity. Qed.


(** C4, as the code has it: an event whose sender is the payer pubkey of a
    pending request and whose amount reaches the required amount resolves
    the promise of that request with [true] and removes the request, when
    no earlier entry of the map is satisfied by the event as well; an event
    with another sender, without an amount or with a smaller amount leaves
    the request in the map and its promise pending; an event that satisfies
    no entry changes nothing at all. *)
Theorem transfer_settles_request
    (s : t) (ev : Event) (key : string) (pending : PendingPayment) :
  reachable s →
  (key, pending) ∈ pendingPayments s →
  let s' := handleIncomingTransfer ev s in
  (isTokenTransfer ev = true →
   userPubkey pending = getSender ev →
   (∃ a, getAmount ev = Some a ∧ amount pending ≤ a) →
   (∃ m1 m2, pendingPayments s = m1 ++ (key, pending) :: m2 ∧
             Forall (λ kv, satisfies ev kv.2 = false) m1) →
   outcome (resolve pending) s' = Some true ∧
   (key ∉ (pendingPayments s').*1) ∧
   resolveCalls s' = resolveCalls s ++ [(resolve pending, true)]) ∧
  (userPubkey pending ≠ getSender ev ∨ getAmount ev = None ∨
   (∃ a, getAmount ev = Some a ∧ a < amount pending) →
   (key, pending) ∈ pendingPayments s' ∧ outcome (resolve pending) s' = None) ∧
  (Forall (λ kv, satisfies ev kv.2 = false) (pendingPayments s) → s' = s).
Proof.
  intros Hreach Hin s'. subst s'.
  pose proof (inv_reachable s Hreach) as Hinv.
  pose proof (inv_entry_pending s Hinv _ _ Hin) as Hpend.
  split; [|split].
  - intros Hev Hsender Hamount (m1 & m2 & Hm & Hm1).
    assert (Hsat : satisfies ev pending = true) by by apply satisfies_spec.
    destruct (first_match_resolved s ev m1 m2 key pending)
      as (Hp & Ho & Hc & _); [done..|].
    split; [done|]. split; [|done].
    rewrite Hp. pose proof (inv_keys s Hinv) as Hnd. rewrite Hm in Hnd.
    rewrite fmap_app, fmap_cons in Hnd. simpl in Hnd.
    apply NoDup_app in Hnd as (_ & Hdisj & [Hk2 _]%NoDup_cons).
    rewrite fmap_app. intros [Hk|Hk]%elem_of_app; [|done].
    apply (Hdisj key Hk). left.
  - intros Hno%satisfies_false.
    unfold handleIncomingTransfer.
    destruct (keyManager s); simpl; [|done].
    destruct (isTokenTransfer ev); simpl; [|done].
    destruct (first_match ev (pendingPayments s)) as [[k pd]|] eqn:Hfm; [|done].
    pose proof (first_match_elem _ _ _ _ Hfm) as Hin'.
    apply first_match_Some in Hfm as (_ & _ & _ & _ & Hsat).
    assert (Hne : resolve pending ≠ resolve pd).
    { intros Heq. destruct (inv_entry_promise s _ _ _ _ Hinv Hin Hin' Heq) as [_ ->].
      congruence. }
    split.
    + cbn [set_pendingPayments pendingPayments call_resolve].
      apply elem_of_map_delete. split; [|done]. simpl. intros ->.
      pose proof (NoDup_keys_agree _ _ _ _ (inv_keys s Hinv) Hin Hin').
      congruence.
    + unfold outcome. cbn [set_pendingPayments settled].
      by rewrite settled_call_resolve_other.
  - intros Hnone%first_match_None. by apply handleIncomingTransfer_none.
Qed.

Lemma transfer_settles_request_witness :
  let s1 := handleIncomingTransfer Samples.transferA Samples.crossed in
  let s2 := handleIncomingTransfer Samples.transfer_short Samples.crossed in
  (outcome 0 s1 = Some true ∧ ("k3x9q2ab" ∉ (pendingPayments s1).*1) ∧
   resolveCalls s1 = [(0%nat, true)]) ∧
  (("k3x9q2ab", Samples.pendingA) ∈ pendingPayments s2 ∧ outcome 0 s2 = None) ∧
  s2 = Samples.crossed.
Proof.
  assert (Hin : ("k3x9q2ab", Samples.pendingA) ∈ pendingPayments Samples.crossed)
    by (vm_compute; left).
  split; [|split].
  - apply (proj1 (transfer_settles_request Samples.crossed Samples.transferA
                    "k3x9q2ab" Samples.pendingA crossed_reachable Hin)).
    + reflexivity.
    + reflexivity.
    + exists 1000000000. split; [reflexivity | simpl; lia].
    + exists [], [("z81mfp0c", Samples.pendingB)]. split; [reflexivity | constructor].
  - apply (proj1 (proj2 (transfer_settles_request Samples.crossed
                           Samples.transfer_short "k3x9q2ab" Samples.pendingA
                           crossed_reachable Hin))).
    right. right. exists 999999999. split; [reflexivity | simpl; lia].
  - apply (proj2 (proj2 (transfer_settles_request Samples.crossed
                           Samples.transfer_short "k3x9q2ab" Samples.pendingA
                           crossed_reachable Hin))).
    repeat constructor.
Defined.

(** C4 as stated fails: two pending requests have the same payer pubkey
    and the same amount, an event from that pubkey with that amount
    arrives, and the second request stays in the map with its promise
    pending. *)
Lemma transfer_leaves_satisfied_request :
  let ev := with_reply None Samples.transferA in
  let s' := handleIncomingTransfer ev Samples.crossed in
  reachable Samples.crossed ∧
  pendingPayments Samples.crossed
  = [("k3x9q2ab", Samples.pendingA); ("z81mfp0c", Samples.pendingB)] ∧
  getSender ev = userPubkey Samples.pendingB ∧
  getAmount ev = Some (amount Samples.pendingB) ∧
  pendingPayments s' = [("z81mfp0c", Samples.pendingB)] ∧
  outcome (resolve Samples.pendingB) s' = None.
Proof.
  split; [apply crossed_reachable|]. repeat split; reflexivity.
Qed.

Lemma first_match_with_reply hint ev m :
  first_match (with_reply hint ev) m = first_match ev m.
Proof. induction m as [|[k pd] m IH]; simpl; [done|]. by rewrite IH. Qed.

Lemma outcome_handleIncomingTransfer ev s p :
  outcome p (handleIncomingTransfer ev s) ≠ outcome p s →
  ∃ key pending,
    first_match ev (pendingPayments s) = Some (key, pending) ∧ resolve pending = p.
Proof.
  unfold handleIncomingTransfer.
  destruct (keyManager s); simpl; [|done].
  destruct (isTokenTransfer ev); simpl; [|done].
  destruct (first_match ev (pendingPayments s)) as [[key pending]|]; [|done].
  intros Hne. exists key, pending. split; [done|].
  destruct (decide (resolve pending = p)) as [|Hp]; [done|].
  destruct Hne. unfold outcome. cbn [set_pendingPayments settled].
  by rewrite settled_call_resolve_other.
Qed.

(** C3, as the code has it: the handler never reads the reply reference of
    an event.  Two events that differ only in it leave the service in the
    same state, and a promise whose outcome the event changes belongs to
    the first entry of the map, in insertion order, whose payer pubkey is
    the sender and whose amount the event reaches. *)
Theorem transfer_ignores_reply_reference
    (s : t) (ev : Event) (hint : option string) :
  handleIncomingTransfer (with_reply hint ev) s = handleIncomingTransfer ev s ∧
  (∀ p, outcome p (handleIncomingTransfer ev s) ≠ outcome p s →
        ∃ key pending,
          first_match ev (pendingPayments s) = Some (key, pending) ∧
          resolve pending = p ∧
          userPubkey pending = getSender ev ∧
          ∃ a, getAmount ev = Some a ∧ amount pending ≤ a).
Proof.
  split.
  - unfold handleIncomingTransfer. by rewrite first_match_with_reply.
  - intros p (key & pending & Hfm & Hp)%outcome_handleIncomingTransfer.
    exists key, pending. split; [done|]. split; [done|].
    apply first_match_Some in Hfm as (_ & _ & _ & _ & Hsat).
    by apply satisfies_spec.
Qed.

Lemma transfer_ignores_reply_reference_witness :
  handleIncomingTransfer (with_reply None Samples.transferA) Samples.crossed
  = handleIncomingTransfer Samples.transferA Samples.crossed ∧
  ∃ key pending,
    first_match Samples.transferA (pendingPayments Samples.crossed)
    = Some (key, pending) ∧
    resolve pending = 0%nat ∧
    userPubkey pending = getSender Samples.transferA ∧
    ∃ a, getAmount Samples.transferA = Some a ∧ amount pending ≤ a.
Proof.
  destruct (transfer_ignores_reply_reference Samples.crossed Samples.transferA None)
    as [Hsame Hfirst].
  split; [exact Hsame|]. apply Hfirst.
  intros H. vm_compute in H. discriminate H.
Defined.

(** C3 as stated fails: the reply reference of the event is the id of the
    second pending request, and the handler resolves the first one, which
    has the same payer pubkey; the request the reference names stays
    pending. *)
Lemma reply_reference_not_checked :
  let s' := handleIncomingTransfer Samples.transferA Samples.crossed in
  reachable Samples.crossed ∧
  pendingPayments Samples.crossed
  = [("k3x9q2ab", Samples.pendingA); ("z81mfp0c", Samples.pendingB)] ∧
  getReplyToEventId Samples.transferA = Some (requestId Samples.pendingB) ∧
  outcome (resolve Samples.pendingB) s' = None ∧
  outcome (resolve Samples.pendingA) s' = Some true ∧
  pendingPayments s' = [("z81mfp0c", Samples.pendingB)].
Proof.
  split; [apply crossed_reachable|]. repeat split; reflexivity.
Qed.

(** ** Timeouts *)

Lemma outcome_call_resolve_stable p b q c s :
  outcome p s = Some b → outcome p (call_resolve q c s) = Some b.
Proof.
  unfold outcome, call_resolve. cbn [settled]. intros Hp.
  destruct (settled s !! q) eqn:Hq; [done|].
  rewrite lookup_insert_ne; [done | congruence].
Qed.

(** A settled promise keeps its outcome. *)
Lemma outcome_step_stable a s s' p b :
  outcome p s = Some b → step a s = Some s' → outcome p s' = Some b.
Proof.
  intros Hp. destruct a; simpl.
  - intros [= <-]. unfold connect.
    destruct (connected s); [done|]. by destruct how.
  - by intros [= <-].
  - intros [= <-]. unfold resolvePubkey. by destruct (client s).
  - intros [= <-]. unfold sendPaymentRequest.
    destruct (client s); [|done]. by destruct transport_ok.
  - destruct (decide (h ∈ handles s)); [|done]. by intros [= <-].
  - intros [= <-]. unfold handleIncomingTransfer.
    destruct (keyManager s); simpl; [|done].
    destruct (isTokenTransfer ev); simpl; [|done].
    destruct (first_match ev (pendingPayments s)) as [[key pending]|]; [|done].
    by apply (outcome_call_resolve_stable p b (resolve pending) true s).
  - unfold fireTimer. destruct (timers s !! n) as [tm|]; simpl; [|done].
    intros [= <-]. unfold onTimeout. simpl.
    destruct (map_has (t_requestId tm) (pendingPayments s)); [|done].
    by apply (outcome_call_resolve_stable p b (t_resolve tm) false).
Qed.

Lemma outcome_run_stable acts s s' p b :
  outcome p s = Some b → run acts s = Some s' → outcome p s' = Some b.
Proof.
  revert s. induction acts as [|a acts IH]; intros s Hp; simpl.
  - by intros [= <-].
  - destruct (step a s) as [s1|] eqn:Hstep; simpl; [|done].
    apply IH. by eapply outcome_step_stable.
Qed.

Lemma onTimeout_absent rid p s :
  map_has rid (pendingPayments s) = false → onTimeout rid p s = s.
Proof. intros H. unfold onTimeout. by rewrite H. Qed.

Lemma resolutions_le_1 p s : NoDup (resolveCalls s).*1 → (resolutions p s ≤ 1)%nat.
Proof.
  unfold resolutions. generalize (resolveCalls s). intros l.
  induction l as [|[q b] l IH]; [simpl; lia|].
  rewrite fmap_cons, NoDup_cons. cbn [fst]. intros [Hq Hnd].
  destruct (decide (q = p)) as [->|Hne].
  - rewrite filter_cons_True by done. cbn [length].
    assert (filter (λ c : nat * bool, c.1 = p) l = []) as ->; [|simpl; lia].
    apply elem_of_nil_inv. intros [q c] [Heq Hin]%list_elem_of_filter.
    simpl in Heq. subst q. apply Hq. by apply (list_elem_of_fmap_2 fst) in Hin.
  - rewrite filter_cons_False by done. by apply IH.
Qed.

Lemma resolutions_pos p s : p ∈ (resolveCalls s).*1 ↔ (0 < resolutions p s)%nat.
Proof.
  unfold resolutions. generalize (resolveCalls s). intros l.
  induction l as [|[q b] l IH].
  - rewrite fmap_nil, elem_of_nil. simpl. lia.
  - rewrite fmap_cons, elem_of_cons. cbn [fst].
    destruct (decide (q = p)) as [->|Hne].
    + rewrite filter_cons_True by done. cbn [length]. split; [lia | by left].
    + rewrite filter_cons_False by done. rewrite IH.
      split; [intros [?|?]; [congruence | done] | by right].
Qed.

Lemma run_inv cfg acts s :
  run acts (new cfg) = Some s → NoDup (requestIds s) → inv s ∧ fresh_inv s.
Proof.
  intros Hrun Hnd. split.
  - eapply inv_run; [apply inv_new | done].
  - eapply fresh_inv_run; [apply inv_new | apply fresh_inv_new | done..].
Qed.

Lemma first_call_call_resolve q b s :
  (∀ p, settled s !! p = first_call p (resolveCalls s)) →
  ∀ p, settled (call_resolve q b s) !! p = first_call p (resolveCalls (call_resolve q b s)).
Proof.
  intros H p. unfold first_call in *. cbn [call_resolve settled resolveCalls].
  rewrite filter_app. destruct (decide (p = q)) as [->|Hne].
  - rewrite (filter_cons_True _ (q, b)) by done. rewrite filter_nil.
    specialize (H q). destruct (settled s !! q) as [c|] eqn:Hs.
    + rewrite Hs, H. by destruct (filter _ (resolveCalls s)).
    + rewrite lookup_insert_eq.
      destruct (filter _ (resolveCalls s)) as [|c l]; [done|]. done.
  - rewrite (filter_cons_False _ (q, b)) by (simpl; congruence).
    rewrite filter_nil, app_nil_r, <- H.
    destruct (settled s !! q); [done|]. by rewrite lookup_insert_ne.
Qed.

Lemma first_call_step a s s' :
  (∀ p, settled s !! p = first_call p (resolveCalls s)) →
  step a s = Some s' →
  ∀ p, settled s' !! p = first_call p (resolveCalls s').
Proof.
  intros H. destruct a as [how| |dir u|u k rid ok|h now|ev|n]; simpl.
  - intros [= <-]. unfold connect. destruct (connected s); [done|]. by destruct how.
  - by intros [= <-].
  - intros [= <-]. unfold resolvePubkey. by destruct (client s).
  - intros [= <-]. unfold sendPaymentRequest. destruct (client s); [|done].
    by destruct ok.
  - destruct (decide (h ∈ handles s)); [|done]. by intros [= <-].
  - intros [= <-]. unfold handleIncomingTransfer.
    destruct (keyManager s); simpl; [|done].
    destruct (isTokenTransfer ev); simpl; [|done].
    destruct (first_match ev (pendingPayments s)) as [[key pending]|]; [|done].
    intros p. by apply (first_call_call_resolve (resolve pending) true s).
  - unfold fireTimer. destruct (timers s !! n) as [tm|]; simpl; [|done].
    intros [= <-]. unfold onTimeout. simpl.
    destruct (map_has (t_requestId tm) (pendingPayments s)); [|done].
    intros p.
    by apply (first_call_call_resolve (t_resolve tm) false
                (set_pendingPayments _ (set_timers _ s))).
Qed.

Lemma first_call_run acts s s' :
  (∀ p, settled s !! p = first_call p (resolveCalls s)) →
  run acts s = Some s' →
  ∀ p, settled s' !! p = first_call p (resolveCalls s').
Proof.
  revert s. induction acts as [|a acts IH]; intros s H; simpl.
  - by intros [= <-].
  - destruct (step a s) as [s1|] eqn:Hstep; simpl; [|done].
    apply IH. by eapply first_call_step.
Qed.

Lemma orphaned_step p a s s' : orphaned p s → step a s = Some s' → orphaned p s'.
Proof.
  intros (Hp & Hs & He & Ht).
  destruct a as [how| |dir u|u k rid ok|h now|ev|n]; simpl.
  - intros [= <-]. unfold connect. destruct (connected s); [done|]. by destruct how.
  - by intros [= <-].
  - intros [= <-]. unfold resolvePubkey. by destruct (client s).
  - intros [= <-]. unfold sendPaymentRequest. destruct (client s); [|done].
    by destruct ok.
  - destruct (decide (h ∈ handles s)); [|done]. intros [= <-].
    split; [simpl; lia|]. split; [done|]. split.
    + intros k' pd [ [= -> ->]|Hin]%elem_of_map_set_inv; [simpl; lia|]. by apply (He k').
    + intros tm [Hin|Hin]%elem_of_app; [by apply Ht|].
      apply list_elem_of_singleton in Hin as ->. simpl. lia.
  - intros [= <-]. unfold handleIncomingTransfer.
    destruct (keyManager s); simpl; [|done].
    destruct (isTokenTransfer ev); simpl; [|done].
    destruct (first_match ev (pendingPayments s)) as [[key pending]|] eqn:Hfm; [|done].
    apply first_match_elem in Hfm. pose proof (He _ _ Hfm) as Hne.
    split; [done|]. split.
    { simpl. destruct (settled s !! resolve pending); [done|].
      by rewrite lookup_insert_ne. }
    split; [|done].
    intros k' pd [_ Hin]%elem_of_map_delete. by apply (He k').
  - unfold fireTimer. destruct (timers s !! n) as [tm|] eqn:Htm; simpl; [|done].
    intros [= <-]. unfold onTimeout. simpl.
    assert (Hne : t_resolve tm ≠ p) by (apply Ht; by eapply list_elem_of_lookup_2).
    assert (Hsub : ∀ tm', tm' ∈ delete n (timers s) → t_resolve tm' ≠ p).
    { intros tm' Hin%list_elem_of_delete_inv. by apply Ht. }
    destruct (map_has (t_requestId tm) (pendingPayments s)).
    + split; [done|]. split.
      { simpl. destruct (settled s !! t_resolve tm); [done|].
        by rewrite lookup_insert_ne. }
      split; [|done].
      intros k' pd [_ Hin]%elem_of_map_delete. by apply (He k').
    + done.
Qed.

Lemma orphaned_run p acts s s' : orphaned p s → run acts s = Some s' → orphaned p s'.
Proof.
  revert s. induction acts as [|a acts IH]; intros s H; simpl.
  - by intros [= <-].
  - destruct (step a s) as [s1|] eqn:Hstep; simpl; [|done].
    apply IH. by eapply orphaned_step.
Qed.

(** C5, as the code has it.  In a run in which the request ids drawn are
    pairwise distinct: every promise made so far is either pending, with
    no call of its [resolve] function, its pending payment in the map and
    its timeout scheduled, or settled by exactly one call, whose argument
    is its outcome, and it is settled once its timeout has run; a call of
    [waitForPayment] makes a pending promise, stores its pending payment
    and schedules its timeout; a transfer resolves the promise of the first
    entry it satisfies with [true] and removes the entry; a timeout whose
    promise is pending resolves it with [false] and removes its entry; a
    timeout whose promise is settled only leaves the list of timers; and
    whatever happens later, a settled promise keeps its outcome. *)
Theorem promise_resolved_once (cfg : Config.t) (acts : list action) (s : t) :
  run acts (new cfg) = Some s →
  NoDup (requestIds s) →
  (∀ p, (p < created s)%nat →
     (outcome p s = None ∧ resolutions p s = 0%nat ∧
      ∃ tm pd, tm ∈ timers s ∧ t_resolve tm = p ∧
               (t_requestId tm, pd) ∈ pendingPayments s ∧ resolve pd = p) ∨
     (∃ b, outcome p s = Some b ∧
           filter (λ c, c.1 = p) (resolveCalls s) = [(p, b)])) ∧
  (∀ p, (p < created s)%nat → p ∉ t_resolve <$> timers s → is_Some (outcome p s)) ∧
  (∀ h now, h ∈ handles s →
     let r := waitForPayment h now s in
     r.1 = created s ∧ outcome r.1 r.2 = None ∧
     (∃ pd, (h_requestId h, pd) ∈ pendingPayments r.2 ∧ resolve pd = r.1) ∧
     ∃ tm, tm ∈ timers r.2 ∧ t_requestId tm = h_requestId h ∧ t_resolve tm = r.1) ∧
  (∀ ev k pd, isTokenTransfer ev = true →
     first_match ev (pendingPayments s) = Some (k, pd) →
     let s' := handleIncomingTransfer ev s in
     outcome (resolve pd) s' = Some true ∧
     resolveCalls s' = resolveCalls s ++ [(resolve pd, true)] ∧
     (k ∉ (pendingPayments s').*1)) ∧
  (∀ n tm, timers s !! n = Some tm →
     ∃ s', fireTimer n s = Some s' ∧
       match outcome (t_resolve tm) s with
       | None =>
           outcome (t_resolve tm) s' = Some false ∧
           resolveCalls s' = resolveCalls s ++ [(t_resolve tm, false)] ∧
           pendingPayments s' = map_delete (t_requestId tm) (pendingPayments s)
       | Some _ => s' = set_timers (delete n (timers s)) s
       end) ∧
  (∀ p b later s', outcome p s = Some b → run later s = Some s' →
                   outcome p s' = Some b).
Proof.
  intros Hrun Hnd. destruct (run_inv cfg acts s Hrun Hnd) as [Hinv Hf].
  assert (Hreach : reachable s) by by exists cfg, acts.
  assert (Hfirst : ∀ p, settled s !! p = first_call p (resolveCalls s)).
  { eapply first_call_run; [|exact Hrun]. intros p. unfold new. cbn [settled resolveCalls]. by rewrite lookup_empty. }
  assert (Hstate : ∀ p, (p < created s)%nat →
    (outcome p s = None ∧ resolutions p s = 0%nat ∧
     ∃ tm pd, tm ∈ timers s ∧ t_resolve tm = p ∧
              (t_requestId tm, pd) ∈ pendingPayments s ∧ resolve pd = p) ∨
    (∃ b, outcome p s = Some b ∧
          filter (λ c, c.1 = p) (resolveCalls s) = [(p, b)])).
  { intros p Hp. unfold outcome. destruct (settled s !! p) as [b|] eqn:Hs.
    - right. exists b. split; [done|].
      assert (0 < resolutions p s)%nat.
      { apply resolutions_pos, (inv_calls_settled s Hinv). by eexists. }
      pose proof (resolutions_le_1 p s (finv_calls s Hf)) as Hle.
      specialize (Hfirst p). rewrite Hs in Hfirst. unfold first_call in Hfirst.
      unfold resolutions in *.
      destruct (filter (λ c, c.1 = p) (resolveCalls s)) as [|[q c] [|c' l]] eqn:Hl;
        simpl in *; [lia| |lia].
      assert ((q, c) ∈ filter (λ c, c.1 = p) (resolveCalls s)) as Hin
        by (rewrite Hl; left).
      apply list_elem_of_filter in Hin as [Hq _]. simpl in Hq. congruence.
    - left. split; [done|]. split.
      + destruct (resolutions p s) eqn:Hr; [done|].
        assert (p ∈ (resolveCalls s).*1) as Hin by (apply resolutions_pos; lia).
        apply (inv_calls_settled s Hinv) in Hin as [b Hb]. congruence.
      + destruct (finv_pending_entry s Hf p Hp Hs) as (k & pd & Hin & Hr).
        destruct (inv_entry_timer s Hinv _ _ Hin) as (tm & Htm & <- & Htr).
        exists tm, pd. split; [done|]. split; [congruence | done]. }
  split; [done|]. split.
  { intros p Hp Hnot.
    destruct (Hstate p Hp) as [(_ & _ & tm & pd & Htm & Htr & _)|(b & Hb & _)];
      [|by eexists].
    destruct Hnot. rewrite <- Htr. by apply list_elem_of_fmap_2. }
  split.
  { intros h now Hh r. subst r. unfold waitForPayment, outcome. cbn [fst snd settled
      pendingPayments timers].
    split; [done|]. split.
    { destruct (settled s !! created s) eqn:Hs; [|done].
      assert (created s < created s)%nat; [|lia].
      apply (inv_settled_created s Hinv). by eexists. }
    split.
    - eexists. split; [apply elem_of_map_set_new | done].
    - eexists. split; [apply elem_of_app; right; left | done]. }
  split.
  { intros ev k pd Hev Hfm s'.
    apply first_match_Some in Hfm as (m1 & m2 & Hm & Hm1 & Hsat).
    destruct (first_match_resolved s ev m1 m2 k pd) as (Hp & Ho & Hc & _); [done..|].
    split; [done|]. split; [done|].
    fold s' in Hp. rewrite Hp. pose proof (inv_keys s Hinv) as Hk. rewrite Hm in Hk.
    rewrite fmap_app, fmap_cons in Hk. simpl in Hk.
    apply NoDup_app in Hk as (_ & Hdisj & [Hk2 _]%NoDup_cons).
    rewrite fmap_app. intros [Hk|Hk]%elem_of_app; [|done].
    apply (Hdisj k Hk). left. }
  split; [|intros p b later s' Hp Hlater; by eapply outcome_run_stable].
  intros n tm Htm.
  assert (Htm_in : tm ∈ timers s) by by eapply list_elem_of_lookup_2.
  unfold fireTimer. rewrite Htm. cbn [mbind option_bind].
  eexists. split; [done|].
  destruct (outcome (t_resolve tm) s) as [b|] eqn:Hout.
  - apply onTimeout_absent. cbn [set_timers pendingPayments].
    destruct (map_has _ _) eqn:Hhas; [|done].
    apply map_has_spec, list_elem_of_fmap in Hhas as ([k pd] & Hk & Hin).
    simpl in Hk. subst k.
    destruct (inv_entry_timer s Hinv _ _ Hin) as (tm' & Htm' & Hk & Hr).
    assert (tm' = tm) as ->.
    { pose proof (finv_ids s Hf) as Hids.
      apply NoDup_app in Hids as (_ & _ & Hids).
      by eapply NoDup_fmap_agree. }
    pose proof (inv_entry_pending s Hinv _ _ Hin) as Hpend.
    unfold outcome in Hout. congruence.
  - pose proof (inv_timer_created s Hinv tm Htm_in) as Hcr.
    destruct (finv_pending_entry s Hf _ Hcr Hout) as (k & pd & Hin & Hr).
    destruct (inv_entry_timer s Hinv _ _ Hin) as (tm' & Htm' & Hk & Hr').
    assert (tm' = tm) as ->.
    { eapply NoDup_fmap_agree; [apply (inv_timer_promises s Hinv)|done..|congruence]. }
    subst k.
    assert (Hhas : map_has (t_requestId tm) (pendingPayments s) = true).
    { apply map_has_spec. by apply (list_elem_of_fmap_2 fst) in Hin. }
    unfold onTimeout. cbn [set_timers pendingPayments]. rewrite Hhas.
    unfold outcome in *. cbn [call_resolve set_pendingPayments set_timers settled
                             resolveCalls pendingPayments].
    rewrite Hout. split; [by rewrite lookup_insert_eq | done].
Qed.

Lemma promise_resolved_once_witness :
  let s := Samples.matched in
  (∀ p, (p < created s)%nat →
     (outcome p s = None ∧ resolutions p s = 0%nat ∧
      ∃ tm pd, tm ∈ timers s ∧ t_resolve tm = p ∧
               (t_requestId tm, pd) ∈ pendingPayments s ∧ resolve pd = p) ∨
     (∃ b, outcome p s = Some b ∧
           filter (λ c, c.1 = p) (resolveCalls s) = [(p, b)])) ∧
  (∀ p, (p < created s)%nat → p ∉ t_resolve <$> timers s → is_Some (outcome p s)) ∧
  (∀ h now, h ∈ handles s →
     let r := waitForPayment h now s in
     r.1 = created s ∧ outcome r.1 r.2 = None ∧
     (∃ pd, (h_requestId h, pd) ∈ pendingPayments r.2 ∧ resolve pd = r.1) ∧
     ∃ tm, tm ∈ timers r.2 ∧ t_requestId tm = h_requestId h ∧ t_resolve tm = r.1) ∧
  (∀ ev k pd, isTokenTransfer ev = true →
     first_match ev (pendingPayments s) = Some (k, pd) →
     let s' := handleIncomingTransfer ev s in
     outcome (resolve pd) s' = Some true ∧
     resolveCalls s' = resolveCalls s ++ [(resolve pd, true)] ∧
     (k ∉ (pendingPayments s').*1)) ∧
  (∀ n tm, timers s !! n = Some tm →
     ∃ s', fireTimer n s = Some s' ∧
       match outcome (t_resolve tm) s with
       | None =>
           outcome (t_resolve tm) s' = Some false ∧
           resolveCalls s' = resolveCalls s ++ [(t_resolve tm, false)] ∧
           pendingPayments s' = map_delete (t_requestId tm) (pendingPayments s)
       | Some _ => s' = set_timers (delete n (timers s)) s
       end) ∧
  (∀ p b later s', outcome p s = Some b → run later s = Some s' →
                   outcome p s' = Some b).
Proof.
  cbv zeta.
  apply (promise_resolved_once Samples.cfg0 Samples.matched_acts Samples.matched).
  - vm_compute. reflexivity.
  - apply (bool_decide_unpack _). vm_compute. exact I.
Defined.

(** With equal request ids the claim fails: the timeout of a request that
    was matched finds the entry of the later request under its id, removes
    it and calls the [resolve] function of the settled promise once more;
    the promise of the later request has neither entry nor timeout left and
    stays pending whatever happens afterwards. *)
Lemma equal_ids_lose_a_promise :
  run Samples.reused_acts (new Samples.cfg0) = Some Samples.reused ∧
  requestIds Samples.reused = ["k3x9q2ab"; "k3x9q2ab"] ∧
  created Samples.reused = 2%nat ∧
  resolveCalls Samples.reused = [(0%nat, true); (0%nat, false)] ∧
  outcome 0 Samples.reused = Some true ∧
  timers Samples.reused = [] ∧
  pendingPayments Samples.reused = [] ∧
  ∀ later s', run later Samples.reused = Some s' → outcome 1 s' = None.
Proof.
  split; [vm_compute; reflexivity|]. split; [vm_compute; reflexivity|].
  split; [vm_compute; reflexivity|]. split; [vm_compute; reflexivity|].
  split; [vm_compute; reflexivity|]. split; [vm_compute; reflexivity|].
  split; [vm_compute; reflexivity|].
  intros later s' Hlater.
  assert (Ho : orphaned 1 Samples.reused).
  { split; [vm_compute; lia|]. split; [vm_compute; reflexivity|]. split.
    - intros k pd Hin. vm_compute in Hin. by apply elem_of_nil in Hin.
    - intros tm Hin. vm_compute in Hin. by apply elem_of_nil in Hin. }
  by destruct (orphaned_run 1 later Samples.reused s' Ho Hlater) as (_ & Hs & _).
Qed.

Example matched_then_timeout :
  outcome 0 Samples.matched = Some true ∧
  fireTimer 0 Samples.matched
  = Some (set_timers (delete 0%nat (timers Samples.matched)) Samples.matched) ∧
  outcome 0 Samples.all_settled = Some true ∧
  outcome 1 Samples.all_settled = Some false ∧
  resolveCalls Samples.all_settled = [(0%nat, true); (1%nat, false)] ∧
  pendingPayments Samples.all_settled = [] ∧
  timers Samples.all_settled = [].
Proof. repeat split; reflexivity. Qed.

(** Without distinct ids the second of two requests with one id loses its
    entry to the timeout of the first, and its promise is never settled. *)
Example request_id_collision :
  requestIds Samples.collided = ["k3x9q2ab"; "k3x9q2ab"] ∧
  created Samples.collided = 2%nat ∧
  timers Samples.collided = [] ∧
  pendingPayments Samples.collided = [] ∧
  outcome 0 Samples.collided = Some false ∧
  outcome 1 Samples.collided = None.
Proof. repeat split; reflexivity. Qed.

(** ** One request per account *)

(** C2 on the code: after two requests to the account [alice], each sent
    and waited for as [confirm_payment] does, the map holds two pending
    payments of that account. *)
Theorem two_pending_payments_one_account :
  reachable Samples.doubled ∧
  pending_accounts Samples.doubled = ["alice"; "alice"] ∧
  (pendingPayments Samples.doubled).*1 = ["k3x9q2ab"; "z81mfp0c"] ∧
  ¬ NoDup (pending_accounts Samples.doubled).
Proof.
  split; [exists Samples.cfg0, Samples.doubled_acts; reflexivity|].
  split; [reflexivity|]. split; [reflexivity|].
  intros Hnd. apply (bool_decide_pack _) in Hnd. vm_compute in Hnd. exact Hnd.
Qed.

Section ConfirmPayment.

Import Index.

Lemma run_app acts1 acts2 s :
  run (acts1 ++ acts2) s = run acts1 s ≫= run acts2.
Proof.
  revert s. induction acts1 as [|a acts1 IH]; intros s; simpl; [done|].
  destruct (step a s) as [s1|]; simpl; [apply IH | done].
Qed.

(** What the tool does to the service is a run of the service. *)
Lemma resolvePubkey_service directory id now1 now2 srv :
  ∃ acts, run acts (nostrService srv)
          = Some (nostrService (resolvePubkey directory id now1 now2 srv).2) ∧
          paymentTracker (resolvePubkey directory id now1 now2 srv).2
          = paymentTracker srv.
Proof.
  unfold resolvePubkey.
  destruct (resolvePubkey_check id now1 (pubkeyCache srv)) as [pk|cleanId].
  - by exists [].
  - exists [ResolvePubkey directory cleanId]. simpl.
    by destruct (NostrService.resolvePubkey directory cleanId (nostrService srv))
      as [[answer|e] ns].
Qed.

Lemma confirm_payment_service directory unicity_id clk rid ok srv :
  ∃ acts, run acts (nostrService srv)
          = Some (nostrService (confirm_payment directory unicity_id clk rid ok srv).2).
Proof.
  unfold confirm_payment.
  destruct (resolvePubkey_service directory (cleanUnicityId unicity_id)
              (at_check clk) (at_store clk) srv) as (acts & Hrun & Htr).
  destruct (resolvePubkey directory (cleanUnicityId unicity_id) (at_check clk)
              (at_store clk) srv) as [[[[|c pk]|]|e] srv1]; simpl in *;
    try by exists acts.
  destruct (PaymentTracker.hasValidPass _ _ _).
  - destruct (PaymentTracker.getRemainingTime _ _ _ _) as [ms tr]. by exists acts.
  - exists (acts ++ [SendPaymentRequest (cleanUnicityId unicity_id) (String c pk) rid ok]).
    rewrite run_app, Hrun. simpl.
    by destruct (sendPaymentRequest _ _ _ _ _) as [[h|e] ns].
Qed.

Lemma confirm_payment_handle directory unicity_id clk rid ok srv h :
  (confirm_payment directory unicity_id clk rid ok srv).1 = AwaitingSend h →
  h ∈ handles (nostrService (confirm_payment directory unicity_id clk rid ok srv).2).
Proof.
  unfold confirm_payment.
  destruct (resolvePubkey directory (cleanUnicityId unicity_id) (at_check clk)
              (at_store clk) srv) as [[[[|c pk]|]|e] srv1]; simpl; try done.
  destruct (PaymentTracker.hasValidPass _ _ _).
  - by destruct (PaymentTracker.getRemainingTime _ _ _ _) as [ms tr].
  - unfold sendPaymentRequest. destruct (client (nostrService srv1)); simpl; [|done].
    destruct ok; simpl; [|done]. intros [= <-].
    apply elem_of_app. right. left.
Qed.

Lemma confirm_payment_sent_service h now srv :
  h ∈ handles (nostrService srv) →
  run [WaitForPayment h now] (nostrService srv)
  = Some (nostrService (confirm_payment_sent h now srv).2).
Proof. intros Hh. simpl. by rewrite decide_True. Qed.

(** C1 on the code: two calls of [confirm_payment] for [alice] that both
    find no valid pass each send a payment request, whether the second
    starts before or after the first has stored its pending payment; with
    one payment arriving, the first caller is answered [payment_confirmed]
    and the second [payment_timeout]. *)
Theorem confirm_payment_twice_sends_twice :
  Samples.first_call.1 = AwaitingSend Samples.hA ∧
  Samples.second_call.1 = AwaitingSend Samples.hA' ∧
  Samples.second_call_later.1 = AwaitingSend Samples.hA' ∧
  length (outbox (nostrService Samples.second_call.2)) = 2%nat ∧
  target <$> outbox (nostrService Samples.second_call.2) = ["pkA"; "pkA"] ∧
  length (outbox (nostrService Samples.second_call_later.2)) = 2%nat ∧
  Samples.first_waiting.1 = AwaitingPayment "alice" 0 ∧
  Samples.second_waiting.1 = AwaitingPayment "alice" 1 ∧
  pending_accounts (nostrService Samples.second_waiting.2) = ["alice"; "alice"] ∧
  fst <$> confirm_payment_settled "alice" 0 (Samples.clock_at 130000) Samples.after_timeout
  = Some (PaymentConfirmed
            {| PaymentTracker.unicityId := "alice";
               PaymentTracker.grantedAt := 130000;
               PaymentTracker.expiresAt := 86530000 |} 86400000) ∧
  fst <$> confirm_payment_settled "alice" 1 (Samples.clock_at 130000) Samples.after_timeout
  = Some PaymentTimeout.
Proof. repeat split; reflexivity. Qed.

End ConfirmPayment.

End ServiceInvariants.

(** * Further properties of the code *)

(** ** The tracker of day passes *)

Section Tracker.

Import Binary64 PaymentTracker64 TrackerInv.

Lemma getRemainingTime_tracker64 id now1 now2 tr :
  (getRemainingTime id now1 now2 tr).2 = (getPass id now1 tr).2.
Proof. unfold getRemainingTime. by destruct (getPass id now1 tr) as [[pass|] tr']. Qed.

Lemma getPass_passes64 id now tr :
  durationMs (getPass id now tr).2 = durationMs tr ∧
  ∀ k pass, dayPasses (getPass id now tr).2 !! k = Some pass →
            dayPasses tr !! k = Some pass.
Proof.
  unfold getPass. destruct (dayPasses tr !! _) as [pass|]; [|done].
  destruct (ge _ _); [|done]. split; [done|].
  intros k p. cbn [snd dayPasses]. by intros [_ ?]%lookup_delete_Some.
Qed.

Lemma wf_getPass64 id now tr :
  wf tr → wf (getPass id now tr).2 ∧ durationMs (getPass id now tr).2 = durationMs tr.
Proof.
  intros Hwf. destruct (getPass_passes64 id now tr) as [Hd Hp]. split; [|done].
  intros k pass Hl%Hp. rewrite Hd. by apply Hwf.
Qed.

Lemma wf_after64 c tr :
  wf tr → wf (after c tr) ∧ durationMs (after c tr) = durationMs tr.
Proof.
  intros Hwf. destruct c as [id now|id now|id now|id now1 now2|id now1 now2|now];
    cbn [after].
  - split; [|done]. unfold grantDayPass. cbn [snd]. intros k pass.
    cbn [dayPasses durationMs].
    destruct (decide (k = JsString.toLowerCase id)) as [->|Hne].
    + rewrite lookup_insert_eq. intros [= <-]. cbn. eauto.
    + rewrite lookup_insert_ne by done. apply Hwf.
  - done.
  - by apply wf_getPass64.
  - rewrite getRemainingTime_tracker64. by apply wf_getPass64.
  - rewrite getRemainingTime_tracker64. by apply wf_getPass64.
  - split; [|done]. intros k pass. unfold cleanup. cbn [dayPasses durationMs].
    intros [Hl _]%map_lookup_filter_Some. by apply Hwf.
Qed.

(** Whatever calls are made on a tracker, the duration stays the binary64
    product the constructor computed, and every stored pass sits under the
    lower-cased spelling of the id it was granted to and expires at the
    binary64 sum of the time it was granted at and that duration; when the
    hours in milliseconds are an integer below [2^53] in absolute value,
    the duration is that integer, and so is the distance from the grant to
    the expiry of a pass whenever their sum is below [2^53] too. *)
Theorem tracker_keeps_windows (durationHours : number) (calls : list call) :
  let tr := after_all calls (new durationHours) in
  durationMs tr = mul (mul (mul durationHours (Int 60)) (Int 60)) (Int 1000) ∧
  (∀ k pass, dayPasses tr !! k = Some pass →
     k = JsString.toLowerCase (unicityId pass) ∧
     (∃ now, grantedAt pass = Int now) ∧
     expiresAt pass = add (grantedAt pass) (durationMs tr)) ∧
  (∀ h, durationHours = Int h → Z.abs (h * 3600000) < 2 ^ 53 →
     durationMs tr = Int (h * 3600000) ∧
     ∀ k pass now, dayPasses tr !! k = Some pass → grantedAt pass = Int now →
       Z.abs (now + h * 3600000) < 2 ^ 53 →
       expiresAt pass = Int (now + h * 3600000)).
Proof.
  intros tr.
  assert (H : wf tr ∧ durationMs tr = durationMs (new durationHours)).
  { subst tr. unfold after_all.
    induction calls as [|c calls IH] using rev_ind.
    - split; [|done]. intros k pass. simpl. by rewrite lookup_empty.
    - rewrite foldl_app. simpl. destruct IH as [Hwf Hd].
      destruct (wf_after64 c _ Hwf) as [Hwf' Hd']. split; [done|].
      by rewrite Hd'. }
  destruct H as [Hwf Hd]. split; [done|]. split; [done|].
  intros h -> Hh. rewrite Hd. unfold new. cbn [durationMs].
  rewrite hours_exact by done. split; [done|].
  intros k pass now Hl Hg Hsum.
  destruct (Hwf k pass Hl) as (_ & _ & ->).
  rewrite Hg, Hd. unfold new. cbn [durationMs]. rewrite hours_exact by done.
  by apply add_exact.
Qed.

Lemma hasValidPass_spec64 id now tr :
  hasValidPass id now tr = true ↔
  ∃ pass, dayPasses tr !! JsString.toLowerCase id = Some pass ∧
          lt (Int now) (expiresAt pass) = true.
Proof.
  unfold hasValidPass. destruct (dayPasses tr !! _) as [pass|].
  - split; [eauto | by intros (p & [= <-] & ?)].
  - split; [done | by intros (p & ? & _)].
Qed.

(** [getPass] returns a stored pass unless [now >= expiresAt]; then it
    deletes it and touches no other entry.  For a pass whose expiry is a
    number this is the answer [hasValidPass] gives at the same time; a
    pass whose expiry is NaN is returned at every time although it is never
    valid.  The clock not running backwards, a deletion changes no later
    answer of [hasValidPass]. *)
Theorem getPass_reclaims_expired (id : string) (now : Z) (tr : t) :
  let r := getPass id now tr in
  (dayPasses tr !! JsString.toLowerCase id = None → r = (None, tr)) ∧
  (∀ pass, dayPasses tr !! JsString.toLowerCase id = Some pass →
     (expiresAt pass ≠ NaN → (is_Some r.1 ↔ hasValidPass id now tr = true)) ∧
     (expiresAt pass = NaN → r = (Some pass, tr) ∧ hasValidPass id now tr = false) ∧
     (ge (Int now) (expiresAt pass) = false → r = (Some pass, tr)) ∧
     (ge (Int now) (expiresAt pass) = true →
      r.1 = None ∧
      dayPasses r.2 = delete (JsString.toLowerCase id) (dayPasses tr))) ∧
  (∀ id' later, now ≤ later →
     hasValidPass id' later r.2 = hasValidPass id' later tr).
Proof.
  intros r. subst r. unfold getPass, hasValidPass.
  destruct (dayPasses tr !! JsString.toLowerCase id) as [pass|] eqn:Hl.
  2: { split; [done|]. split; [done|]. done. }
  split; [done|]. split.
  - intros pass' [= <-]. split; [|split; [|split]].
    + intros Hn. rewrite ge_negb_lt by done.
      destruct (lt (Int now) (expiresAt pass)); simpl; [|split; [by intros [? ?]|done]].
      split; [done | by eexists].
    + intros ->. by rewrite ge_NaN, lt_NaN.
    + by intros ->.
    + by intros ->.
  - intros id' later Hle.
    destruct (ge (Int now) (expiresAt pass)) eqn:Hge; [|done]. cbn [snd dayPasses].
    destruct (decide (JsString.toLowerCase id' = JsString.toLowerCase id)) as [->|Hne].
    + rewrite lookup_delete_eq, Hl. symmetry. by eapply ge_lt_false.
    + by rewrite lookup_delete_ne.
Qed.

Lemma getPass_reclaims_expired_witness :
  let tr := (grantDayPass "Alice" 1000 (new (Int 24))).2 in
  (getPass "alice" 86401000 tr).1 = None ∧
  dayPasses (getPass "alice" 86401000 tr).2 = delete "alice" (dayPasses tr).
Proof.
  intros tr.
  apply (proj2 (proj2 (proj2
           (proj1 (proj2 (getPass_reclaims_expired "alice" 86401000 tr))
              {| unicityId := "Alice"; grantedAt := Int 1000;
                 expiresAt := Int 86401000 |} eq_refl)))).
  reflexivity.
Defined.

(** Ids are compared without regard to case: after a grant, every spelling
    with the same lower-cased form has a valid pass exactly while the time
    is below the binary64 sum the grant stored, the pass read back keeps
    the spelling it was granted to, and the answer for every other account
    is what it was. *)
Theorem grantDayPass_ignores_case (id id' : string) (now later : Z) (tr : t) :
  let tr1 := (grantDayPass id now tr).2 in
  let expiry := add (Int now) (durationMs tr) in
  (JsString.toLowerCase id' = JsString.toLowerCase id →
   hasValidPass id' later tr1 = lt (Int later) expiry ∧
   (ge (Int later) expiry = false →
    (getPass id' later tr1).1
    = Some {| unicityId := id; grantedAt := Int now; expiresAt := expiry |})) ∧
  (JsString.toLowerCase id' ≠ JsString.toLowerCase id →
   hasValidPass id' later tr1 = hasValidPass id' later tr ∧
   (getPass id' later tr1).1 = (getPass id' later tr).1).
Proof.
  intros tr1 expiry. subst tr1 expiry. unfold hasValidPass, getPass, grantDayPass.
  cbn [snd dayPasses durationMs]. split.
  - intros ->. rewrite lookup_insert_eq. cbn [expiresAt]. split; [done|].
    by intros ->.
  - intros Hne. rewrite lookup_insert_ne by done. split; [done|].
    destruct (dayPasses tr !! _) as [pass|]; [|done].
    by destruct (ge _ _).
Qed.

Lemma grantDayPass_ignores_case_witness :
  let tr1 := (grantDayPass "Alice" 1000 (new (Int 24))).2 in
  hasValidPass "ALICE" 2000 tr1 = lt (Int 2000) (add (Int 1000) (durationMs (new (Int 24)))) ∧
  (ge (Int 2000) (add (Int 1000) (durationMs (new (Int 24)))) = false →
   (getPass "ALICE" 2000 tr1).1
   = Some {| unicityId := "Alice"; grantedAt := Int 1000;
             expiresAt := add (Int 1000) (durationMs (new (Int 24))) |}).
Proof.
  intros tr1.
  apply (proj1 (grantDayPass_ignores_case "Alice" "ALICE" 1000 2000 (new (Int 24)))).
  reflexivity.
Defined.

(** A second grant to the same account replaces the first: the tracker is
    the one the second grant alone would have produced, so the windows do
    not add up. *)
Theorem grantDayPass_replaces (id id' : string) (now1 now2 : Z) (tr : t) :
  JsString.toLowerCase id' = JsString.toLowerCase id →
  (grantDayPass id' now2 (grantDayPass id now1 tr).2).2 = (grantDayPass id' now2 tr).2 ∧
  expiresAt (grantDayPass id' now2 (grantDayPass id now1 tr).2).1
  = add (Int now2) (durationMs tr).
Proof.
  intros Heq. unfold grantDayPass. cbn [fst snd dayPasses durationMs expiresAt].
  split; [|done]. f_equal. rewrite Heq. apply insert_insert_eq.
Qed.

Lemma grantDayPass_replaces_witness :
  let tr := new (Int 24) in
  (grantDayPass "ALICE" 5000 (grantDayPass "alice" 1000 tr).2).2
  = (grantDayPass "ALICE" 5000 tr).2 ∧
  expiresAt (grantDayPass "ALICE" 5000 (grantDayPass "alice" 1000 tr).2).1
  = add (Int 5000) (durationMs tr).
Proof.
  intros tr. apply (grantDayPass_replaces "alice" "ALICE" 1000 5000 tr). reflexivity.
Defined.

(** The remaining time is never below 0.  It is 0 when there is no pass
    and when [now >= expiresAt] holds at the first reading of the clock;
    otherwise it is [Math.max(0, expiresAt - now)] at the second reading:
    NaN for a pass whose expiry is NaN, although that pass is never valid,
    infinite for an infinite expiry, and for an expiry that is an integer
    whose distance to the second reading is below [2^53] the distance
    itself, or 0 when the expiry has passed by then. *)
Theorem getRemainingTime_bounds (id : string) (now1 now2 : Z) (tr : t) :
  let ms := (getRemainingTime id now1 now2 tr).1 in
  lt ms (Int 0) = false ∧
  (dayPasses tr !! JsString.toLowerCase id = None → ms = Int 0) ∧
  (∀ pass, dayPasses tr !! JsString.toLowerCase id = Some pass →
     (ge (Int now1) (expiresAt pass) = true → ms = Int 0) ∧
     (ge (Int now1) (expiresAt pass) = false →
      ms = max (Int 0) (sub (expiresAt pass) (Int now2))) ∧
     (expiresAt pass = NaN → ms = NaN ∧ hasValidPass id now1 tr = false) ∧
     (expiresAt pass = Infinity false → ms = Infinity false) ∧
     (∀ e, expiresAt pass = Int e → now1 < e → Z.abs (e - now2) < 2 ^ 53 →
           ms = Int (Z.max 0 (e - now2)))).
Proof.
  intros ms. subst ms. unfold getRemainingTime, getPass, hasValidPass.
  destruct (dayPasses tr !! JsString.toLowerCase id) as [pass|] eqn:Hl.
  2: { split; [done|]. split; [done|]. done. }
  split.
  { destruct (ge _ _); [done|]. apply max_0_not_negative. }
  split; [done|]. intros pass' [= <-].
  split; [by intros ->|]. split; [by intros ->|]. split; [|split].
  - intros Hn. rewrite Hn, ge_NaN, lt_NaN. cbn. by rewrite Hn.
  - intros Hn. rewrite Hn. cbn. by rewrite Hn.
  - intros e He Hlt Hd. rewrite He. cbn [ge lt].
    destruct (Z.ltb_spec now1 e); [|lia]. cbn. rewrite He.
    rewrite sub_exact by done. cbn.
    destruct (Z.ltb_spec 0 (e - now2)); f_equal; lia.
Qed.

Lemma getRemainingTime_bounds_witness :
  let tr := (grantDayPass "alice" 1000 (new (Int 24))).2 in
  (getRemainingTime "alice" 2000 3000 tr).1 = Int (Z.max 0 (86401000 - 3000)).
Proof.
  intros tr.
  apply (proj2 (proj2 (proj2 (proj2
           (proj2 (proj2 (getRemainingTime_bounds "alice" 2000 3000 tr))
              {| unicityId := "alice"; grantedAt := Int 1000;
                 expiresAt := Int 86401000 |} eq_refl)))) 86401000); reflexivity.
Defined.

Lemma cleanup_lookup64 now tr k pass :
  dayPasses (cleanup now tr) !! k = Some pass ↔
  dayPasses tr !! k = Some pass ∧ ge (Int now) (expiresAt pass) = false.
Proof. unfold cleanup. cbn [dayPasses]. by rewrite map_lookup_filter_Some. Qed.

(** [cleanup] removes exactly the passes with [now >= expiresAt]; a pass
    whose expiry is NaN is never removed.  The clock not running backwards,
    no later answer of [hasValidPass] or [getPass] depends on whether it
    was run; and running it twice is running it once. *)
Theorem cleanup_removes_expired (now : Z) (tr : t) :
  (∀ k pass, dayPasses (cleanup now tr) !! k = Some pass ↔
             dayPasses tr !! k = Some pass ∧ ge (Int now) (expiresAt pass) = false) ∧
  (∀ k pass, dayPasses tr !! k = Some pass → expiresAt pass = NaN →
             dayPasses (cleanup now tr) !! k = Some pass) ∧
  (∀ id later, now ≤ later →
     hasValidPass id later (cleanup now tr) = hasValidPass id later tr ∧
     (getPass id later (cleanup now tr)).1 = (getPass id later tr).1) ∧
  cleanup now (cleanup now tr) = cleanup now tr.
Proof.
  split; [intros k pass; apply cleanup_lookup64|]. split.
  { intros k pass Hl Hn. apply cleanup_lookup64. split; [done|].
    rewrite Hn. apply ge_NaN. }
  split.
  - intros id later Hle. unfold hasValidPass, getPass.
    destruct (dayPasses tr !! JsString.toLowerCase id) as [pass|] eqn:Hl.
    + destruct (ge (Int now) (expiresAt pass)) eqn:Hge.
      * assert (dayPasses (cleanup now tr) !! JsString.toLowerCase id = None) as ->.
        { destruct (dayPasses (cleanup now tr) !! _) as [p|] eqn:Hc; [|done].
          apply cleanup_lookup64 in Hc as [Hp Hf]. congruence. }
        rewrite (ge_lt_false now later _ Hle Hge), (ge_later now later _ Hle Hge).
        done.
      * assert (dayPasses (cleanup now tr) !! JsString.toLowerCase id = Some pass) as ->
          by by apply cleanup_lookup64.
        split; [done|]. by destruct (ge (Int later) (expiresAt pass)).
    + assert (dayPasses (cleanup now tr) !! JsString.toLowerCase id = None) as ->; [|done].
      destruct (dayPasses (cleanup now tr) !! _) as [p|] eqn:Hc; [|done].
      apply cleanup_lookup64 in Hc as [Hp _]. congruence.
  - unfold cleanup. cbn [dayPasses durationMs]. f_equal.
    apply map_eq. intros k. apply option_eq. intros pass.
    rewrite !map_lookup_filter_Some. tauto.
Qed.

Lemma cleanup_removes_expired_witness :
  let tr := (grantDayPass "bob" 1000 (new NaN)).2 in
  dayPasses (cleanup 86401000 tr) !! "bob"
  = Some {| unicityId := "bob"; grantedAt := Int 1000; expiresAt := NaN |}.
Proof.
  intros tr.
  apply (proj1 (proj2 (cleanup_removes_expired 86401000 tr)) "bob"); reflexivity.
Defined.

End Tracker.

(** ** The tracker on integers and the tracker on binary64 *)

Section Agreement.

Import Binary64.

Lemma of_tracker_lookup tr k :
  PaymentTracker64.dayPasses (PaymentTracker64.of_tracker tr) !! k
  = PaymentTracker64.of_pass <$> PaymentTracker.dayPasses tr !! k.
Proof. unfold PaymentTracker64.of_tracker. cbn. by rewrite lookup_fmap. Qed.

Lemma new_of_tracker h :
  Z.abs (h * 3600000) < 2 ^ 53 →
  PaymentTracker64.new (Int h) = PaymentTracker64.of_tracker (PaymentTracker.new h).
Proof.
  intros Hh. unfold PaymentTracker64.new, PaymentTracker64.of_tracker, PaymentTracker.new.
  cbn [PaymentTracker.dayPasses PaymentTracker.durationMs].
  rewrite hours_exact by done. rewrite fmap_empty. do 2 f_equal. lia.
Qed.

Lemma grantDayPass_of_tracker id now tr :
  Z.abs (now + PaymentTracker.durationMs tr) < 2 ^ 53 →
  PaymentTracker64.grantDayPass id now (PaymentTracker64.of_tracker tr)
  = (PaymentTracker64.of_pass (PaymentTracker.grantDayPass id now tr).1,
     PaymentTracker64.of_tracker (PaymentTracker.grantDayPass id now tr).2).
Proof.
  intros Hsum. unfold PaymentTracker64.grantDayPass, PaymentTracker.grantDayPass,
    PaymentTracker64.of_tracker, PaymentTracker64.of_pass.
  cbn. rewrite round_exact by done. by rewrite fmap_insert.
Qed.

Lemma hasValidPass_of_tracker id now tr :
  PaymentTracker64.hasValidPass id now (PaymentTracker64.of_tracker tr)
  = PaymentTracker.hasValidPass id now tr.
Proof.
  unfold PaymentTracker64.hasValidPass, PaymentTracker.hasValidPass.
  rewrite of_tracker_lookup. by destruct (PaymentTracker.dayPasses tr !! _).
Qed.

Lemma getPass_of_tracker id now tr :
  PaymentTracker64.getPass id now (PaymentTracker64.of_tracker tr)
  = (PaymentTracker64.of_pass <$> (PaymentTracker.getPass id now tr).1,
     PaymentTracker64.of_tracker (PaymentTracker.getPass id now tr).2).
Proof.
  unfold PaymentTracker64.getPass, PaymentTracker.getPass.
  rewrite of_tracker_lookup.
  destruct (PaymentTracker.dayPasses tr !! _) as [pass|]; [|done]. cbn.
  destruct (Z.leb_spec (PaymentTracker.expiresAt pass) now) as [Hle|Hlt].
  - assert ((now <? PaymentTracker.expiresAt pass) = false) as -> by (apply Z.ltb_ge; lia).
    cbn. unfold PaymentTracker64.of_tracker. cbn. by rewrite fmap_delete.
  - assert ((now <? PaymentTracker.expiresAt pass) = true) as -> by (apply Z.ltb_lt; lia).
    done.
Qed.

Lemma getRemainingTime_of_tracker id now1 now2 tr :
  (∀ pass, PaymentTracker.dayPasses tr !! JsString.toLowerCase id = Some pass →
           Z.abs (PaymentTracker.expiresAt pass - now2) < 2 ^ 53) →
  PaymentTracker64.getRemainingTime id now1 now2 (PaymentTracker64.of_tracker tr)
  = (Int (PaymentTracker.getRemainingTime id now1 now2 tr).1,
     PaymentTracker64.of_tracker (PaymentTracker.getRemainingTime id now1 now2 tr).2).
Proof.
  intros Hsafe.
  unfold PaymentTracker64.getRemainingTime, PaymentTracker.getRemainingTime.
  rewrite getPass_of_tracker.
  assert (Hret : ∀ pass, (PaymentTracker.getPass id now1 tr).1 = Some pass →
                         PaymentTracker.dayPasses tr !! JsString.toLowerCase id = Some pass).
  { intros pass. unfold PaymentTracker.getPass.
    destruct (PaymentTracker.dayPasses tr !! _) as [p|]; [|done].
    by destruct (PaymentTracker.expiresAt p <=? now1). }
  destruct (PaymentTracker.getPass id now1 tr) as [[pass|] tr']; [|done].
  cbn. rewrite round_exact by (apply Hsafe, Hret; done). cbn.
  f_equal. destruct (Z.ltb_spec 0 (PaymentTracker.expiresAt pass - now2));
    f_equal; lia.
Qed.

End Agreement.

(** ** The text of the remaining time *)

Section RemainingTimeText.

Import PaymentTracker.

Lemma minutes_text_is_not_no_pass a : a +:+ "m remaining" ≠ "No active pass".
Proof.
  intros H.
  repeat (destruct a as [|? a]; simpl in H; try discriminate H; injection H as _ H).
Qed.

Lemma string_app_assoc (a b c : string) : (a +:+ b) +:+ c = a +:+ b +:+ c.
Proof.
  induction a as [|x a IH]; [done|].
  change (String x ((a +:+ b) +:+ c) = String x (a +:+ b +:+ c)). by rewrite IH.
Qed.

(** The text of the remaining time, for a pass whose expiry is an integer
    less than [2^53] away from the second reading of the clock: then the
    number that is formatted is below [2^53] and is the one the tracker on
    binary64 computes.  The text is "No active pass" exactly when nothing
    remains; with less than a minute left it is "0m remaining", below one
    hour the whole minutes, and from one hour on the whole hours followed
    by the minutes of the started hour, which are below 60. *)
Theorem formatRemainingTime_text (id : string) (now1 now2 : Z) (tr : t) :
  (∀ pass, dayPasses tr !! JsString.toLowerCase id = Some pass →
           Z.abs (expiresAt pass - now2) < 2 ^ 53) →
  let ms := (getRemainingTime id now1 now2 tr).1 in
  let text := (formatRemainingTime id now1 now2 tr).1 in
  (PaymentTracker64.getRemainingTime id now1 now2 (PaymentTracker64.of_tracker tr)).1
  = Binary64.Int ms ∧
  0 ≤ ms < 2 ^ 53 ∧
  (text = "No active pass" ↔ ms = 0) ∧
  (0 < ms < 60000 → text = "0m remaining") ∧
  (0 < ms < 3600000 → text = pretty (ms / 60000) +:+ "m remaining") ∧
  (3600000 ≤ ms →
   ∃ h m, 1 ≤ h ∧ 0 ≤ m < 60 ∧
          h * 3600000 + m * 60000 ≤ ms < h * 3600000 + (m + 1) * 60000 ∧
          text = pretty h +:+ "h " +:+ pretty m +:+ "m remaining").
Proof.
  intros Hsafe ms text. subst ms text.
  split; [by rewrite getRemainingTime_of_tracker|].
  assert (Hrange : 0 ≤ (getRemainingTime id now1 now2 tr).1 < 2 ^ 53).
  { unfold getRemainingTime, getPass.
    destruct (dayPasses tr !! JsString.toLowerCase id) as [pass|] eqn:Hl; [|simpl; lia].
    specialize (Hsafe pass eq_refl).
    destruct (expiresAt pass <=? now1); simpl; lia. }
  split; [done|]. destruct Hrange as [Hnn _].
  unfold formatRemainingTime.
  destruct (getRemainingTime id now1 now2 tr) as [ms tr']. cbn [fst] in *.
  change (60 * 60 * 1000) with 3600000. change (60 * 1000) with 60000.
  rewrite Z.rem_mod_nonneg by lia.
  pose proof (Z.div_mod ms 3600000 ltac:(lia)) as Hdm.
  pose proof (Z.mod_pos_bound ms 3600000 ltac:(lia)) as Hmb.
  pose proof (Z.div_mod (ms mod 3600000) 60000 ltac:(lia)) as Hdm'.
  pose proof (Z.mod_pos_bound (ms mod 3600000) 60000 ltac:(lia)) as Hmb'.
  destruct (Z.eqb_spec ms 0) as [->|Hne]; cbn [fst].
  - split; [done|]. split; [lia|]. split; lia.
  - destruct (Z.ltb_spec 0 (ms / 3600000)) as [Hh|Hh]; cbn [fst].
    + assert (3600000 ≤ ms) by lia.
      split; [|split; [lia|]; split; [lia|]].
      * split; [|done]. rewrite <- !string_app_assoc.
        intros H'. by apply minutes_text_is_not_no_pass in H'.
      * intros _. exists (ms / 3600000), (ms mod 3600000 / 60000).
        split; [lia|]. split; [lia|]. split; [lia | done].
    + assert (ms / 3600000 = 0) as Hz.
      { pose proof (Z.div_pos ms 3600000 ltac:(lia) ltac:(lia)). lia. }
      assert (ms mod 3600000 = ms) as Hm by lia.
      rewrite Hm in *.
      split; [|split; [|split; [done|lia]]].
      * split; [|done]. intros H'. by apply minutes_text_is_not_no_pass in H'.
      * intros [_ Hlt]. assert (ms / 60000 = 0) as -> by lia. reflexivity.
Qed.

Lemma formatRemainingTime_text_witness :
  let tr := (grantDayPass "alice" 1000 (new 24)).2 in
  (PaymentTracker64.getRemainingTime "alice" 2000 2000 (PaymentTracker64.of_tracker tr)).1
  = Binary64.Int 86399000 ∧
  (formatRemainingTime "alice" 2000 2000 tr).1
  = pretty 23 +:+ "h " +:+ pretty 59 +:+ "m remaining".
Proof.
  intros tr.
  assert (Hsafe : ∀ pass, dayPasses tr !! JsString.toLowerCase "alice" = Some pass →
                          Z.abs (expiresAt pass - 2000) < 2 ^ 53).
  { intros pass [= <-]. reflexivity. }
  destruct (formatRemainingTime_text "alice" 2000 2000 tr Hsafe)
    as (H64 & _ & _ & _ & _ & Hlong).
  split; [exact H64|]. reflexivity.
Defined.

Example formatRemainingTime_samples :
  let tr := (grantDayPass "alice" 1000 (new 24)).2 in
  (formatRemainingTime "alice" 2000 2000 tr).1 = "23h 59m remaining" ∧
  (formatRemainingTime "alice" 2000 84000000 tr).1 = "40m remaining" ∧
  (formatRemainingTime "alice" 2000 86401000 tr).1 = "No active pass" ∧
  (formatRemainingTime "bob" 2000 2000 tr).1 = "No active pass".
Proof. repeat split; vm_compute; reflexivity. Qed.

End RemainingTimeText.

(** ** Account handles, in general *)

Section Handles.

Import JsString.

Lemma app_cons c (s t : string) : String c s +:+ t = String c (s +:+ t).
Proof. reflexivity. Qed.

Lemma app_nil (t : string) : EmptyString +:+ t = t.
Proof. reflexivity. Qed.

Lemma trimEnd_cons c s :
  trimEnd (String c s)
  = match trimEnd s with
    | EmptyString => if is_white_space c then EmptyString else String c EmptyString
    | r => String c r
    end.
Proof. reflexivity. Qed.

Lemma trimEnd_idem s : trimEnd (trimEnd s) = trimEnd s.
Proof.
  induction s as [|c s IH]; [done|]. rewrite trimEnd_cons.
  destruct (trimEnd s) as [|d r] eqn:Hr.
  - destruct (is_white_space c) eqn:Hc; [done|].
    rewrite trimEnd_cons. cbn [trimEnd]. by rewrite Hc.
  - rewrite trimEnd_cons, IH. done.
Qed.

Lemma trimStart_fixed s :
  match s with EmptyString => True | String c _ => is_white_space c = false end →
  trimStart s = s.
Proof. destruct s as [|c s]; [done|]. simpl. by intros ->. Qed.

Lemma trimStart_head s :
  match trimStart s with
  | EmptyString => True
  | String c _ => is_white_space c = false
  end.
Proof.
  induction s as [|c s IH]; [done|]. cbn [trimStart].
  by destruct (is_white_space c) eqn:Hc.
Qed.

Lemma trimEnd_head s :
  match s with EmptyString => True | String c _ => is_white_space c = false end →
  match trimEnd s with
  | EmptyString => True
  | String c _ => is_white_space c = false
  end.
Proof.
  destruct s as [|c s]; [done|]. rewrite trimEnd_cons. intros Hc.
  destruct (trimEnd s); [by rewrite Hc | done].
Qed.

Lemma trim_idem s : trim (trim s) = trim s.
Proof.
  unfold trim.
  rewrite (trimStart_fixed (trimEnd (trimStart s))).
  - apply trimEnd_idem.
  - apply trimEnd_head, trimStart_head.
Qed.

Lemma includes_at_cons c s :
  includes "@" (String c s) = false ↔ c ≠ "@"%char ∧ includes "@" s = false.
Proof.
  cbn [includes String.prefix]. destruct (ascii_dec "@" c) as [<-|Hne].
  - split; [by destruct s | by intros [? _]].
  - simpl. split; [intros ?; split; [congruence | done] | by intros [_ ?]].
Qed.

Lemma replace_absent pat rep s :
  String.prefix "@" pat = true → includes "@" s = false → replace pat rep s = s.
Proof.
  destruct pat as [|a pat]; [done|]. cbn [String.prefix].
  destruct (ascii_dec "@" a) as [<-|]; [|done]. intros _.
  induction s as [|c s IH]; [intros _; reflexivity|].
  intros [Hne Hs]%includes_at_cons. cbn [replace String.prefix].
  destruct (ascii_dec "@" c) as [Heq|_]; [congruence|]. by rewrite IH.
Qed.

Lemma replace_suffix_unicity name :
  includes "@" name = false → replace "@unicity" "" (name +:+ "@unicity") = name.
Proof.
  induction name as [|c name IH]; [done|].
  intros [Hne Hs]%includes_at_cons. rewrite app_cons. cbn [replace String.prefix].
  destruct (ascii_dec "@" c) as [Heq|_]; [congruence|]. by rewrite IH.
Qed.

Lemma replace_head_at s : replace "@" "" (String "@" s) = s.
Proof. by destruct s. Qed.

Lemma prefix_app_at p name rest :
  includes "@" p = false → String.prefix p name = false →
  String.prefix p (name +:+ String "@" rest) = false.
Proof.
  revert p. induction name as [|b name IH]; intros [|a p]; try done.
  - intros [Hne _]%includes_at_cons _. rewrite app_nil. cbn [String.prefix].
    destruct (ascii_dec a "@"); [done | done].
  - intros [_ Hp]%includes_at_cons. rewrite app_cons. cbn [String.prefix].
    destruct (ascii_dec a b); [by apply IH | done].
Qed.

Lemma includes_at_trimStart s : includes "@" s = false → includes "@" (trimStart s) = false.
Proof.
  induction s as [|c s IH]; [done|]. intros H. cbn [trimStart].
  destruct (is_white_space c); [|done]. apply IH.
  by apply includes_at_cons in H as [_ ?].
Qed.

Lemma includes_at_trimEnd s : includes "@" s = false → includes "@" (trimEnd s) = false.
Proof.
  induction s as [|c s IH]; [done|]. intros [Hne Hs]%includes_at_cons.
  rewrite trimEnd_cons. specialize (IH Hs). destruct (trimEnd s) as [|d r].
  - destruct (is_white_space c); [done|]. by apply includes_at_cons.
  - by apply includes_at_cons.
Qed.

Lemma includes_at_drop n s : includes "@" s = false → includes "@" (drop n s) = false.
Proof.
  revert s. induction n as [|n IH]; intros [|c s]; try done.
  intros [_ Hs]%includes_at_cons. by apply IH.
Qed.

(** For a name without ["@"] and without white space around it, the
    spellings [name] and [name@unicity] are cleaned to the name, and so are
    [@name] and [@name@unicity] unless the name begins with ["unicity"];
    for such a name [@name] loses those seven characters as well. *)
Theorem cleanUnicityId_spellings (name : string) :
  includes "@" name = false →
  trim name = name →
  cleanUnicityId name = name ∧
  cleanUnicityId (name +:+ "@unicity") = name ∧
  (String.prefix "unicity" name = false →
   cleanUnicityId ("@" +:+ name) = name ∧
   cleanUnicityId ("@" +:+ name +:+ "@unicity") = name) ∧
  (String.prefix "unicity" name = true →
   cleanUnicityId ("@" +:+ name) = trim (drop 7 name)).
Proof.
  intros Hat Htrim. unfold cleanUnicityId.
  split; [|split; [|split]].
  - rewrite (replace_absent "@unicity" "" name) by done.
    by rewrite (replace_absent "@" "" name).
  - rewrite replace_suffix_unicity by done. by rewrite replace_absent.
  - intros Hp. split.
    + change ("@" +:+ name) with (String "@" name).
      assert (replace "@unicity" "" (String "@" name) = String "@" name) as ->.
      { cbn [replace String.prefix]. rewrite Hp.
        destruct (ascii_dec "@" "@"); [|done]. by rewrite replace_absent. }
      by rewrite replace_head_at.
    + change ("@" +:+ name +:+ "@unicity") with (String "@" (name +:+ "@unicity")).
      assert (replace "@unicity" "" (String "@" (name +:+ "@unicity"))
              = String "@" name) as ->.
      { cbn [replace String.prefix].
        destruct (ascii_dec "@" "@"); [|done].
        rewrite (prefix_app_at "unicity" name "unicity") by done.
        by rewrite replace_suffix_unicity. }
      by rewrite replace_head_at.
  - intros Hp. change ("@" +:+ name) with (String "@" name).
    assert (replace "@unicity" "" (String "@" name) = drop 7 name) as ->.
    { cbn [replace String.prefix]. rewrite Hp.
      by destruct (ascii_dec "@" "@"). }
    rewrite replace_absent; [done | done | by apply includes_at_drop].
Qed.

Lemma cleanUnicityId_spellings_witness :
  (cleanUnicityId "mp-9" = "mp-9" ∧
   cleanUnicityId ("mp-9" +:+ "@unicity") = "mp-9" ∧
   (String.prefix "unicity" "mp-9" = false →
    cleanUnicityId ("@" +:+ "mp-9") = "mp-9" ∧
    cleanUnicityId ("@" +:+ "mp-9" +:+ "@unicity") = "mp-9") ∧
   (String.prefix "unicity" "mp-9" = true →
    cleanUnicityId ("@" +:+ "mp-9") = trim (drop 7 "mp-9"))) ∧
  cleanUnicityId ("@" +:+ "unicity-fan") = trim (drop 7 "unicity-fan").
Proof.
  split.
  - apply (cleanUnicityId_spellings "mp-9"); reflexivity.
  - apply (proj2 (proj2 (proj2 (cleanUnicityId_spellings "unicity-fan"
             eq_refl eq_refl)))). reflexivity.
Defined.

Example cleanUnicityId_eats_prefix : cleanUnicityId "@unicity-fan" = "-fan".
Proof. reflexivity. Qed.

(** What [cleanUnicityId] returns has no white space around it; on a
    string without ["@"] it only trims, so there cleaning twice is
    cleaning once. *)
Theorem cleanUnicityId_trimmed (s : string) :
  trim (cleanUnicityId s) = cleanUnicityId s ∧
  (includes "@" s = false →
   cleanUnicityId s = trim s ∧
   cleanUnicityId (cleanUnicityId s) = cleanUnicityId s).
Proof.
  split; [apply trim_idem|]. intros Hat.
  assert (Hc : cleanUnicityId s = trim s).
  { unfold cleanUnicityId. rewrite (replace_absent "@unicity" "" s) by done.
    by rewrite (replace_absent "@" "" s). }
  split; [done|]. rewrite Hc. unfold cleanUnicityId.
  assert (Hat' : includes "@" (trim s) = false).
  { by apply includes_at_trimEnd, includes_at_trimStart. }
  rewrite (replace_absent "@unicity" "" (trim s)) by done.
  rewrite (replace_absent "@" "" (trim s)) by done. apply trim_idem.
Qed.

Lemma cleanUnicityId_trimmed_witness :
  cleanUnicityId "  Alice " = trim "  Alice " ∧
  cleanUnicityId (cleanUnicityId "  Alice ") = cleanUnicityId "  Alice ".
Proof. apply (proj2 (cleanUnicityId_trimmed "  Alice ")). reflexivity. Defined.

End Handles.

(** ** The pubkey cache, continued *)

Section Cache.

Import Index.

Lemma resolvePubkey_check_miss id now (cache : gmap string CacheEntry) :
  (∀ cached, cache !! cleanUnicityId id = Some cached →
             PUBKEY_CACHE_TTL_MS ≤ now - timestamp cached) →
  resolvePubkey_check id now cache = Miss (cleanUnicityId id).
Proof.
  intros H. unfold resolvePubkey_check, fresh.
  destruct (cache !! cleanUnicityId id) as [cached|]; [|done].
  specialize (H cached eq_refl).
  destruct (Z.ltb_spec (now - timestamp cached) PUBKEY_CACHE_TTL_MS); [lia | done].
Qed.

(** A lookup the directory answers with a pubkey stores it under the
    cleaned id with the time of the answer and touches no other entry; for
    the next five minutes calls for that id return the stored pubkey
    without asking the directory, whatever the directory would answer by
    then, and from five minutes on the directory is asked again. *)
Theorem resolvePubkey_caches_found
    (directory directory' : string → option string) (id : string)
    (now1 now2 now3 now4 : Z) (srv : Server) (c : ascii) (pk : string) :
  NostrService.client (nostrService srv) = true →
  (∀ cached, pubkeyCache srv !! cleanUnicityId id = Some cached →
             PUBKEY_CACHE_TTL_MS ≤ now1 - timestamp cached) →
  directory (cleanUnicityId (cleanUnicityId id)) = Some (String c pk) →
  let call := resolvePubkey directory id now1 now2 srv in
  call.1 = NostrService.Ok (Some (String c pk)) ∧
  pubkeyCache call.2 !! cleanUnicityId id
  = Some {| pubkey := String c pk; timestamp := now2 |} ∧
  (∀ k, k ≠ cleanUnicityId id → pubkeyCache call.2 !! k = pubkeyCache srv !! k) ∧
  (now3 - now2 < PUBKEY_CACHE_TTL_MS →
   resolvePubkey directory' id now3 now4 call.2
   = (NostrService.Ok (Some (String c pk)), call.2)) ∧
  (PUBKEY_CACHE_TTL_MS ≤ now3 - now2 →
   (resolvePubkey directory' id now3 now4 call.2).1
   = NostrService.Ok (directory' (cleanUnicityId (cleanUnicityId id))) ∧
   lookups (resolvePubkey directory' id now3 now4 call.2).2
   = lookups call.2 ++ [cleanUnicityId (cleanUnicityId id)]).
Proof.
  intros Hcl Hstale Hdir call. subst call.
  pose proof (resolvePubkey_check_miss id now1 _ Hstale) as Hck.
  destruct (resolvePubkey_miss directory id now1 now2 srv _ Hck Hcl)
    as (_ & Hr & Hq & Hc & Hcl').
  set (srv1 := (resolvePubkey directory id now1 now2 srv).2) in *.
  rewrite Hdir in Hr, Hc. cbn [resolvePubkey_store] in Hc.
  split; [done|]. split; [by rewrite Hc, lookup_insert_eq|].
  split; [intros k Hk; by rewrite Hc, lookup_insert_ne|].
  split.
  - intros Hfresh. unfold resolvePubkey.
    assert (resolvePubkey_check id now3 (pubkeyCache srv1) = Hit (String c pk)) as ->;
      [|done].
    apply resolvePubkey_check_hit. eexists. rewrite Hc, lookup_insert_eq.
    split; [done|]. split; [simpl; lia | done].
  - intros Hold.
    assert (Hck' : resolvePubkey_check id now3 (pubkeyCache srv1)
                   = Miss (cleanUnicityId id)).
    { apply resolvePubkey_check_miss. intros cached.
      rewrite Hc, lookup_insert_eq. intros [= <-]. simpl. lia. }
    destruct (resolvePubkey_miss directory' id now3 now4 srv1 _ Hck' Hcl')
      as (_ & Hr' & Hq' & _ & _).
    done.
Qed.

Lemma resolvePubkey_caches_found_witness :
  let call := resolvePubkey Samples.directory0 "@carol" 10 11 Samples.server0 in
  call.1 = NostrService.Ok (Some "pkC") ∧
  pubkeyCache call.2 !! cleanUnicityId "@carol"
  = Some {| pubkey := "pkC"; timestamp := 11 |} ∧
  (∀ k, k ≠ cleanUnicityId "@carol" →
        pubkeyCache call.2 !! k = pubkeyCache Samples.server0 !! k) ∧
  (300010 - 11 < PUBKEY_CACHE_TTL_MS →
   resolvePubkey (λ _, None) "@carol" 300010 300010 call.2
   = (NostrService.Ok (Some "pkC"), call.2)) ∧
  (PUBKEY_CACHE_TTL_MS ≤ 300010 - 11 →
   (resolvePubkey (λ _, None) "@carol" 300010 300010 call.2).1
   = NostrService.Ok None ∧
   lookups (resolvePubkey (λ _, None) "@carol" 300010 300010 call.2).2
   = lookups call.2 ++ [cleanUnicityId (cleanUnicityId "@carol")]).
Proof.
  apply (resolvePubkey_caches_found Samples.directory0 (λ _, None) "@carol"
           10 11 300010 300010 Samples.server0 "p" "kC").
  - reflexivity.
  - intros cached H. vm_compute in H. discriminate H.
  - reflexivity.
Defined.

End Cache.

(** ** Configuration, continued *)

Section LoadConfig.

Import Config.

(** Which exception [loadConfig] throws: a missing or empty nametag is
    reported first, then a missing or empty coin id, then an amount that
    is not an integer literal; no other setting can make it throw, so two
    environments that agree on these three settings fail alike. *)
Theorem loadConfig_error_order (env env' : gmap string string) (rnd rnd' : entropy) :
  (JsString.truthy (env !! "MCP_NAMETAG") = false →
   loadConfig env rnd
   = Throw (Error "MCP_NAMETAG environment variable is required (e.g., 'gaming-mcp')")) ∧
  (JsString.truthy (env !! "MCP_NAMETAG") = true →
   JsString.truthy (env !! "PAYMENT_COIN_ID") = false →
   loadConfig env rnd
   = Throw (Error "PAYMENT_COIN_ID environment variable is required")) ∧
  (JsString.truthy (env !! "MCP_NAMETAG") = true →
   JsString.truthy (env !! "PAYMENT_COIN_ID") = true →
   JsNumber.BigInt (JsString.or_default (env !! "PAYMENT_AMOUNT") "1000000000") = None →
   loadConfig env rnd
   = Throw (SyntaxError (JsString.or_default (env !! "PAYMENT_AMOUNT") "1000000000"))) ∧
  (env !! "MCP_NAMETAG" = env' !! "MCP_NAMETAG" →
   env !! "PAYMENT_COIN_ID" = env' !! "PAYMENT_COIN_ID" →
   env !! "PAYMENT_AMOUNT" = env' !! "PAYMENT_AMOUNT" →
   ∀ e, loadConfig env rnd = Throw e ↔ loadConfig env' rnd' = Throw e).
Proof.
  assert (Hshape : ∀ (env : gmap string string) rnd,
    loadConfig env rnd
    = if negb (JsString.truthy (env !! "MCP_NAMETAG"))
      then Throw (Error "MCP_NAMETAG environment variable is required (e.g., 'gaming-mcp')")
      else if negb (JsString.truthy (env !! "PAYMENT_COIN_ID"))
      then Throw (Error "PAYMENT_COIN_ID environment variable is required")
      else match JsNumber.BigInt
                   (JsString.or_default (env !! "PAYMENT_AMOUNT") "1000000000") with
           | None => Throw (SyntaxError
                       (JsString.or_default (env !! "PAYMENT_AMOUNT") "1000000000"))
           | Some _ => loadConfig env rnd
           end).
  { intros env0 rnd0. unfold loadConfig.
    destruct (JsString.truthy (env0 !! "MCP_PRIVATE_KEY_HEX")); simpl;
      destruct (JsString.truthy (env0 !! "MCP_NAMETAG")); simpl; try done;
      destruct (JsString.truthy (env0 !! "PAYMENT_COIN_ID")); simpl; try done;
      by destruct (JsNumber.BigInt _). }
  split; [intros H; rewrite Hshape, H; done|].
  split; [intros H1 H2; rewrite Hshape, H1, H2; done|].
  split; [intros H1 H2 H3; rewrite Hshape, H1, H2, H3; done|].
  intros Hn Hc Ha e.
  rewrite (Hshape env rnd), (Hshape env' rnd'), <- Hn, <- Hc, <- Ha.
  destruct (JsString.truthy (env !! "MCP_NAMETAG")) eqn:Htn; simpl; [|done].
  destruct (JsString.truthy (env !! "PAYMENT_COIN_ID")) eqn:Htc; simpl; [|done].
  destruct (JsNumber.BigInt _) eqn:Hb; [|done].
  split; intros Hth.
  - destruct (proj1 (loadConfig_throws_iff env rnd) (ex_intro _ e Hth))
      as [H|[H|H]]; congruence.
  - destruct (proj1 (loadConfig_throws_iff env' rnd') (ex_intro _ e Hth))
      as [H|[H|H]]; rewrite <- ?Hn, <- ?Hc, <- ?Ha in H; congruence.
Qed.

Lemma loadConfig_error_order_witness :
  loadConfig ∅ Samples.entropy0
  = Throw (Error "MCP_NAMETAG environment variable is required (e.g., 'gaming-mcp')") ∧
  loadConfig Samples.env_no_coin Samples.entropy0
  = Throw (Error "PAYMENT_COIN_ID environment variable is required") ∧
  loadConfig Samples.env_bad_amount Samples.entropy0 = Throw (SyntaxError "ten") ∧
  (∀ e, loadConfig Samples.env_bad_amount Samples.entropy0 = Throw e ↔
        loadConfig (<["DAY_PASS_HOURS" := "soon"]> Samples.env_bad_amount)
          Samples.entropy0 = Throw e).
Proof.
  split; [|split; [|split]].
  - apply (proj1 (loadConfig_error_order ∅ ∅ Samples.entropy0 Samples.entropy0)).
    reflexivity.
  - apply (proj1 (proj2 (loadConfig_error_order Samples.env_no_coin ∅
                           Samples.entropy0 Samples.entropy0))); reflexivity.
  - apply (proj1 (proj2 (proj2 (loadConfig_error_order Samples.env_bad_amount ∅
                                  Samples.entropy0 Samples.entropy0)))); reflexivity.
  - apply (proj2 (proj2 (proj2 (loadConfig_error_order Samples.env_bad_amount
             (<["DAY_PASS_HOURS" := "soon"]> Samples.env_bad_amount)
             Samples.entropy0 Samples.entropy0)))); reflexivity.
Defined.

(** The identity of a returned configuration: without a private key in
    the environment both the key and the nonce are generated, and a nonce
    given in the environment is not used; with a private key the key is
    kept, and the nonce is the one of the environment or, when that is
    absent or empty, a generated one. *)
Theorem loadConfig_identity (env : gmap string string) (rnd : entropy) (c : t) :
  loadConfig env rnd = Return c →
  (JsString.truthy (env !! "MCP_PRIVATE_KEY_HEX") = false →
   privateKeyHex c = hex1 rnd ∧
   nonce c = JsString.or_default (Some (hex2 rnd)) (hex3 rnd)) ∧
  (JsString.truthy (env !! "MCP_PRIVATE_KEY_HEX") = true →
   Some (privateKeyHex c) = env !! "MCP_PRIVATE_KEY_HEX" ∧
   nonce c = JsString.or_default (env !! "MCP_NONCE_HEX") (hex3 rnd)).
Proof.
  unfold loadConfig.
  destruct (JsString.truthy (env !! "MCP_NAMETAG")); simpl; [|by destruct (JsString.truthy _)].
  destruct (JsString.truthy (env !! "PAYMENT_COIN_ID")); simpl;
    [|by destruct (JsString.truthy _)].
  destruct (JsNumber.BigInt _); [|by destruct (JsString.truthy _)].
  destruct (env !! "MCP_PRIVATE_KEY_HEX") as [[|k0 k]|] eqn:Hk; simpl.
  - intros [= <-]. simpl. split; [intros _|done]. split; [done|].
    by destruct (hex2 rnd).
  - intros [= <-]. simpl. split; [done|]. intros _. split; [done|].
    by destruct (env !! "MCP_NONCE_HEX") as [[|n0 n]|].
  - intros [= <-]. simpl. split; [intros _|done]. split; [done|].
    by destruct (hex2 rnd).
Qed.

Lemma loadConfig_identity_witness :
  let env := <["MCP_NONCE_HEX" := "77"]> Samples.env_required in
  privateKeyHex Samples.cfg0 = Samples.entropy0.(hex1) ∧
  nonce Samples.cfg0
  = JsString.or_default (Some Samples.entropy0.(hex2)) Samples.entropy0.(hex3).
Proof.
  intros env.
  apply (proj1 (loadConfig_identity env Samples.entropy0 Samples.cfg0 eq_refl)).
  reflexivity.
Defined.

(** The nametag of a returned configuration is the raw setting cleaned as
    [cleanUnicityId] cleans an account handle; the required-setting test
    looks at the raw setting, so a setting that is cleaned to nothing is
    accepted and gives the empty nametag. *)
Theorem loadConfig_nametag (env : gmap string string) (rnd : entropy) :
  (∀ c, loadConfig env rnd = Return c →
        ∃ raw, env !! "MCP_NAMETAG" = Some raw ∧ raw ≠ EmptyString ∧
               nametag c = cleanUnicityId raw) ∧
  (∀ raw, env !! "MCP_NAMETAG" = Some raw → raw ≠ EmptyString →
          cleanUnicityId raw = EmptyString →
          JsString.truthy (env !! "PAYMENT_COIN_ID") = true →
          is_Some (JsNumber.BigInt
                     (JsString.or_default (env !! "PAYMENT_AMOUNT") "1000000000")) →
          ∃ c, loadConfig env rnd = Return c ∧ nametag c = EmptyString).
Proof.
  split.
  - intros c. unfold loadConfig.
    destruct (env !! "MCP_NAMETAG") as [[|r0 r]|] eqn:Hn; simpl;
      try by destruct (JsString.truthy _).
    destruct (JsString.truthy (env !! "PAYMENT_COIN_ID")); simpl;
      [|by destruct (JsString.truthy _)].
    destruct (JsNumber.BigInt _); [|by destruct (JsString.truthy _)].
    destruct (JsString.truthy (env !! "MCP_PRIVATE_KEY_HEX")); simpl;
      intros [= <-]; by eexists.
  - intros raw Hraw Hne Hclean Hcoin [a Ha]. unfold loadConfig.
    rewrite Hraw, Hcoin, Ha.
    destruct raw as [|r0 r]; [done|]. simpl.
    destruct (JsString.truthy (env !! "MCP_PRIVATE_KEY_HEX")); simpl;
      (eexists; split; [reflexivity|]; exact Hclean).
Qed.

Lemma loadConfig_nametag_witness :
  ∃ c, loadConfig (<["MCP_NAMETAG" := "@unicity"]> Samples.env_required)
         Samples.entropy0 = Return c ∧
       nametag c = EmptyString.
Proof.
  apply (proj2 (loadConfig_nametag (<["MCP_NAMETAG" := "@unicity"]> Samples.env_required)
                  Samples.entropy0) "@unicity").
  - reflexivity.
  - discriminate.
  - reflexivity.
  - reflexivity.
  - exists 1000000000. reflexivity.
Defined.

End LoadConfig.

(** ** Runs of the service, continued *)

Section ServiceRuns.

Import NostrService NostrInv.

Lemma sent_inv_new cfg : sent_inv cfg (new cfg).
Proof.
  split; simpl; [done|..].
  - intros msg H. by apply elem_of_nil in H.
  - intros h H. by apply elem_of_nil in H.
  - intros k pd H. by apply elem_of_nil in H.
Qed.

Lemma sent_inv_step cfg a s s' : sent_inv cfg s → step a s = Some s' → sent_inv cfg s'.
Proof.
  intros Hs. destruct a as [how| |dir u|u k rid ok|h now|ev|n]; simpl.
  - intros [= <-]. unfold connect. destruct (connected s); [done|].
    destruct Hs. by destruct how.
  - intros [= <-]. by destruct Hs.
  - intros [= <-]. unfold resolvePubkey. destruct (client s); [|done]. by destruct Hs.
  - intros [= <-]. unfold sendPaymentRequest. destruct (client s); [|done].
    destruct Hs as [Hc Ho Hh He].
    assert (Hmsg : ∀ msg, msg ∈ outbox s ++
        [{| target := k; pr_amount := Config.amount (config s);
            pr_coinId := Config.coinId (config s);
            pr_recipientNametag := Config.nametag (config s);
            pr_message := "Gaming day pass for @" +:+ u;
            pr_requestId := rid |}] →
        ∃ u rid0, msg = request_for cfg u (target msg) rid0).
    { intros msg [Hin | ->%list_elem_of_singleton]%elem_of_app; [by apply Ho|].
      exists u, rid. unfold request_for. by rewrite Hc. }
    destruct ok; split; simpl; try done.
    + intros h [Hin | ->%list_elem_of_singleton]%elem_of_app.
      * apply elem_of_app. left. by apply Hh.
      * apply elem_of_app. right. unfold request_for. rewrite Hc. simpl. left.
    + intros k' pd Hin. destruct (He k' pd Hin) as (? & ? & ? & ?).
      repeat split; try done. apply elem_of_app. by left.
    + intros h Hin. apply elem_of_app. left. by apply Hh.
    + intros k' pd Hin. destruct (He k' pd Hin) as (? & ? & ? & ?).
      repeat split; try done. apply elem_of_app. by left.
  - destruct (decide (h ∈ handles s)) as [Hin|]; [|done]. intros [= <-].
    destruct Hs as [Hc Ho Hh He]. split; simpl; try done.
    + intros h' Hh'%elem_of_take_handle. by apply Hh.
    + intros k' pd [ [= -> ->] | Hkpd ]%elem_of_map_set_inv; [|by apply He].
      simpl. rewrite Hc. repeat split. by apply Hh.
  - intros [= <-]. unfold handleIncomingTransfer.
    destruct (keyManager s); simpl; [|done].
    destruct (isTokenTransfer ev); simpl; [|done].
    destruct (first_match ev (pendingPayments s)) as [[key pending]|]; [|done].
    destruct Hs as [Hc Ho Hh He]. split; simpl; try done.
    intros k pd [_ Hin]%elem_of_map_delete. by apply He.
  - unfold fireTimer. destruct (timers s !! n) as [tm|]; simpl; [|done].
    intros [= <-]. unfold onTimeout. simpl.
    destruct Hs as [Hc Ho Hh He].
    destruct (map_has (t_requestId tm) (pendingPayments s)); split; simpl; try done.
    intros k pd [_ Hin]%elem_of_map_delete. by apply He.
Qed.

Lemma sent_inv_run cfg acts s s' : sent_inv cfg s → run acts s = Some s' → sent_inv cfg s'.
Proof.
  revert s. induction acts as [|a acts IH]; intros s Hs; simpl.
  - by intros [= <-].
  - destruct (step a s) as [s1|] eqn:Hstep; simpl; [|done].
    apply IH. by eapply sent_inv_step.
Qed.

(** In every run the configuration stays the one the service was created
    with, every payment request handed to the client carries its amount,
    coin and nametag, and every pending payment sits under its own request
    id, demands that amount and coin, and was asked for by a request to
    the same pubkey with the same id. *)
Theorem pending_payments_were_requested (cfg : Config.t) (acts : list action) (s : t) :
  run acts (new cfg) = Some s →
  config s = cfg ∧
  (∀ msg, msg ∈ outbox s →
     pr_amount msg = Config.amount cfg ∧ pr_coinId msg = Config.coinId cfg ∧
     pr_recipientNametag msg = Config.nametag cfg) ∧
  (∀ k pd, (k, pd) ∈ pendingPayments s →
     k = requestId pd ∧ amount pd = Config.amount cfg ∧
     coinId pd = Config.coinId cfg ∧
     ∃ msg, msg ∈ outbox s ∧ pr_requestId msg = k ∧
            target msg = userPubkey pd ∧ pr_amount msg = amount pd ∧
            pr_message msg = "Gaming day pass for @" +:+ unicityId pd).
Proof.
  intros Hrun.
  destruct (sent_inv_run cfg acts _ s (sent_inv_new cfg) Hrun) as [Hc Ho Hh He].
  split; [done|]. split.
  - intros msg (u & rid & ->)%Ho. done.
  - intros k pd (Hk & Ha & Hco & Hin)%He. repeat split; try done.
    eexists. split; [exact Hin|]. simpl. by rewrite Ha, Hk.
Qed.

Lemma pending_payments_were_requested_witness :
  let s := Samples.crossed in
  config s = Samples.cfg0 ∧
  (∀ msg, msg ∈ outbox s →
     pr_amount msg = Config.amount Samples.cfg0 ∧
     pr_coinId msg = Config.coinId Samples.cfg0 ∧
     pr_recipientNametag msg = Config.nametag Samples.cfg0) ∧
  (∀ k pd, (k, pd) ∈ pendingPayments s →
     k = requestId pd ∧ amount pd = Config.amount Samples.cfg0 ∧
     coinId pd = Config.coinId Samples.cfg0 ∧
     ∃ msg, msg ∈ outbox s ∧ pr_requestId msg = k ∧
            target msg = userPubkey pd ∧ pr_amount msg = amount pd ∧
            pr_message msg = "Gaming day pass for @" +:+ unicityId pd).
Proof.
  apply (pending_payments_were_requested Samples.cfg0 Samples.crossed_acts Samples.crossed).
  reflexivity.
Defined.

Lemma client_step a s s' : step a s = Some s' → client s = true → client s' = true.
Proof.
  destruct a as [how| |dir u|u k rid ok|h now|ev|n]; simpl.
  - intros [= <-] Hc. unfold connect. destruct (connected s); [done|].
    by destruct how.
  - by intros [= <-].
  - intros [= <-]. unfold resolvePubkey. by destruct (client s).
  - intros [= <-]. unfold sendPaymentRequest. destruct (client s); [|done].
    by destruct ok.
  - destruct (decide (h ∈ handles s)); [|done]. by intros [= <-].
  - intros [= <-]. unfold handleIncomingTransfer.
    destruct (keyManager s); simpl; [|done].
    destruct (isTokenTransfer ev); simpl; [|done].
    by destruct (first_match ev (pendingPayments s)) as [[key pending]|].
  - unfold fireTimer. destruct (timers s !! n) as [tm|]; simpl; [|done].
    intros [= <-]. unfold onTimeout. simpl.
    by destruct (map_has (t_requestId tm) (pendingPayments s)).
Qed.

Lemma client_run acts s s' : run acts s = Some s' → client s = true → client s' = true.
Proof.
  revert s. induction acts as [|a acts IH]; intros s; simpl.
  - by intros [= <-].
  - destruct (step a s) as [s1|] eqn:Hstep; simpl; [|done].
    intros Hrun Hc. eapply IH; [done|]. by eapply client_step.
Qed.

Lemma flags_step a s s' :
  step a s = Some s' →
  (connected s = true → client s = true) →
  (connected s' = true → client s' = true) ∧
  ((∀ how, a = Connect how → makes_client how = false) → client s' = client s) ∧
  (∀ how, a = Connect how → makes_client how = true → client s' = true).
Proof.
  destruct a as [how| |dir u|u k rid ok|h now|ev|n]; simpl.
  - intros [= <-] H. unfold connect.
    destruct (connected s) eqn:Hcon; cbv iota.
    + split; [intros _; apply H; congruence|]. split; [done|].
      intros _ _ _. apply H. congruence.
    + split; [destruct how; simpl; (done || congruence)|]. split.
      * intros Hno. specialize (Hno how eq_refl). by destruct how.
      * intros how' [= <-] Hyes. by destruct how.
  - by intros [= <-] H.
  - intros [= <-] H. unfold resolvePubkey.
    destruct (client s) eqn:Hc; simpl; [done|]. by rewrite Hc.
  - intros [= <-] H. unfold sendPaymentRequest.
    destruct (client s) eqn:Hc; simpl; [|by rewrite Hc]. by destruct ok.
  - destruct (decide (h ∈ handles s)); [|done]. by intros [= <-].
  - intros [= <-] H. unfold handleIncomingTransfer.
    destruct (keyManager s); simpl; [|done].
    destruct (isTokenTransfer ev); simpl; [|done].
    by destruct (first_match ev (pendingPayments s)) as [[key pending]|].
  - unfold fireTimer. destruct (timers s !! n) as [tm|]; simpl; [|done].
    intros [= <-] H. unfold onTimeout. simpl.
    by destruct (map_has (t_requestId tm) (pendingPayments s)).
Qed.

Lemma flags_run acts s s' :
  run acts s = Some s' →
  (connected s = true → client s = true) →
  (connected s' = true → client s' = true) ∧
  ((∀ how, Connect how ∈ acts → makes_client how = false) → client s' = client s) ∧
  ((∃ how, Connect how ∈ acts ∧ makes_client how = true) → client s' = true).
Proof.
  revert s. induction acts as [|a acts IH]; intros s; simpl.
  - intros [= <-] H. split; [done|]. split; [done|].
    intros (how & Hin & _). by apply elem_of_nil in Hin.
  - destruct (step a s) as [s1|] eqn:Hstep; simpl; [|done].
    intros Hrun H. destruct (flags_step a s s1 Hstep H) as (H1 & Hsame & Hmade).
    destruct (IH s1 Hrun H1) as (H' & Hno & Hyes).
    split; [done|]. split.
    + intros Hnone. rewrite Hno.
      * apply Hsame. intros how ->. apply Hnone. left.
      * intros how Hin. apply Hnone. by right.
    + intros (how & [<-|Hin]%elem_of_cons & Hmk).
      * eapply client_run; [exact Hrun|]. by apply (Hmade how).
      * apply Hyes. by exists how.
Qed.

(** In a run of a new service, as long as no call of [connect] got as far
    as making the client (none was made, or each threw before),
    [sendPaymentRequest] and [resolvePubkey] throw "Nostr client not
    connected" and do nothing else.  Once a call of [connect] has made the
    client they never throw that error, whether the relay accepted the
    connection or not and whatever happened since, a [disconnect]
    included: the request is handed to the client. *)
Theorem client_is_never_unset
    (cfg : Config.t) (acts : list action) (s : t)
    (directory : string → option string) (u k rid : string) (ok : bool) :
  run acts (new cfg) = Some s →
  ((∀ how, Connect how ∈ acts → makes_client how = false) →
   sendPaymentRequest u k rid ok s = (Throw "Nostr client not connected", s) ∧
   resolvePubkey directory u s = (Throw "Nostr client not connected", s)) ∧
  ((∃ how, Connect how ∈ acts ∧ makes_client how = true) →
   (sendPaymentRequest u k rid ok s).1 ≠ Throw "Nostr client not connected" ∧
   outbox (sendPaymentRequest u k rid ok s).2
   = outbox s ++ [request_for (config s) u k rid] ∧
   (resolvePubkey directory u s).1 = Ok (directory (cleanUnicityId u))).
Proof.
  intros Hrun.
  destruct (flags_run acts (new cfg) s Hrun) as (_ & Hno & Hyes); [done|].
  split.
  - intros Hnone. specialize (Hno Hnone). simpl in Hno.
    unfold sendPaymentRequest, resolvePubkey. by rewrite Hno.
  - intros Hsome. specialize (Hyes Hsome).
    unfold sendPaymentRequest, resolvePubkey. rewrite Hyes. simpl.
    by destruct ok.
Qed.

Lemma client_is_never_unset_witness :
  let acts := [Connect IdentityThrows; Connect RelayThrows; Disconnect] in
  let s := default (new Samples.cfg0) (run acts (new Samples.cfg0)) in
  (sendPaymentRequest "alice" "pkA" "k3x9q2ab" true s).1
  ≠ Throw "Nostr client not connected" ∧
  outbox (sendPaymentRequest "alice" "pkA" "k3x9q2ab" true s).2
  = outbox s ++ [request_for (config s) "alice" "pkA" "k3x9q2ab"] ∧
  (resolvePubkey Samples.directory0 "alice" s).1
  = Ok (Samples.directory0 (cleanUnicityId "alice")).
Proof.
  intros acts s.
  apply (proj2 (client_is_never_unset Samples.cfg0 acts s Samples.directory0
                  "alice" "pkA" "k3x9q2ab" true eq_refl)).
  exists RelayThrows. split; [|done]. right. left.
Defined.

Example connect_without_identity :
  let s := default (new Samples.cfg0)
             (run [Connect IdentityThrows; Connect ClientThrows] (new Samples.cfg0)) in
  sendPaymentRequest "alice" "pkA" "k3x9q2ab" true s
  = (Throw "Nostr client not connected", s) ∧
  keyManager s = true ∧ client s = false.
Proof. by vm_compute. Qed.

(** In a run with distinct request ids, when the timeout of a promise
    that is still pending runs, the pending payment of that promise is in
    the map under the request id of the timer; the timeout resolves the
    promise with [false] by one call, removes that entry and no other, and
    leaves the promises of the other entries pending. *)
Theorem timeout_resolves_false
    (cfg : Config.t) (acts : list action) (s : t) (n : nat) (tm : Timer) :
  run acts (new cfg) = Some s →
  NoDup (requestIds s) →
  timers s !! n = Some tm →
  outcome (t_resolve tm) s = None →
  ∃ pd s',
    (t_requestId tm, pd) ∈ pendingPayments s ∧ resolve pd = t_resolve tm ∧
    fireTimer n s = Some s' ∧
    outcome (t_resolve tm) s' = Some false ∧
    resolveCalls s' = resolveCalls s ++ [(t_resolve tm, false)] ∧
    pendingPayments s' = map_delete (t_requestId tm) (pendingPayments s) ∧
    (∀ k pd', (k, pd') ∈ pendingPayments s' ↔
              (k, pd') ∈ pendingPayments s ∧ k ≠ t_requestId tm) ∧
    (∀ k pd', (k, pd') ∈ pendingPayments s' → outcome (resolve pd') s' = None).
Proof.
  intros Hrun Hnd Htm Hout.
  destruct (run_inv cfg acts s Hrun Hnd) as [Hinv Hf].
  assert (Htm_in : tm ∈ timers s) by by eapply list_elem_of_lookup_2.
  pose proof (inv_timer_created s Hinv tm Htm_in) as Hcr.
  destruct (finv_pending_entry s Hf _ Hcr Hout) as (k & pd & Hin & Hr).
  destruct (inv_entry_timer s Hinv _ _ Hin) as (tm' & Htm' & Hk & Hr').
  assert (tm' = tm) as ->.
  { eapply NoDup_fmap_agree; [apply (inv_timer_promises s Hinv)|done..|congruence]. }
  subst k.
  assert (Hhas : map_has (t_requestId tm) (pendingPayments s) = true).
  { apply map_has_spec. by apply (list_elem_of_fmap_2 fst) in Hin. }
  exists pd. eexists. split; [done|]. split; [done|].
  split; [unfold fireTimer, onTimeout; rewrite Htm; simpl; rewrite Hhas; done|].
  unfold outcome in *. cbn [call_resolve set_pendingPayments set_timers settled
                           resolveCalls pendingPayments].
  rewrite Hout. split; [by rewrite lookup_insert_eq|]. split; [done|].
  split; [done|]. split.
  - intros k pd'. rewrite elem_of_map_delete. simpl. tauto.
  - intros k pd' [Hne Hin']%elem_of_map_delete. simpl in Hne.
    rewrite lookup_insert_ne; [by apply (inv_entry_pending s Hinv k)|].
    intros Heq. rewrite <- Hr in Heq.
    destruct (inv_entry_promise s _ _ _ _ Hinv Hin Hin' Heq) as [Hk _]. congruence.
Qed.

Lemma timeout_resolves_false_witness :
  ∃ pd s',
    ("k3x9q2ab", pd) ∈ pendingPayments Samples.crossed ∧ resolve pd = 0%nat ∧
    fireTimer 0 Samples.crossed = Some s' ∧
    outcome 0 s' = Some false ∧
    resolveCalls s' = resolveCalls Samples.crossed ++ [(0%nat, false)] ∧
    pendingPayments s' = map_delete "k3x9q2ab" (pendingPayments Samples.crossed) ∧
    (∀ k pd', (k, pd') ∈ pendingPayments s' ↔
              (k, pd') ∈ pendingPayments Samples.crossed ∧ k ≠ "k3x9q2ab") ∧
    (∀ k pd', (k, pd') ∈ pendingPayments s' → outcome (resolve pd') s' = None).
Proof.
  apply (timeout_resolves_false Samples.cfg0 Samples.crossed_acts Samples.crossed 0
           {| t_requestId := "k3x9q2ab"; t_resolve := 0; t_delay := Some 120000 |}).
  - reflexivity.
  - apply (bool_decide_unpack _). vm_compute. exact I.
  - reflexivity.
  - reflexivity.
Defined.

(** [sendPaymentRequest] stores nothing: a transfer from the payer that
    arrives after the request was sent and before [waitForPayment] is
    called finds no pending payment and changes nothing, and the promise
    then made by [waitForPayment] is pending although its entry demands no
    more than that transfer brought. *)
Theorem payment_before_wait_is_lost
    (s : t) (u k rid : string) (now : Z) (ev : Event) (a : Z) :
  reachable s →
  client s = true →
  isTokenTransfer ev = true →
  getSender ev = k →
  getAmount ev = Some a →
  Config.amount (config s) ≤ a →
  first_match ev (pendingPayments s) = None →
  let h := {| h_requestId := rid; h_unicityId := u; h_userPubkey := k |} in
  let s1 := (sendPaymentRequest u k rid true s).2 in
  let s2 := handleIncomingTransfer ev s1 in
  let wait := waitForPayment h now s2 in
  (sendPaymentRequest u k rid true s).1 = Ok h ∧
  pendingPayments s1 = pendingPayments s ∧
  timers s1 = timers s ∧
  s2 = s1 ∧
  outcome wait.1 wait.2 = None ∧
  ∃ pd, (rid, pd) ∈ pendingPayments wait.2 ∧ resolve pd = wait.1 ∧
        satisfies ev pd = true.
Proof.
  intros Hreach Hc Hev Hsender Hamount Hle Hnone h s1 s2 wait.
  pose proof (inv_reachable s Hreach) as Hinv.
  assert (Hs1 : (sendPaymentRequest u k rid true s).1 = Ok h ∧
                pendingPayments s1 = pendingPayments s ∧ timers s1 = timers s ∧
                created s1 = created s ∧ settled s1 = settled s ∧
                config s1 = config s).
  { subst s1. unfold sendPaymentRequest. rewrite Hc. simpl. done. }
  destruct Hs1 as (Hr & Hp & Ht & Hcr & Hst & Hcfg).
  assert (Hs2 : s2 = s1).
  { subst s2. apply handleIncomingTransfer_none. by rewrite Hp. }
  split; [done|]. split; [done|]. split; [done|]. split; [done|].
  subst wait. rewrite Hs2. unfold waitForPayment, outcome. cbn [fst snd settled].
  split.
  - rewrite Hst, Hcr. destruct (settled s !! created s) eqn:Hs; [|done].
    assert (created s < created s)%nat; [|lia].
    apply (inv_settled_created s Hinv). by eexists.
  - eexists. split; [apply elem_of_map_set_new|]. split; [done|].
    apply satisfies_spec. simpl. split; [done|].
    exists a. split; [done|]. by rewrite Hcfg.
Qed.

Lemma payment_before_wait_is_lost_witness :
  let h := {| h_requestId := "k3x9q2ab"; h_unicityId := "alice";
              h_userPubkey := "pkA" |} in
  let s1 := (sendPaymentRequest "alice" "pkA" "k3x9q2ab" true Samples.nostr0).2 in
  let s2 := handleIncomingTransfer Samples.transferA s1 in
  let wait := waitForPayment h 5000 s2 in
  (sendPaymentRequest "alice" "pkA" "k3x9q2ab" true Samples.nostr0).1 = Ok h ∧
  pendingPayments s1 = pendingPayments Samples.nostr0 ∧
  timers s1 = timers Samples.nostr0 ∧
  s2 = s1 ∧
  outcome wait.1 wait.2 = None ∧
  ∃ pd, ("k3x9q2ab", pd) ∈ pendingPayments wait.2 ∧ resolve pd = wait.1 ∧
        satisfies Samples.transferA pd = true.
Proof.
  apply (payment_before_wait_is_lost Samples.nostr0 "alice" "pkA" "k3x9q2ab" 5000
           Samples.transferA 1000000000).
  - exists Samples.cfg0, [Connect Connects]. reflexivity.
  - reflexivity.
  - reflexivity.
  - reflexivity.
  - reflexivity.
  - simpl. lia.
  - reflexivity.
Defined.

End ServiceRuns.

(** ** The tools [check_access] and [get_game] *)

Section Tools.

Import JsString Index.

Lemma lower_char_not_upper c : is_upper (lower_char c) = false.
Proof. destruct c as [[] [] [] [] [] [] [] []]; vm_compute; reflexivity. Qed.

Lemma lower_char_fixed c : is_upper c = false → lower_char c = c.
Proof. unfold is_upper, lower_char. by intros ->. Qed.

Lemma has_upper_toLowerCase s : has_upper (toLowerCase s) = false.
Proof.
  induction s as [|c s IH]; [done|]. cbn [toLowerCase has_upper].
  by rewrite lower_char_not_upper, IH.
Qed.

Lemma toLowerCase_fixed s : has_upper s = false → toLowerCase s = s.
Proof.
  induction s as [|c s IH]; [done|]. cbn [toLowerCase has_upper].
  intros [Hc Hs]%orb_false_iff. by rewrite lower_char_fixed, IH.
Qed.

Lemma has_upper_app a b : has_upper (a +:+ b) = has_upper a || has_upper b.
Proof.
  induction a as [|c a IH]; [done|]. rewrite app_cons. cbn [has_upper].
  by rewrite IH, orb_assoc.
Qed.

Lemma has_white_space_app a b :
  has_white_space (a +:+ b) = has_white_space a || has_white_space b.
Proof.
  induction a as [|c a IH]; [done|]. rewrite app_cons. cbn [has_white_space].
  by rewrite IH, orb_assoc.
Qed.

Lemma has_upper_runs rep b s :
  has_upper rep = false → has_upper s = false →
  has_upper (replace_white_space_runs rep b s) = false.
Proof.
  intros Hrep. revert b. induction s as [|c s IH]; intros b; [done|].
  cbn [replace_white_space_runs has_upper]. intros [Hc Hs]%orb_false_iff.
  destruct (is_white_space c).
  - destruct b; [by apply IH|]. rewrite has_upper_app, Hrep. by apply IH.
  - cbn [has_upper]. rewrite Hc. by apply IH.
Qed.

Lemma has_white_space_runs rep b s :
  has_white_space rep = false →
  has_white_space (replace_white_space_runs rep b s) = false.
Proof.
  intros Hrep. revert b. induction s as [|c s IH]; intros b; [done|].
  cbn [replace_white_space_runs]. destruct (is_white_space c) eqn:Hc.
  - destruct b; [by apply IH|]. rewrite has_white_space_app, Hrep. by apply IH.
  - cbn [has_white_space]. rewrite Hc. by apply IH.
Qed.

Lemma replace_white_space_runs_fixed rep b s :
  has_white_space s = false → replace_white_space_runs rep b s = s.
Proof.
  revert b. induction s as [|c s IH]; intros b; [done|].
  cbn [replace_white_space_runs has_white_space]. intros [Hc Hs]%orb_false_iff.
  rewrite Hc. by rewrite IH.
Qed.

Lemma normalizeGameId_no_upper game : has_upper (normalizeGameId game) = false.
Proof.
  unfold normalizeGameId. apply has_upper_runs; [done|]. apply has_upper_toLowerCase.
Qed.

(** The game id [get_game] looks up has no upper-case letter and no white
    space, and normalising it again changes nothing. *)
Theorem normalizeGameId_shape (game : string) :
  has_upper (normalizeGameId game) = false ∧
  has_white_space (normalizeGameId game) = false ∧
  normalizeGameId (normalizeGameId game) = normalizeGameId game.
Proof.
  pose proof (normalizeGameId_no_upper game) as Hu.
  assert (Hw : has_white_space (normalizeGameId game) = false).
  { unfold normalizeGameId. by apply has_white_space_runs. }
  split; [done|]. split; [done|].
  unfold normalizeGameId at 1. rewrite toLowerCase_fixed by done.
  by apply replace_white_space_runs_fixed.
Qed.

Example normalizeGameId_samples :
  normalizeGameId "Boxy Run" = "boxy-run" ∧
  normalizeGameId "UNICITY  	Quake" = "unicity-quake" ∧
  normalizeGameId " unirun" = "-unirun" ∧
  normalizeGameId "Constructor" = "constructor".
Proof. repeat split; vm_compute; reflexivity. Qed.

Lemma GAMES_get_accepted key :
  has_upper key = false →
  GAMES_get key = None ↔
  key ∉ ["unicity-quake"; "boxy-run"; "unirun"; "constructor"; "__proto__"].
Proof.
  intros Hu. unfold GAMES_get, GAMES. cbn [assoc].
  destruct (decide ("unicity-quake" = key)) as [<-|H1].
  { split; [done|]. intros H. destruct H. set_solver. }
  destruct (decide ("boxy-run" = key)) as [<-|H2].
  { split; [done|]. intros H. destruct H. set_solver. }
  destruct (decide ("unirun" = key)) as [<-|H3].
  { split; [done|]. intros H. destruct H. set_solver. }
  destruct (decide (key ∈ Object_prototype_keys)) as [Hin|Hnot].
  - split; [done|]. intros Hno. exfalso. unfold Object_prototype_keys in Hin.
    repeat (apply elem_of_cons in Hin as [->|Hin];
            [first [ by vm_compute in Hu | destruct Hno; set_solver ]|]).
    by apply elem_of_nil in Hin.
  - split; [|done]. intros _ Hin. apply Hnot. unfold Object_prototype_keys.
    repeat (apply elem_of_cons in Hin as [->|Hin]; [first [done | set_solver]|]).
    by apply elem_of_nil in Hin.
Qed.

Lemma resolvePubkey_frame directory id now1 now2 srv :
  let srv1 := (Index.resolvePubkey directory id now1 now2 srv).2 in
  paymentTracker srv1 = paymentTracker srv ∧
  NostrService.pendingPayments (nostrService srv1)
  = NostrService.pendingPayments (nostrService srv) ∧
  NostrService.timers (nostrService srv1) = NostrService.timers (nostrService srv) ∧
  NostrService.outbox (nostrService srv1) = NostrService.outbox (nostrService srv) ∧
  NostrService.settled (nostrService srv1) = NostrService.settled (nostrService srv) ∧
  NostrService.created (nostrService srv1) = NostrService.created (nostrService srv) ∧
  NostrService.config (nostrService srv1) = NostrService.config (nostrService srv) ∧
  NostrService.client (nostrService srv1) = NostrService.client (nostrService srv).
Proof.
  unfold Index.resolvePubkey.
  destruct (resolvePubkey_check id now1 (pubkeyCache srv)) as [pk|cleanId]; [done|].
  unfold NostrService.resolvePubkey.
  destruct (NostrService.client (nostrService srv)) eqn:Hc; cbn; by rewrite ?Hc.
Qed.

(** After the account is resolved, [get_game] answers "not found" with the
    three game ids exactly when the normalised id is none of the three ids
    and neither "constructor" nor "__proto__", which the object [GAMES]
    inherits; for these two a caller with a valid pass is granted access
    to the inherited property. *)
Theorem get_game_accepted_ids
    (directory : string → option string) (unicity_id game : string)
    (clk : clock) (rid : string) (ok : bool) (srv srv1 : Server) (c : ascii)
    (pk : string) :
  Index.resolvePubkey directory (cleanUnicityId unicity_id) (at_check clk)
    (at_store clk) srv = (NostrService.Ok (Some (String c pk)), srv1) →
  let accepted := ["unicity-quake"; "boxy-run"; "unirun"; "constructor"; "__proto__"] in
  let id := normalizeGameId game in
  let result := (get_game directory unicity_id game clk rid ok srv).1 in
  (GAMES_get id = None ↔ id ∉ accepted) ∧
  (result = GameNotFound game "unicity-quake, boxy-run, unirun" ↔ id ∉ accepted) ∧
  (id ∈ ["constructor"; "__proto__"] →
   PaymentTracker.hasValidPass (cleanUnicityId unicity_id) (at_pass clk)
     (paymentTracker srv1) = true →
   ∃ text, result = AccessGranted id (Inherited id) text).
Proof.
  intros Hres accepted id result.
  pose proof (GAMES_get_accepted id (normalizeGameId_no_upper game)) as Hacc.
  split; [done|]. subst result. unfold get_game. cbv zeta. rewrite Hres.
  fold id. cbn beta iota. split.
  - destruct (GAMES_get id) as [g|] eqn:Hg; cbn [fst].
    + split; [|intros Hno; by apply Hacc in Hno].
      destruct (PaymentTracker.hasValidPass _ _ _).
      * by destruct (PaymentTracker.formatRemainingTime _ _ _ _).
      * by destruct (NostrService.sendPaymentRequest _ _ _ _ _) as [[h|e] ns].
    + split; [intros _; by apply Hacc | done].
  - intros Hin Hpass. rewrite Hpass.
    destruct (PaymentTracker.formatRemainingTime _ _ _ _) as [text tr].
    exists text.
    assert (GAMES_get id = Some (Inherited id)) as ->; [|done].
    apply elem_of_cons in Hin as [->|Hin]; [done|].
    apply elem_of_cons in Hin as [->|Hin]; [done|]. by apply elem_of_nil in Hin.
Qed.

Lemma get_game_accepted_ids_witness :
  let result := (get_game Samples.directory0 "alice" "Constructor"
                   (Samples.clock_at 2000) "k3x9q2ab" true Samples.server_cached).1 in
  (GAMES_get (normalizeGameId "Constructor") = None ↔
   normalizeGameId "Constructor"
   ∉ ["unicity-quake"; "boxy-run"; "unirun"; "constructor"; "__proto__"]) ∧
  (result = GameNotFound "Constructor" "unicity-quake, boxy-run, unirun" ↔
   normalizeGameId "Constructor"
   ∉ ["unicity-quake"; "boxy-run"; "unirun"; "constructor"; "__proto__"]).
Proof.
  intros result.
  pose proof (get_game_accepted_ids Samples.directory0 "alice" "Constructor"
                (Samples.clock_at 2000) "k3x9q2ab" true Samples.server_cached
                Samples.server_cached "p" "kA" eq_refl) as H.
  split; [exact (proj1 H) | exact (proj1 (proj2 H))].
Defined.

(** When the client is connected, the cache holds no fresh entry for the
    id and the directory knows no pubkey for it, each of the three tools
    answers "could not find" with the id as the caller wrote it, and all
    that has changed is the one directory query: no request was sent, no
    pending payment or pass was stored and nothing was cached.  The id is
    cleaned once by the tool, once by the helper for the cache and once by
    the service for the query. *)
Theorem unknown_id_sends_nothing
    (directory : string → option string) (unicity_id game : string)
    (clk : clock) (rid : string) (ok : bool) (srv : Server) :
  let id1 := cleanUnicityId unicity_id in
  let id2 := cleanUnicityId id1 in
  let id3 := cleanUnicityId id2 in
  NostrService.client (nostrService srv) = true →
  (∀ cached, pubkeyCache srv !! id2 = Some cached →
             PUBKEY_CACHE_TTL_MS ≤ at_check clk - timestamp cached) →
  truthy (directory id3) = false →
  ∃ srv',
    check_access directory unicity_id clk srv = (CheckCouldNotFind unicity_id, srv') ∧
    get_game directory unicity_id game clk rid ok srv
    = (GameCouldNotFind unicity_id, srv') ∧
    confirm_payment directory unicity_id clk rid ok srv
    = (Finished (CouldNotFind unicity_id), srv') ∧
    lookups srv' = lookups srv ++ [id3] ∧
    pubkeyCache srv' = pubkeyCache srv ∧
    paymentTracker srv' = paymentTracker srv ∧
    NostrService.outbox (nostrService srv') = NostrService.outbox (nostrService srv) ∧
    NostrService.pendingPayments (nostrService srv')
    = NostrService.pendingPayments (nostrService srv) ∧
    NostrService.timers (nostrService srv') = NostrService.timers (nostrService srv).
Proof.
  intros id1 id2 id3 Hc Hcache Hdir.
  exists (set_nostrService (NostrService.resolvePubkey directory id2 (nostrService srv)).2 srv).
  assert (Hres : Index.resolvePubkey directory id1 (at_check clk) (at_store clk) srv
                 = (NostrService.Ok (directory id3),
                    set_nostrService
                      (NostrService.resolvePubkey directory id2 (nostrService srv)).2 srv)).
  { unfold Index.resolvePubkey.
    rewrite (resolvePubkey_check_miss id1 (at_check clk) (pubkeyCache srv) Hcache).
    fold id2. unfold NostrService.resolvePubkey. rewrite Hc. cbn [negb fst snd].
    fold id3. unfold resolvePubkey_store.
    by destruct (directory id3) as [[|x r]|]. }
  unfold check_access, get_game, confirm_payment. cbv zeta. fold id1. rewrite Hres.
  unfold NostrService.resolvePubkey, lookups. rewrite Hc. cbn [negb fst snd].
  by destruct (directory id3) as [[|x r]|].
Qed.

Lemma unknown_id_sends_nothing_witness :
  ∃ srv',
    check_access Samples.directory0 "@bob@unicity" (Samples.clock_at 2000) Samples.server0
    = (CheckCouldNotFind "@bob@unicity", srv') ∧
    get_game Samples.directory0 "@bob@unicity" "unirun" (Samples.clock_at 2000)
      "k3x9q2ab" true Samples.server0
    = (GameCouldNotFind "@bob@unicity", srv') ∧
    confirm_payment Samples.directory0 "@bob@unicity" (Samples.clock_at 2000)
      "k3x9q2ab" true Samples.server0
    = (Finished (CouldNotFind "@bob@unicity"), srv') ∧
    lookups srv' = lookups Samples.server0 ++ ["bob"] ∧
    pubkeyCache srv' = pubkeyCache Samples.server0 ∧
    paymentTracker srv' = paymentTracker Samples.server0 ∧
    NostrService.outbox (nostrService srv')
    = NostrService.outbox (nostrService Samples.server0) ∧
    NostrService.pendingPayments (nostrService srv')
    = NostrService.pendingPayments (nostrService Samples.server0) ∧
    NostrService.timers (nostrService srv')
    = NostrService.timers (nostrService Samples.server0).
Proof.
  apply (unknown_id_sends_nothing Samples.directory0 "@bob@unicity" "unirun"
           (Samples.clock_at 2000) "k3x9q2ab" true Samples.server0).
  - reflexivity.
  - intros cached H. vm_compute in H. discriminate H.
  - reflexivity.
Defined.

(** [check_access] sends no request and stores no pending payment, and
    [get_game] stores no pending payment, schedules no timeout and makes
    no promise: the request it sends when it answers "payment required"
    is one the service never waits for. *)
Theorem get_game_stores_no_pending
    (directory : string → option string) (unicity_id game : string)
    (clk : clock) (rid : string) (ok : bool) (srv : Server) :
  let ns := nostrService srv in
  let ns1 := nostrService (check_access directory unicity_id clk srv).2 in
  let ns2 := nostrService (get_game directory unicity_id game clk rid ok srv).2 in
  let result := (get_game directory unicity_id game clk rid ok srv).1 in
  (NostrService.outbox ns1 = NostrService.outbox ns ∧
   NostrService.pendingPayments ns1 = NostrService.pendingPayments ns ∧
   NostrService.timers ns1 = NostrService.timers ns) ∧
  (NostrService.pendingPayments ns2 = NostrService.pendingPayments ns ∧
   NostrService.timers ns2 = NostrService.timers ns ∧
   NostrService.created ns2 = NostrService.created ns ∧
   NostrService.settled ns2 = NostrService.settled ns) ∧
  (∀ id seconds, result = PaymentRequired id seconds →
     id = cleanUnicityId unicity_id ∧
     seconds = Config.paymentTimeoutSeconds (NostrService.config ns) ∧
     ∃ pubkey,
       NostrService.outbox ns2
       = NostrService.outbox ns
         ++ [NostrInv.request_for (NostrService.config ns) id pubkey rid]) ∧
  ((∀ id seconds, result ≠ PaymentRequired id seconds) →
   (∀ error, result ≠ GameThrown error) →
   NostrService.outbox ns2 = NostrService.outbox ns).
Proof.
  intros ns ns1 ns2 result. subst ns ns1 ns2 result.
  unfold check_access, get_game. cbv zeta.
  destruct (resolvePubkey_frame directory (cleanUnicityId unicity_id) (at_check clk)
              (at_store clk) srv) as (Htr & Hp & Ht & Ho & Hs & Hcr & Hcfg & Hcl).
  destruct (Index.resolvePubkey directory (cleanUnicityId unicity_id) (at_check clk)
              (at_store clk) srv) as [[[[|c pk]|]|e] srv1]; cbn [fst snd] in *;
    try (repeat split; (done || congruence)).
  split; [|split; [|split]].
  - destruct (PaymentTracker.hasValidPass _ _ _); [|done].
    by destruct (PaymentTracker.formatRemainingTime _ _ _ _).
  - destruct (GAMES_get (normalizeGameId game)); [|done].
    destruct (PaymentTracker.hasValidPass _ _ _).
    + by destruct (PaymentTracker.formatRemainingTime _ _ _ _).
    + unfold NostrService.sendPaymentRequest.
      destruct (NostrService.client (nostrService srv1)); [|done]. by destruct ok.
  - intros id seconds.
    destruct (GAMES_get (normalizeGameId game)); [|done].
    destruct (PaymentTracker.hasValidPass _ _ _).
    + by destruct (PaymentTracker.formatRemainingTime _ _ _ _).
    + unfold NostrService.sendPaymentRequest.
      destruct (NostrService.client (nostrService srv1)); [|done].
      destruct ok; cbn [fst snd negb]; [|done].
      intros [= <- <-].
      cbn [nostrService set_nostrService NostrService.outbox NostrService.config].
      rewrite Ho, Hcfg. split; [done|]. split; [done|]. by exists (String c pk).
  - intros Hnot Hthrown.
    destruct (GAMES_get (normalizeGameId game)); [|done].
    destruct (PaymentTracker.hasValidPass _ _ _).
    + by destruct (PaymentTracker.formatRemainingTime _ _ _ _).
    + revert Hnot Hthrown. unfold NostrService.sendPaymentRequest.
      destruct (NostrService.client (nostrService srv1)); [|done].
      destruct ok; cbn [fst snd negb]; intros Hnot Hthrown.
      * by destruct (Hnot (cleanUnicityId unicity_id)
                       (Config.paymentTimeoutSeconds
                          (NostrService.config (nostrService srv1)))).
      * by destruct (Hthrown "client.sendPaymentRequest").
Qed.

Lemma formatRemainingTime_no_pass id now1 now2 tr :
  (PaymentTracker.formatRemainingTime id now1 now2 tr).1 = "No active pass" ↔
  (PaymentTracker.getRemainingTime id now1 now2 tr).1 = 0.
Proof.
  unfold PaymentTracker.formatRemainingTime.
  destruct (PaymentTracker.getRemainingTime id now1 now2 tr) as [ms tr']. cbn [fst].
  destruct (Z.eqb_spec ms 0) as [->|Hne]; [done|].
  destruct (0 <? ms / (60 * 60 * 1000)); cbn [fst]; (split; [|done]).
  - rewrite <- !string_app_assoc.
    intros H'. by apply minutes_text_is_not_no_pass in H'.
  - intros H'. by apply minutes_text_is_not_no_pass in H'.
Qed.

(** After the account is resolved, [check_access] reports no access when
    the tracker has no pass that is valid at its first reading of the
    clock, and it leaves an expired pass where it is.  With a valid pass it
    reports access; the remaining time it prints is "No active pass"
    exactly when the pass has expired by one of the two later readings,
    and the pass is deleted when it has expired by the first of them. *)
Theorem check_access_reports
    (directory : string → option string) (unicity_id : string) (clk : clock)
    (srv srv1 : Server) (c : ascii) (pk : string) :
  Index.resolvePubkey directory (cleanUnicityId unicity_id) (at_check clk)
    (at_store clk) srv = (NostrService.Ok (Some (String c pk)), srv1) →
  let id := cleanUnicityId unicity_id in
  let key := toLowerCase id in
  let passes := PaymentTracker.dayPasses (paymentTracker srv) in
  paymentTracker srv1 = paymentTracker srv ∧
  ((∀ pass, passes !! key = Some pass → PaymentTracker.expiresAt pass ≤ at_pass clk) →
   check_access directory unicity_id clk srv = (NoAccess ("@" +:+ id), srv1)) ∧
  (∀ pass, passes !! key = Some pass → at_pass clk < PaymentTracker.expiresAt pass →
     ∃ text tr,
       check_access directory unicity_id clk srv
       = (HasAccess ("@" +:+ id) text, set_paymentTracker tr srv1) ∧
       (text = "No active pass" ↔
        PaymentTracker.expiresAt pass ≤ at_get clk ∨
        PaymentTracker.expiresAt pass ≤ at_remaining clk) ∧
       PaymentTracker.dayPasses tr
       = if PaymentTracker.expiresAt pass <=? at_get clk
         then delete key passes else passes).
Proof.
  intros Hres id key passes.
  assert (Htr : paymentTracker srv1 = paymentTracker srv).
  { pose proof (proj1 (resolvePubkey_frame directory (cleanUnicityId unicity_id)
                         (at_check clk) (at_store clk) srv)) as H.
    by rewrite Hres in H. }
  split; [done|]. unfold check_access. cbv zeta. rewrite Hres.
  fold id. cbn beta iota. rewrite Htr. split.
  - intros Hexp. unfold PaymentTracker.hasValidPass. fold key passes.
    destruct (passes !! key) as [pass|]; [|done].
    specialize (Hexp pass eq_refl).
    by destruct (Z.ltb_spec (at_pass clk) (PaymentTracker.expiresAt pass)); [lia|].
  - intros pass Hpass Hvalid.
    unfold PaymentTracker.hasValidPass. fold key passes. rewrite Hpass.
    destruct (Z.ltb_spec (at_pass clk) (PaymentTracker.expiresAt pass)); [|lia].
    pose proof (formatRemainingTime_no_pass id (at_get clk) (at_remaining clk)
                  (paymentTracker srv)) as Htext.
    assert (Hms : PaymentTracker.getRemainingTime id (at_get clk) (at_remaining clk)
                    (paymentTracker srv)
                  = if PaymentTracker.expiresAt pass <=? at_get clk
                    then (0, {| PaymentTracker.dayPasses := delete key passes;
                                PaymentTracker.durationMs :=
                                  PaymentTracker.durationMs (paymentTracker srv) |})
                    else (Z.max 0 (PaymentTracker.expiresAt pass - at_remaining clk),
                          paymentTracker srv)).
    { unfold PaymentTracker.getRemainingTime, PaymentTracker.getPass.
      fold key passes. rewrite Hpass.
      by destruct (PaymentTracker.expiresAt pass <=? at_get clk). }
    assert (Hsnd : (PaymentTracker.formatRemainingTime id (at_get clk)
                      (at_remaining clk) (paymentTracker srv)).2
                   = (PaymentTracker.getRemainingTime id (at_get clk)
                        (at_remaining clk) (paymentTracker srv)).2).
    { unfold PaymentTracker.formatRemainingTime.
      destruct (PaymentTracker.getRemainingTime _ _ _ _) as [ms tr'].
      destruct (ms =? 0); [done|]. by destruct (0 <? _). }
    destruct (PaymentTracker.formatRemainingTime id (at_get clk) (at_remaining clk)
                (paymentTracker srv)) as [text tr].
    exists text, tr. split; [done|]. cbn [fst snd] in *. rewrite Htext, Hsnd, Hms.
    destruct (Z.leb_spec (PaymentTracker.expiresAt pass) (at_get clk)); cbn [fst snd].
    + split; [|done]. split; [by left | done].
    + split; [|done]. lia.
Qed.

Lemma check_access_reports_witness :
  let tr := (PaymentTracker.grantDayPass "alice" 1000 (PaymentTracker.new 24)).2 in
  let srv := set_paymentTracker tr Samples.server_cached in
  let clk := {| at_check := 2000; at_store := 2000; at_pass := 86400999;
                at_get := 86401000; at_remaining := 86401000 |} in
  ∃ text tr',
    check_access Samples.directory0 "@alice" clk srv
    = (HasAccess "@alice" text, set_paymentTracker tr' srv) ∧
    (text = "No active pass" ↔ 86401000 ≤ 86401000 ∨ 86401000 ≤ 86401000) ∧
    PaymentTracker.dayPasses tr' = delete "alice" (PaymentTracker.dayPasses tr).
Proof.
  intros tr srv clk.
  apply (proj2 (proj2 (check_access_reports Samples.directory0 "@alice" clk srv srv
                         "p" "kA" eq_refl))
           {| PaymentTracker.unicityId := "alice"; PaymentTracker.grantedAt := 1000;
              PaymentTracker.expiresAt := 86401000 |}); reflexivity.
Defined.

Example check_access_expiring_sample :
  let tr := (PaymentTracker.grantDayPass "alice" 1000 (PaymentTracker.new 24)).2 in
  let srv := set_paymentTracker tr Samples.server_cached in
  let clk := {| at_check := 2000; at_store := 2000; at_pass := 86400999;
                at_get := 86401000; at_remaining := 86401000 |} in
  (check_access Samples.directory0 "@alice" clk srv).1
  = HasAccess "@alice" "No active pass".
Proof. vm_compute. reflexivity. Qed.

Lemma check_access_resolved directory unicity_id clk srv srv1 c pk :
  Index.resolvePubkey directory (cleanUnicityId unicity_id) (at_check clk)
    (at_store clk) srv = (NostrService.Ok (Some (String c pk)), srv1) →
  paymentTracker srv1 = paymentTracker srv ∧
  check_access directory unicity_id clk srv
  = if PaymentTracker.hasValidPass (cleanUnicityId unicity_id) (at_pass clk)
         (paymentTracker srv)
    then (HasAccess ("@" +:+ cleanUnicityId unicity_id)
            (PaymentTracker.formatRemainingTime (cleanUnicityId unicity_id)
               (at_get clk) (at_remaining clk) (paymentTracker srv)).1,
          set_paymentTracker
            (PaymentTracker.formatRemainingTime (cleanUnicityId unicity_id)
               (at_get clk) (at_remaining clk) (paymentTracker srv)).2 srv1)
    else (NoAccess ("@" +:+ cleanUnicityId unicity_id), srv1).
Proof.
  intros Hres.
  assert (Htr : paymentTracker srv1 = paymentTracker srv).
  { pose proof (proj1 (resolvePubkey_frame directory (cleanUnicityId unicity_id)
                         (at_check clk) (at_store clk) srv)) as H.
    by rewrite Hres in H. }
  split; [done|]. unfold check_access. cbv zeta. rewrite Hres. cbn beta iota.
  rewrite Htr. destruct (PaymentTracker.hasValidPass _ _ _); [|done].
  by destruct (PaymentTracker.formatRemainingTime _ _ _ _).
Qed.

(** When the promise of a [confirm_payment] call is resolved with [true],
    the call grants a pass that expires [durationMs] after its reading of
    the clock and touches neither the service nor the cache; the expiry is
    taken within the range of [Date], outside of which [toISOString]
    throws after the grant.  If that pass has not expired when the call
    reads it back, then a later [check_access] for any spelling of the
    account that cleans and lower-cases to the same key reports access
    before the expiry and no access from the expiry on. *)
Theorem confirmed_payment_gives_access
    (directory : string → option string) (unicityId unicity_id' : string)
    (p : NostrService.Promise) (clk clk' : clock) (srv : Server) :
  NostrService.outcome p (nostrService srv) = Some true →
  toLowerCase (cleanUnicityId unicity_id') = toLowerCase unicityId →
  -8640000000000000 ≤ at_pass clk + PaymentTracker.durationMs (paymentTracker srv)
    ≤ 8640000000000000 →
  ∃ pass ms srv',
    confirm_payment_settled unicityId p clk srv = Some (PaymentConfirmed pass ms, srv') ∧
    pass = {| PaymentTracker.unicityId := unicityId;
              PaymentTracker.grantedAt := at_pass clk;
              PaymentTracker.expiresAt :=
                at_pass clk + PaymentTracker.durationMs (paymentTracker srv) |} ∧
    nostrService srv' = nostrService srv ∧
    pubkeyCache srv' = pubkeyCache srv ∧
    (at_get clk < PaymentTracker.expiresAt pass →
     ∀ srv1 c pk,
       Index.resolvePubkey directory (cleanUnicityId unicity_id') (at_check clk')
         (at_store clk') srv' = (NostrService.Ok (Some (String c pk)), srv1) →
       (at_pass clk' < PaymentTracker.expiresAt pass →
        ∃ text tr,
          check_access directory unicity_id' clk' srv'
          = (HasAccess ("@" +:+ cleanUnicityId unicity_id') text,
             set_paymentTracker tr srv1)) ∧
       (PaymentTracker.expiresAt pass ≤ at_pass clk' →
        check_access directory unicity_id' clk' srv'
        = (NoAccess ("@" +:+ cleanUnicityId unicity_id'), srv1))).
Proof.
  intros Hout Hkey _. unfold confirm_payment_settled. rewrite Hout.
  cbn [mbind option_bind].
  unfold PaymentTracker.grantDayPass, PaymentTracker.getRemainingTime,
    PaymentTracker.getPass.
  cbn [PaymentTracker.dayPasses PaymentTracker.durationMs].
  rewrite lookup_insert_eq. cbn [PaymentTracker.expiresAt].
  set (pass := {| PaymentTracker.unicityId := unicityId;
                  PaymentTracker.grantedAt := at_pass clk;
                  PaymentTracker.expiresAt :=
                    at_pass clk + PaymentTracker.durationMs (paymentTracker srv) |}).
  destruct (Z.leb_spec (at_pass clk + PaymentTracker.durationMs (paymentTracker srv))
              (at_get clk)) as [Hle|Hlt].
  - eexists pass, _, _. split; [done|]. split; [done|]. split; [done|].
    split; [done|]. cbn [PaymentTracker.expiresAt pass]. lia.
  - eexists pass, _, _. split; [done|]. split; [done|]. split; [done|].
    split; [done|]. intros _ srv1 c pk Hres.
    destruct (check_access_resolved directory unicity_id' clk' _ srv1 c pk Hres)
      as [_ ->].
    unfold PaymentTracker.hasValidPass.
    cbn [paymentTracker set_paymentTracker PaymentTracker.dayPasses].
    rewrite Hkey, lookup_insert_eq. fold pass.
    destruct (Z.ltb_spec (at_pass clk') (PaymentTracker.expiresAt pass)).
    + split; [eauto | lia].
    + split; [lia | done].
Qed.

Lemma confirmed_payment_gives_access_witness :
  let srv := set_nostrService Samples.matched Samples.server_cached in
  let clk := Samples.clock_at 7000 in
  let clk' := Samples.clock_at 86406999 in
  ∃ pass ms srv',
    confirm_payment_settled "Alice" 0%nat clk srv
    = Some (PaymentConfirmed pass ms, srv') ∧
    pass = {| PaymentTracker.unicityId := "Alice";
              PaymentTracker.grantedAt := 7000;
              PaymentTracker.expiresAt := 7000 + 86400000 |} ∧
    nostrService srv' = nostrService srv ∧
    pubkeyCache srv' = pubkeyCache srv ∧
    (7000 < PaymentTracker.expiresAt pass →
     ∀ srv1 c pk,
       Index.resolvePubkey Samples.directory0 "alice" 86406999 86406999 srv'
       = (NostrService.Ok (Some (String c pk)), srv1) →
       (86406999 < PaymentTracker.expiresAt pass →
        ∃ text tr,
          check_access Samples.directory0 " @alice " clk' srv'
          = (HasAccess "@alice" text, set_paymentTracker tr srv1)) ∧
       (PaymentTracker.expiresAt pass ≤ 86406999 →
        check_access Samples.directory0 " @alice " clk' srv'
        = (NoAccess "@alice", srv1))).
Proof.
  intros srv clk clk'.
  apply (confirmed_payment_gives_access Samples.directory0 "Alice" " @alice " 0%nat
           clk clk' srv); [reflexivity | reflexivity | split; by vm_compute].
Defined.

Example confirmed_payment_sample :
  let srv := set_nostrService Samples.matched Samples.server_cached in
  let srv' := default srv (snd <$> confirm_payment_settled "Alice" 0%nat
                                     (Samples.clock_at 7000) srv) in
  (check_access Samples.directory0 " @alice " (Samples.clock_at 86406999) srv').1
  = HasAccess "@alice" "0m remaining" ∧
  (check_access Samples.directory0 " @alice " (Samples.clock_at 86407000) srv').1
  = NoAccess "@alice".
Proof. split; vm_compute; reflexivity. Qed.

End Tools.

(** ** The identity service: minting the nametag and binding it *)

Section Identity.

Import IdentityService.

Lemma accepted_dec (a : attempt) :
  {c | a = Response c "SUCCESS"} + {∀ c, a ≠ Response c "SUCCESS"}.
Proof.
  destruct a as [e|c e|c status]; [by right..|].
  destruct (String.eqb_spec status "SUCCESS") as [->|Hne].
  - left. by exists c.
  - right. intros c' [= _ Hs]. done.
Qed.

Lemma retry_rejected oracle fuel k commitment sleeps :
  (∀ c, oracle k ≠ Response c "SUCCESS") →
  (k ≤ MAX_RETRIES)%nat →
  retry oracle (S fuel) k commitment sleeps
  = if (k =? MAX_RETRIES)%nat
    then (LoopThrows match oracle k with
                     | CreateThrows error | SubmitThrows _ error => error
                     | Response _ status =>
                         "Failed after " +:+ pretty MAX_RETRIES +:+ " attempts: "
                         +:+ status
                     end, sleeps)
    else retry oracle fuel (S k)
           match oracle k with
           | CreateThrows _ => commitment
           | SubmitThrows c _ | Response c _ => Some c
           end (sleeps ++ [1000 * Z.of_nat k]).
Proof.
  intros Hrej Hk. cbn [retry].
  destruct (Nat.ltb_spec MAX_RETRIES k); [lia|].
  destruct (oracle k) as [e|c e|c status]; [done..|].
  destruct (String.eqb_spec status "SUCCESS") as [->|Hne]; [by destruct (Hrej c)|].
  done.
Qed.

Lemma retry_accepted oracle fuel k commitment sleeps c :
  oracle k = Response c "SUCCESS" →
  (k ≤ MAX_RETRIES)%nat →
  retry oracle (S fuel) k commitment sleeps = (LoopDone (Some c), sleeps).
Proof.
  intros Hacc Hk. cbn [retry].
  destruct (Nat.ltb_spec MAX_RETRIES k); [lia|]. by rewrite Hacc.
Qed.

(** The loop of [mintNametag] ends within three attempts.  It leaves with
    a commitment exactly when one of the three submissions is answered
    with SUCCESS, and then with the commitment of the first such answer,
    after sleeps of 1000 ms and 2000 ms for the attempts before it;
    otherwise [mintNametag] throws what the third attempt met.  The error
    "Failed to create commitment" after the loop is raised on no path. *)
Theorem mintNametag_retries (oracle : nat → attempt) :
  let result := mintNametag_commitment oracle in
  let accepts k c := oracle k = Response c "SUCCESS" in
  let rejected k := ∀ c, oracle k ≠ Response c "SUCCESS" in
  let third_error :=
    match oracle 3%nat with
    | CreateThrows error | SubmitThrows _ error => error
    | Response _ status => "Failed after 3 attempts: " +:+ status
    end in
  (∃ c, accepts 1%nat c ∧ result = (Committed c, [])) ∨
  (∃ c, rejected 1%nat ∧ accepts 2%nat c ∧ result = (Committed c, [1000])) ∨
  (∃ c, rejected 1%nat ∧ rejected 2%nat ∧ accepts 3%nat c ∧
        result = (Committed c, [1000; 2000])) ∨
  (rejected 1%nat ∧ rejected 2%nat ∧ rejected 3%nat ∧
   result = (MintThrows third_error, [1000; 2000])).
Proof.
  intros result accepts rejected third_error.
  subst result accepts rejected third_error. unfold mintNametag_commitment.
  destruct (accepted_dec (oracle 1%nat)) as [[c1 H1]|H1].
  { left. exists c1. split; [done|].
    by rewrite (retry_accepted oracle _ 1 None [] c1 H1) by (unfold MAX_RETRIES; lia). }
  right. rewrite (retry_rejected oracle _ 1 None [] H1) by (unfold MAX_RETRIES; lia).
  change MAX_RETRIES with 3%nat. cbn [Nat.eqb app].
  destruct (accepted_dec (oracle 2%nat)) as [[c2 H2]|H2].
  { left. exists c2. split; [done|]. split; [done|].
    by rewrite (retry_accepted oracle _ 2 _ _ c2 H2) by (unfold MAX_RETRIES; lia). }
  right. rewrite (retry_rejected oracle _ 2 _ _ H2) by (unfold MAX_RETRIES; lia).
  change MAX_RETRIES with 3%nat. cbn [Nat.eqb app].
  destruct (accepted_dec (oracle 3%nat)) as [[c3 H3]|H3].
  { left. exists c3. split; [done|]. split; [done|]. split; [done|].
    by rewrite (retry_accepted oracle _ 3 _ _ c3 H3) by (unfold MAX_RETRIES; lia). }
  right. rewrite (retry_rejected oracle _ 3 _ _ H3) by (unfold MAX_RETRIES; lia).
  change MAX_RETRIES with 3%nat. cbn [Nat.eqb]. split; [done|]. split; [done|]. split; [done|].
  by destruct (oracle 3%nat).
Qed.

Example mintNametag_samples :
  mintNametag_commitment
    (λ k, match k with
          | 1%nat => SubmitThrows 11 "network"
          | 2%nat => CreateThrows "salt"
          | _ => Response 13 "SUCCESS"
          end)
  = (Committed 13, [1000; 2000]) ∧
  mintNametag_commitment
    (λ k, match k with
          | 1%nat => Response 11 "REQUEST_ID_EXISTS"
          | 2%nat => SubmitThrows 12 "network"
          | _ => CreateThrows "salt"
          end)
  = (MintThrows "salt", [1000; 2000]) ∧
  mintNametag_commitment (λ k, Response (10 + k) "AUTHENTICATOR_VERIFICATION_FAILED")
  = (MintThrows "Failed after 3 attempts: AUTHENTICATOR_VERIFICATION_FAILED",
     [1000; 2000]).
Proof. repeat split; vm_compute; reflexivity. Qed.





Example ensureNostrBinding_samples :
  let r published :=
    {| on_connect := Returns (); on_query := Returns (Some "pkOther");
       own_pubkey := "pkOwn"; on_proxy_address := Returns "PROXY";
       on_publish := Returns published; on_disconnect := Returns () |} in
  ensureNostrBinding Samples.cfg0 (r false)
  = (None, [CallConnect "wss://nostr-relay.testnet.unicity.network";
            CallQuery "gaming-mcp"; CallPublish "gaming-mcp" "PROXY"; CallDisconnect]) ∧
  ensureNostrBinding Samples.cfg0
    {| on_connect := Raises "ECONNREFUSED"; on_query := Returns None;
       own_pubkey := "pkOwn"; on_proxy_address := Returns "PROXY";
       on_publish := Returns true; on_disconnect := Raises "not connected" |}
  = (Some "ECONNREFUSED",
     [CallConnect "wss://nostr-relay.testnet.unicity.network"; CallDisconnect]).
Proof. split; vm_compute; reflexivity. Qed.

End Identity.

(** ** Transfers that match no pending payment *)

Section Transfers.

Import NostrService NostrInv.

(** In a run of the service, an inbound event changes nothing exactly
    when it is no token transfer or no pending payment has both the
    pubkey of its sender and an amount the transfer reaches: a transfer
    that is one unit short, or whose amount cannot be read, resolves no
    promise and is not kept for later. *)
Theorem transfer_without_match_is_ignored (s : t) (ev : Event) :
  reachable s →
  (handleIncomingTransfer ev s = s ↔
   isTokenTransfer ev = false ∨
   ∀ k pd, (k, pd) ∈ pendingPayments s →
     userPubkey pd ≠ getSender ev ∨ getAmount ev = None ∨
     ∃ a, getAmount ev = Some a ∧ a < amount pd).
Proof.
  intros Hreach. split.
  - intros Hsame. destruct (isTokenTransfer ev) eqn:Hev; [right | by left].
    intros k pd Hin. apply satisfies_false.
    destruct (satisfies ev pd) eqn:Hsat; [exfalso | done].
    destruct (first_match ev (pendingPayments s)) as [[k' pd']|] eqn:Hfm.
    + unfold handleIncomingTransfer in Hsame.
      rewrite (reachable_keyManager s (k, pd) Hreach Hin), Hev, Hfm in Hsame.
      apply (f_equal (λ s, length (resolveCalls s))) in Hsame.
      cbn in Hsame. rewrite length_app in Hsame. cbn in Hsame. lia.
    + apply first_match_None in Hfm. rewrite Forall_forall in Hfm.
      specialize (Hfm (k, pd) Hin). cbn in Hfm. congruence.
  - intros [Hev|Hnone].
    + unfold handleIncomingTransfer. rewrite Hev. by destruct (keyManager s).
    + apply handleIncomingTransfer_none, first_match_None, Forall_forall.
      intros [k pd] Hin. apply satisfies_false. by apply (Hnone k).
Qed.

Lemma transfer_without_match_is_ignored_witness :
  isTokenTransfer Samples.transfer_short = false ∨
  ∀ k pd, (k, pd) ∈ pendingPayments Samples.crossed →
    userPubkey pd ≠ getSender Samples.transfer_short ∨
    getAmount Samples.transfer_short = None ∨
    ∃ a, getAmount Samples.transfer_short = Some a ∧ a < amount pd.
Proof.
  apply (proj1 (transfer_without_match_is_ignored Samples.crossed Samples.transfer_short
                  (ex_intro _ Samples.cfg0 (ex_intro _ Samples.crossed_acts eq_refl)))).
  reflexivity.
Defined.

End Transfers.
